(** * gorilla-lang: parser, instruction encoding and virtual machine

    A shallow embedding of the Go packages [parser], [code] and [vm], and
    the properties of their specification.

    Conventions.  A Go [int] is a [Z]; a [byte] is a [Z] in [0, 256); a
    nil interface or nil pointer is [None].  A Go [panic] is an outcome of
    its own, next to the normal return, because the parser unwinds with
    panics and recovers them at the top. *)

From stdpp Require Import base list strings pretty.
From Stdlib Require Import ZArith Lia.

Open Scope Z_scope.

(** ** Package [code]: instruction encoding *)

Module code.

(** The opcodes the sources name.  [type OpCode byte]: the numbering of
    the constants is a parameter ([byteOf]) of everything below. *)
Inductive OpCode : Type :=
| OpConstant
| OpSetLocal
| OpAdd
| OpClosure.

(** Go's conversion [byte(x)] of an [int]. *)
Definition byte (x : Z) : Z := Z.land x 255.

(** Modelled from the spec: the table of operand widths per opcode, which
    is missing from the sources.  The spec fixes a 2-byte constant-pool
    index, a 1-byte local slot, and a 2-byte function index followed by a
    1-byte count of captured variables; the test table adds that [OpAdd]
    has no operand. *)
Definition operandWidths (op : OpCode) : list nat :=
  match op with
  | OpConstant => [2%nat]
  | OpSetLocal => [1%nat]
  | OpAdd => []
  | OpClosure => [2%nat; 1%nat]
  end.

(** [width] bytes of [x], most significant first. *)
Fixpoint putBigEndian (width : nat) (x : Z) : list Z :=
  match width with
  | O => []
  | S w => byte (Z.shiftr x (8 * Z.of_nat w)) :: putBigEndian w x
  end.

Fixpoint putOperands (widths : list nat) (operands : list Z) : list Z :=
  match widths, operands with
  | w :: ws, o :: os => putBigEndian w o ++ putOperands ws os
  | _, _ => []
  end.

Section Numbering.
Variable byteOf : OpCode -> Z.

(** Modelled from the spec: [Make], the encoder, is missing from the
    sources (only its test is there).  One opcode byte, then each
    operand in big-endian order on the width its opcode fixes.  The
    spec speaks only of calls that give one operand per width. *)
Definition Make (op : OpCode) (operands : list Z) : list Z :=
  byteOf op :: putOperands (operandWidths op) operands.
End Numbering.

(** Modelled from the spec: [ReadUint16], the decoder of a 2-byte
    operand, is missing from the sources.  It reads the first two bytes
    of the slice as a big-endian number; on a shorter slice Go would
    fault on the missing byte, which is [None] here. *)
Definition ReadUint16 (ins : list Z) : option Z :=
  match ins with
  | hi :: lo :: _ => Some (Z.lor (Z.shiftl hi 8) lo)
  | _ => None
  end.

End code.

(** ** Package [vm]: the virtual machine *)

Module vm.

Definition StackSize : Z := 2048.

(** What the Go runtime panics with on a bad index. *)
Inductive RuntimePanic : Type :=
| IndexOutOfRange (index len : Z).

Section Machine.
(** [object.Object] is declared outside the sources. *)
Variable Object : Type.
Variable byteOf : code.OpCode -> Z.

(** An interface value: [None] is Go's [nil]. *)
Definition Value : Type := option Object.

Record Bytecode : Type := mkBytecode {
  Instructions : list Z;
  Constants : list Value
}.

Record VM : Type := mkVM {
  instructions : list Z;
  constants : list Value;
  stack : list Value;
  sp : Z
}.

(** A call either returns a value or panics; both leave a machine. *)
Inductive Outcome (A : Type) : Type :=
| Returned (a : A) (v : VM)
| Panicked (e : RuntimePanic) (v : VM).
Arguments Returned {A} a v.
Arguments Panicked {A} e v.

Definition len {A : Type} (l : list A) : Z := Z.of_nat (length l).

Definition New (bytecode : Bytecode) : VM :=
  {| instructions := Instructions bytecode;
     constants := Constants bytecode;
     stack := replicate (Z.to_nat StackSize) None;
     sp := -1 |}.

Definition set_sp (v : VM) (n : Z) : VM :=
  {| instructions := instructions v; constants := constants v;
     stack := stack v; sp := n |}.

Definition set_stack (v : VM) (s : list Value) : VM :=
  {| instructions := instructions v; constants := constants v;
     stack := s; sp := sp v |}.

(** [error] is [nil] or the message of [fmt.Errorf]. *)
Definition error : Type := option string.

Definition pushStack (o : Value) (v : VM) : Outcome error :=
  if len (stack v) <=? sp v then
    Returned (Some "Stack full"%string) v
  else
    let v1 := set_sp v (sp v + 1) in
    if (0 <=? sp v1) && (sp v1 <? len (stack v1)) then
      Returned None (set_stack v1 (<[Z.to_nat (sp v1) := o]> (stack v1)))
    else
      Panicked (IndexOutOfRange (sp v1) (len (stack v1))) v1.

Definition popStack (v : VM) : Outcome Value :=
  if sp v <? 0 then
    Returned None v
  else
    match stack v !! Z.to_nat (sp v) with
    | Some o => Returned o (set_sp v (sp v - 1))
    | None => Panicked (IndexOutOfRange (sp v) (len (stack v))) v
    end.

Definition StackTop (v : VM) : Outcome Value :=
  if sp v <? 0 then
    Returned None v
  else
    match stack v !! Z.to_nat (sp v) with
    | Some o => Returned o v
    | None => Panicked (IndexOutOfRange (sp v) (len (stack v))) v
    end.

(** The body of the [for] of [Run] at instruction pointer [ip]; the
    result is the outcome of an early exit, or the machine and the
    instruction pointer the iteration ends with (before [ip++]).  The
    [fmt.Printf] of the index writes to the standard output only. *)
Definition step (ip : Z) (v : VM) : Outcome error + (Z * VM) :=
  match instructions v !! Z.to_nat ip with
  | None => inl (Panicked (IndexOutOfRange ip (len (instructions v))) v)
  | Some c =>
      if c =? byteOf code.OpConstant then
        match code.ReadUint16 (drop (Z.to_nat (ip + 1)) (instructions v)) with
        | None =>
            inl (Panicked (IndexOutOfRange 1
                   (len (drop (Z.to_nat (ip + 1)) (instructions v)))) v)
        | Some index =>
            let ip2 := ip + 2 in
            match constants v !! Z.to_nat index with
            | None => inl (Panicked (IndexOutOfRange index (len (constants v))) v)
            | Some o =>
                match pushStack o v with
                | Returned None v1 => inr (ip2, v1)
                | Returned (Some msg) v1 => inl (Returned (Some msg) v1)
                | Panicked e v1 => inl (Panicked e v1)
                end
            end
        end
      else inr (ip, v)
  end.

(** [for ip := 0; ip < len(v.instructions); ip++].  [fuel] bounds the
    number of iterations; [None] is the model running out of it. *)
Fixpoint run_from (fuel : nat) (ip : Z) (v : VM) : option (Outcome error) :=
  if ip <? len (instructions v) then
    match fuel with
    | O => None
    | S fuel' =>
        match step ip v with
        | inl out => Some out
        | inr (ip1, v1) => run_from fuel' (ip1 + 1) v1
        end
    end
  else Some (Returned None v).

(** Every iteration moves [ip] forward, so one unit of fuel per byte
    of the instruction stream is enough (see [run_from_total]). *)
Definition Run (v : VM) : option (Outcome error) :=
  run_from (length (instructions v)) 0 v.

End Machine.

Arguments Returned {Object A} a v.
Arguments Panicked {Object A} e v.
Arguments mkVM {Object}.
Arguments mkBytecode {Object}.
Arguments instructions {Object}.
Arguments constants {Object}.
Arguments stack {Object}.
Arguments sp {Object}.
Arguments New {Object}.
Arguments pushStack {Object}.
Arguments popStack {Object}.
Arguments StackTop {Object}.
Arguments step {Object}.
Arguments run_from {Object}.
Arguments Run {Object}.
Arguments set_sp {Object}.
Arguments set_stack {Object}.

End vm.

(** ** Package [token]: what the parser uses of it

    The package itself is outside the sources.  The parser names the token
    kinds below; every other kind (the operators, which the parser only
    meets through the operator lists of the package) is [OTHER]. *)

Module token.

Inductive TokenType : Type :=
| IDENT | INT | TRUE | FALSE | STRING
| IF_ | ELSE | FUNCTION | LET | RETURN
| LBRACKET | RBRACKET | LBRACE | RBRACE | LPAREN | RPAREN
| COMMA | COLON | SEMICOLON | ASSIGN | EOF
| OTHER (name : string).

Definition eqb (a b : TokenType) : bool :=
  match a, b with
  | IDENT, IDENT | INT, INT | TRUE, TRUE | FALSE, FALSE | STRING, STRING
  | IF_, IF_ | ELSE, ELSE | FUNCTION, FUNCTION | LET, LET | RETURN, RETURN
  | LBRACKET, LBRACKET | RBRACKET, RBRACKET | LBRACE, LBRACE
  | RBRACE, RBRACE | LPAREN, LPAREN | RPAREN, RPAREN
  | COMMA, COMMA | COLON, COLON | SEMICOLON, SEMICOLON
  | ASSIGN, ASSIGN | EOF, EOF => true
  | OTHER x, OTHER y => String.eqb x y
  | _, _ => false
  end.

Record Position : Type := mkPosition {
  Line : Z;
  Column : Z
}.

Record Token : Type := mkToken {
  Type_ : TokenType;
  Literal : string;
  Pos : Position
}.

(** The zero values of Go for the two structs. *)
Definition zeroPosition : Position := mkPosition 0 0.
Definition zeroToken : Token := mkToken (OTHER EmptyString) EmptyString zeroPosition.

(** The declarations of the package the parser calls: the method
    [Token.Precedence], the constant [LOWEST_PRECEDENCE] and the three
    operator lists.  Their contents are not in the sources. *)
Record Package : Type := mkPackage {
  Precedence : Token -> Z;
  LOWEST_PRECEDENCE : Z;
  GetPrefixOperators : list TokenType;
  GetInfixOperators : list TokenType;
  GetPostfixOperators : list TokenType
}.

End token.

(** ** Package [lexer]: the tokenizer contract *)

Module lexer.
Import token.

(** One call of [NextToken]: a token, or malformed input, on which the
    tokenizer calls the handler it was made with. *)
Inductive Scan : Type :=
| Tok (t : Token)
| Malformed (pos : Position) (msg : string).

(** Modelled from the spec: the tokenizer is outside the sources.  It
    "exposes a next-token operation and invokes a caller-supplied error
    callback with position and message on malformed input".  A tokenizer
    over a given input is the sequence of what its calls produce, and the
    end-of-input token it answers with once that is used up. *)
Record Lexer : Type := mkLexer {
  upcoming : list Scan;
  atEnd : Token
}.

Definition NextToken (l : Lexer) : Scan * Lexer :=
  match upcoming l with
  | [] => (Tok (atEnd l), l)
  | s :: rest => (s, mkLexer rest (atEnd l))
  end.

End lexer.

(** ** Package [ast]: the nodes the parser builds

    The declarations are outside the sources; the fields are the ones the
    parser fills.  A field the parser can leave [nil] is an [option]. *)

Module ast.
Import token.

Set Warnings "-register-all".

Record Identifier : Type := mkIdentifier {
  IdentToken : Token;
  IdentValue : string
}.

Inductive Expression : Type :=
| Ident (i : Identifier)
| Integer (tok : Token) (Value : Z)
| Boolean (tok : Token) (Value : bool)
| String (tok : Token) (Value : string)
| PrefixExpression (tok : Token) (Operator : string) (Value : Expression)
| InfixExpression (tok : Token) (Left : Expression) (Operator : string)
    (Right : Expression)
| PostfixExpression (tok : Token) (Left : Expression) (Operator : string)
| IfExpression (tok : Token) (Condition : Expression)
    (ThenBody : BlockExpression) (ElseBody : option BlockExpression)
| FunctionExpression (tok : Token) (Name : option Identifier)
    (Parameters : list Identifier) (Body : BlockExpression)
| ArrayLiteral (tok : Token) (Elements : list Expression)
| HashLiteral (tok : Token) (Pair : list (Expression * Expression))
| CallExpression (tok : Token) (Function : Expression)
    (Arguments : list Expression)
with Statement : Type :=
| LetStatement (tok : Token) (Name : Identifier) (Value : Expression)
| ReturnStatement (tok : Token) (Value : option Expression)
| ExpressionStatement (tok : Token) (Value : Expression)
with BlockExpression : Type :=
| Block (tok : Token) (Statements : list Statement).

Record Program : Type := mkProgram {
  Statements : list Statement
}.

(** [HashLiteral.Pair] is a Go [map[ast.Expression]ast.Expression].  Its
    keys are node pointers, and every key the parser stores is a node it
    has just allocated, so a store never replaces an entry: the map holds
    one entry per store.  The list above is the carrier of these entries
    ([MapStore] adds one).  Go gives a map no order ("the iteration order
    over maps is not specified and is not guaranteed to be the same from
    one iteration to the next"): a [range] over it may visit the entries
    in any arrangement, which is [MapRange]. *)
Definition MapStore (m : list (Expression * Expression))
    (k v : Expression) : list (Expression * Expression) :=
  m ++ [(k, v)].

Definition MapRange (m visit : list (Expression * Expression)) : Prop :=
  Permutation m visit.

End ast.

(** ** Package [parser] *)

Module parser.
Import token lexer.

Record ParserError : Type := mkParserError {
  errorToken : Token;
  msg : string;
  pos : Position
}.

(** [fmt.Sprintf("%s at line: %d, column: %d", ...)], used by
    [ParserError.Error] and by the handler given to the tokenizer. *)
Definition atLineColumn (m : string) (line column : Z) : string :=
  m +:+ " at line: " +:+ pretty line +:+ ", column: " +:+ pretty column.

Definition Error (e : ParserError) : string :=
  atLineColumn (msg e) (Line (pos e)) (Column (pos e)).

(** Go's [error] values met here: a [ParserError], or the error of the
    runtime for a failed type assertion. *)
Inductive error : Type :=
| ParserErr (e : ParserError)
| TypeAssertionError.

(** What a [panic] of this package carries: an [error], or the bare string
    the tokenizer's handler panics with. *)
Inductive PanicValue : Type :=
| PanicError (e : error)
| PanicString (s : string).

(** The method values held by the two dispatch tables. *)
Inductive prefixParseFn : Type :=
| parseIdentifierFn | parseIntegerFn | parseBooleanFn | parseStringFn
| parseIfExpressionFn | parseFunctionFn | parseArrayLiteralFn
| parseHashLiteralFn | parseGroupedExpressionFn | parsePrefixFn.

Inductive infixParseFn : Type :=
| parseCallExpressionFn | parseIndexExpressionFn | parseInfixFn
| parsePostfixFn.

(** The [tracing] switch and its indentation are left out: [New] leaves
    the switch off and nothing in the package turns it on. *)
Record Parser : Type := mkParser {
  lex : Lexer;
  initialized : bool;
  currentToken : Token;
  peekToken : Token;
  prefixFns : TokenType -> option prefixParseFn;
  infixFns : TokenType -> option infixParseFn
}.

(** The outcome of a call on a parser: a value and the parser it leaves,
    a panic, or the model out of fuel. *)
Inductive Res (A : Type) : Type :=
| Ok (a : A) (p : Parser)
| Panic (v : PanicValue)
| Stuck.
Arguments Ok {A} a p.
Arguments Panic {A} v.
Arguments Stuck {A}.

Definition M (A : Type) : Type := Parser -> Res A.

Definition ret {A : Type} (a : A) : M A := fun p => Ok a p.

Definition bind {A B : Type} (m : M A) (k : A -> M B) : M B :=
  fun p =>
    match m p with
    | Ok a p1 => k a p1
    | Panic v => Panic v
    | Stuck => Stuck
    end.

Definition panic {A : Type} (v : PanicValue) : M A := fun _ => Panic v.

Definition stuck {A : Type} : M A := fun _ => Stuck.

(** Read something off the parser. *)
Definition gets {A : Type} (f : Parser -> A) : M A := fun p => Ok (f p) p.

Declare Scope parser_scope.
Delimit Scope parser_scope with parser.
Notation "x <- m ;; k" := (bind m (fun x => k))
  (at level 100, m at next level, right associativity, only parsing)
  : parser_scope.
Open Scope parser_scope.

Definition registerPrefixParseFn (tokenType : TokenType) (fn : prefixParseFn)
    (fns : TokenType -> option prefixParseFn) : TokenType -> option prefixParseFn :=
  fun t => if token.eqb t tokenType then Some fn else fns t.

Definition registerInfixParseFn (tokenType : TokenType) (fn : infixParseFn)
    (fns : TokenType -> option infixParseFn) : TokenType -> option infixParseFn :=
  fun t => if token.eqb t tokenType then Some fn else fns t.

Section WithPackages.
(** Package [token]. *)
Variable tk : Package.
(** [strconv.ParseInt(s, 0, 64)]: the value, or [None] for an error. *)
Variable ParseInt : string -> option Z.
(** The verb [%q] of [fmt] on a token type and on a string. *)
Variable quoteType : TokenType -> string.
Variable quote : string -> string.

(** The registrations of [New], in its order; a later registration for a
    token type replaces an earlier one. *)
Definition registeredPrefixFns : TokenType -> option prefixParseFn :=
  fold_left (fun fns t => registerPrefixParseFn t parsePrefixFn fns)
    (GetPrefixOperators tk)
    (registerPrefixParseFn LPAREN parseGroupedExpressionFn
      (registerPrefixParseFn LBRACE parseHashLiteralFn
        (registerPrefixParseFn LBRACKET parseArrayLiteralFn
          (registerPrefixParseFn FUNCTION parseFunctionFn
            (registerPrefixParseFn IF_ parseIfExpressionFn
              (registerPrefixParseFn STRING parseStringFn
                (registerPrefixParseFn FALSE parseBooleanFn
                  (registerPrefixParseFn TRUE parseBooleanFn
                    (registerPrefixParseFn INT parseIntegerFn
                      (registerPrefixParseFn IDENT parseIdentifierFn
                        (fun _ => None))))))))))).

Definition registeredInfixFns : TokenType -> option infixParseFn :=
  fold_left (fun fns t => registerInfixParseFn t parsePostfixFn fns)
    (GetPostfixOperators tk)
    (fold_left (fun fns t => registerInfixParseFn t parseInfixFn fns)
      (GetInfixOperators tk)
      (registerInfixParseFn LBRACKET parseIndexExpressionFn
        (registerInfixParseFn LPAREN parseCallExpressionFn
          (fun _ => None)))).

(** [New], handed the tokenizer that [lexer.New(input, handler)] makes.
    The handler panics with a formatted string; see [nextToken]. *)
Definition New (l : Lexer) : Parser :=
  {| lex := l; initialized := false;
     currentToken := zeroToken; peekToken := zeroToken;
     prefixFns := registeredPrefixFns; infixFns := registeredInfixFns |}.

(** [p.currentToken = p.peekToken; p.peekToken = p.lex.NextToken()].  On
    malformed input the tokenizer calls the handler of [New], which
    panics with a string. *)
Definition nextToken : M Token :=
  fun p =>
    match NextToken (lex p) with
    | (Tok t, l) =>
        Ok (peekToken p)
           {| lex := l; initialized := initialized p;
              currentToken := peekToken p; peekToken := t;
              prefixFns := prefixFns p; infixFns := infixFns p |}
    | (Malformed at_ m, _) =>
        Panic (PanicString (atLineColumn m (Line at_) (Column at_)))
    end.

Definition setInitialized : M unit :=
  fun p =>
    Ok tt {| lex := lex p; initialized := true;
             currentToken := currentToken p; peekToken := peekToken p;
             prefixFns := prefixFns p; infixFns := infixFns p |}.

Definition peekTokenPrecedence : M Z :=
  gets (fun p => Precedence tk (peekToken p)).

Definition currentTokenPrecedence : M Z :=
  gets (fun p => Precedence tk (currentToken p)).

Definition nextTokenTypeIs (expect : TokenType) : M bool :=
  gets (fun p => token.eqb (Type_ (peekToken p)) expect).

Definition currentTokenTypeIs (expect : TokenType) : M bool :=
  gets (fun p => token.eqb (Type_ (currentToken p)) expect).

Definition peekTokenTypeIs (expectType : TokenType) : M bool :=
  gets (fun p => token.eqb (Type_ (peekToken p)) expectType).

Definition expected (expect actual : TokenType) : string :=
  "expectd token type is " +:+ quoteType expect +:+ ", got " +:+ quoteType actual.

(** [panic(ParserError{msg: ..., errorToken: ...})]: no site of the
    package gives the field [pos], which keeps its zero value. *)
Definition panicParserError {A : Type} (m : string) (t : Token) : M A :=
  panic (PanicError (ParserErr {| errorToken := t; msg := m; pos := zeroPosition |})).

Definition assertTokenType (expect : TokenType) (actual : Token) : M unit :=
  if negb (token.eqb (Type_ actual) expect) then
    panicParserError (expected expect (Type_ actual)) actual
  else
    _ <- nextToken ;; ret tt.

Definition assertNextTokenType (expect : TokenType) : M unit :=
  actual <- gets peekToken ;; assertTokenType expect actual.

Definition assertCurrentTokenType (expect : TokenType) : M unit :=
  actual <- gets currentToken ;; assertTokenType expect actual.

(** [if p.peekTokenTypeIs(token.SEMICOLON) { p.nextToken() }] *)
Definition skipSemicolon : M unit :=
  semi <- peekTokenTypeIs SEMICOLON ;;
  if semi then _ <- nextToken ;; ret tt else ret tt.

Definition parseIdentifier : M ast.Expression :=
  t <- gets currentToken ;;
  ret (ast.Ident (ast.mkIdentifier t (Literal t))).

Definition parseInteger : M ast.Expression :=
  t <- gets currentToken ;;
  match ParseInt (Literal t) with
  | None =>
      panicParserError ("could not parse " +:+ quote (Literal t) +:+ " as intger") t
  | Some value => ret (ast.Integer t value)
  end.

Definition parseBoolean : M ast.Expression :=
  t <- gets currentToken ;;
  if token.eqb (Type_ t) TRUE then ret (ast.Boolean t true)
  else if token.eqb (Type_ t) FALSE then ret (ast.Boolean t false)
  else panicParserError ("could not parse " +:+ quote (Literal t) +:+ " as boolean") t.

Definition parseString : M ast.Expression :=
  t <- gets currentToken ;;
  ret (ast.String t (Literal t)).

Definition parsePostfix (left : ast.Expression) : M ast.Expression :=
  t <- gets currentToken ;;
  ret (ast.PostfixExpression t left (Literal t)).

(** *** The rules, given [parseExpression]

    The rules call each other only through [parseExpression], which is a
    variable here and is tied below by recursion on fuel.  Every [for]
    loop is a recursion on a budget [n] of iterations. *)

Section Rules.
Variable parseExpression : Z -> M ast.Expression.

Definition parsePrefix : M ast.Expression :=
  t <- gets currentToken ;;
  precedence <- currentTokenPrecedence ;;
  _ <- nextToken ;;
  value <- parseExpression precedence ;;
  ret (ast.PrefixExpression t (Literal t) value).

Definition parseInfix (left : ast.Expression) : M ast.Expression :=
  t <- gets currentToken ;;
  precedence <- currentTokenPrecedence ;;
  _ <- nextToken ;;
  right <- parseExpression precedence ;;
  ret (ast.InfixExpression t left (Literal t) right).

Definition parseGroupedExpression : M ast.Expression :=
  _ <- assertCurrentTokenType LPAREN ;;
  expression <- parseExpression (LOWEST_PRECEDENCE tk) ;;
  _ <- assertNextTokenType RPAREN ;;
  ret expression.

Definition parseLetStatement : M ast.Statement :=
  letToken <- gets currentToken ;;
  _ <- assertNextTokenType IDENT ;;
  t <- gets currentToken ;;
  let name := ast.mkIdentifier t (Literal t) in
  _ <- assertNextTokenType ASSIGN ;;
  _ <- nextToken ;;
  express <- parseExpression (LOWEST_PRECEDENCE tk) ;;
  let value :=
    match express with
    | ast.FunctionExpression ft _ parameters body =>
        ast.FunctionExpression ft (Some name) parameters body
    | _ => express
    end in
  _ <- skipSemicolon ;;
  ret (ast.LetStatement letToken name value).

Definition parseReturnStatement : M ast.Statement :=
  retToken <- gets currentToken ;;
  semi <- nextTokenTypeIs SEMICOLON ;;
  value <-
    (if negb semi then
       _ <- nextToken ;;
       express <- parseExpression (LOWEST_PRECEDENCE tk) ;;
       ret (Some express)
     else ret None) ;;
  _ <- skipSemicolon ;;
  ret (ast.ReturnStatement retToken value).

Definition parseExpressionStatement : M ast.Statement :=
  t <- gets currentToken ;;
  value <- parseExpression (LOWEST_PRECEDENCE tk) ;;
  _ <- skipSemicolon ;;
  ret (ast.ExpressionStatement t value).

Definition parseStatement : M ast.Statement :=
  t <- gets currentToken ;;
  match Type_ t with
  | LET => parseLetStatement
  | RETURN => parseReturnStatement
  | _ => parseExpressionStatement
  end.

(** [for !p.currentTokenTypeIs(RBRACE) && !p.currentTokenTypeIs(EOF)].
    The test [statement != nil] of the body always holds: [parseStatement]
    returns a pointer it has just made. *)
Fixpoint parseBlockStatements (n : nat) (statements : list ast.Statement)
    : M (list ast.Statement) :=
  closing <- currentTokenTypeIs RBRACE ;;
  eof <- currentTokenTypeIs EOF ;;
  if negb closing && negb eof then
    match n with
    | O => stuck
    | S n' =>
        statement <- parseStatement ;;
        _ <- nextToken ;;
        parseBlockStatements n' (statements ++ [statement])
    end
  else ret statements.

Definition parseBlockExpression (n : nat) : M ast.BlockExpression :=
  t <- gets currentToken ;;
  _ <- assertCurrentTokenType LBRACE ;;
  statements <- parseBlockStatements n [] ;;
  closing <- currentTokenTypeIs RBRACE ;;
  if negb closing then
    cur <- gets currentToken ;;
    panicParserError (expected RBRACE (Type_ cur)) cur
  else ret (ast.Block t statements).

Definition parseIfExpression (n : nat) : M ast.Expression :=
  t <- gets currentToken ;;
  isIf <- currentTokenTypeIs IF_ ;;
  if negb isIf then panicParserError (expected IF_ (Type_ t)) t
  else
    _ <- assertNextTokenType LPAREN ;;
    condition <- parseExpression (LOWEST_PRECEDENCE tk) ;;
    _ <- assertCurrentTokenType RPAREN ;;
    body <- parseBlockExpression n ;;
    hasElse <- peekTokenTypeIs ELSE ;;
    if hasElse then
      _ <- nextToken ;;
      _ <- assertNextTokenType LBRACE ;;
      elseBody <- parseBlockExpression n ;;
      ret (ast.IfExpression t condition body (Some elseBody))
    else ret (ast.IfExpression t condition body None).

(** [for !p.currentTokenTypeIs(RPAREN) && !p.currentTokenTypeIs(EOF)] *)
Fixpoint parseParametersLoop (n : nat) (params : list ast.Identifier)
    : M (list ast.Identifier) :=
  closing <- currentTokenTypeIs RPAREN ;;
  eof <- currentTokenTypeIs EOF ;;
  if negb closing && negb eof then
    match n with
    | O => stuck
    | S n' =>
        t <- gets currentToken ;;
        _ <- nextToken ;;
        comma <- currentTokenTypeIs COMMA ;;
        _ <- (if comma then _ <- nextToken ;; ret tt else ret tt) ;;
        parseParametersLoop n' (params ++ [ast.mkIdentifier t (Literal t)])
    end
  else ret params.

Definition parseParameters (n : nat) : M (list ast.Identifier) :=
  _ <- nextToken ;;
  params <- parseParametersLoop n [] ;;
  closing <- currentTokenTypeIs RPAREN ;;
  if negb closing then
    cur <- gets currentToken ;;
    panicParserError (expected RPAREN (Type_ cur)) cur
  else ret params.

Definition parseFunction (n : nat) : M ast.Expression :=
  t <- gets currentToken ;;
  named <- peekTokenTypeIs IDENT ;;
  name <-
    (if named then
       _ <- nextToken ;;
       nt <- gets currentToken ;;
       ret (Some (ast.mkIdentifier nt (Literal nt)))
     else ret None) ;;
  _ <- assertNextTokenType LPAREN ;;
  parameters <- parseParameters n ;;
  _ <- assertNextTokenType LBRACE ;;
  body <- parseBlockExpression n ;;
  ret (ast.FunctionExpression t name parameters body).

(** [for p.currentToken.Type != RBRACKET && p.currentToken.Type != EOF] *)
Fixpoint parseArrayElements (n : nat) (elements : list ast.Expression)
    : M (list ast.Expression) :=
  closing <- currentTokenTypeIs RBRACKET ;;
  eof <- currentTokenTypeIs EOF ;;
  if negb closing && negb eof then
    match n with
    | O => stuck
    | S n' =>
        element <- parseExpression (LOWEST_PRECEDENCE tk) ;;
        _ <- nextToken ;;
        comma <- currentTokenTypeIs COMMA ;;
        _ <- (if comma then _ <- nextToken ;; ret tt else ret tt) ;;
        parseArrayElements n' (elements ++ [element])
    end
  else ret elements.

Definition parseArrayLiteral (n : nat) : M ast.Expression :=
  t <- gets currentToken ;;
  _ <- assertCurrentTokenType LBRACKET ;;
  closed <- peekTokenTypeIs RBRACKET ;;
  if closed then
    _ <- nextToken ;;
    ret (ast.ArrayLiteral t [])
  else
    elements <- parseArrayElements n [] ;;
    closing <- currentTokenTypeIs RBRACKET ;;
    if negb closing then
      cur <- gets currentToken ;;
      panicParserError (expected RBRACKET (Type_ cur)) cur
    else ret (ast.ArrayLiteral t elements).

(** [for p.currentToken.Type != RBRACE && p.currentToken.Type != EOF] *)
Fixpoint parseHashPairs (n : nat) (pairs : list (ast.Expression * ast.Expression))
    : M (list (ast.Expression * ast.Expression)) :=
  closing <- currentTokenTypeIs RBRACE ;;
  eof <- currentTokenTypeIs EOF ;;
  if negb closing && negb eof then
    match n with
    | O => stuck
    | S n' =>
        k <- parseExpression (LOWEST_PRECEDENCE tk) ;;
        _ <- assertNextTokenType COLON ;;
        _ <- nextToken ;;
        v <- parseExpression (LOWEST_PRECEDENCE tk) ;;
        _ <- nextToken ;;
        comma <- currentTokenTypeIs COMMA ;;
        _ <- (if comma then _ <- nextToken ;; ret tt else ret tt) ;;
        parseHashPairs n' (ast.MapStore pairs k v)
    end
  else ret pairs.

Definition parseHashLiteral (n : nat) : M ast.Expression :=
  t <- gets currentToken ;;
  _ <- assertCurrentTokenType LBRACE ;;
  closed <- peekTokenTypeIs RBRACE ;;
  if closed then
    _ <- nextToken ;;
    ret (ast.HashLiteral t [])
  else
    pairs <- parseHashPairs n [] ;;
    closing <- currentTokenTypeIs RBRACE ;;
    if negb closing then
      cur <- gets currentToken ;;
      panicParserError (expected RBRACE (Type_ cur)) cur
    else ret (ast.HashLiteral t pairs).

(** [for p.currentToken.Type != token.RPAREN] *)
Fixpoint parseCallArguments (n : nat) (args : list ast.Expression)
    : M (list ast.Expression) :=
  closing <- currentTokenTypeIs RPAREN ;;
  if negb closing then
    match n with
    | O => stuck
    | S n' =>
        comma <- currentTokenTypeIs COMMA ;;
        args1 <-
          (if negb comma then
             arg <- parseExpression (LOWEST_PRECEDENCE tk) ;;
             ret (args ++ [arg])
           else ret args) ;;
        _ <- nextToken ;;
        parseCallArguments n' args1
    end
  else ret args.

Definition parseCallExpression (n : nat) (fun_ : ast.Expression)
    : M ast.Expression :=
  t <- gets currentToken ;;
  _ <- assertCurrentTokenType LPAREN ;;
  args <- parseCallArguments n [] ;;
  ret (ast.CallExpression t fun_ args).

Definition parseIndexExpression (ex : ast.Expression) : M ast.Expression :=
  t <- gets currentToken ;;
  _ <- assertCurrentTokenType LBRACKET ;;
  index <- parseExpression (LOWEST_PRECEDENCE tk) ;;
  _ <- assertNextTokenType RBRACKET ;;
  ret (ast.InfixExpression t ex (Literal t) index).

(** A call through the dispatch tables. *)
Definition callPrefix (n : nat) (fn : prefixParseFn) : M ast.Expression :=
  match fn with
  | parseIdentifierFn => parseIdentifier
  | parseIntegerFn => parseInteger
  | parseBooleanFn => parseBoolean
  | parseStringFn => parseString
  | parseIfExpressionFn => parseIfExpression n
  | parseFunctionFn => parseFunction n
  | parseArrayLiteralFn => parseArrayLiteral n
  | parseHashLiteralFn => parseHashLiteral n
  | parseGroupedExpressionFn => parseGroupedExpression
  | parsePrefixFn => parsePrefix
  end.

Definition callInfix (n : nat) (fn : infixParseFn) (left : ast.Expression)
    : M ast.Expression :=
  match fn with
  | parseCallExpressionFn => parseCallExpression n left
  | parseIndexExpressionFn => parseIndexExpression left
  | parseInfixFn => parseInfix left
  | parsePostfixFn => parsePostfix left
  end.

(** The [for] of [parseExpression]:
    [for !p.peekTokenTypeIs(SEMICOLON) && precedence < p.peekTokenPrecedence()],
    left by [break] when the peek token has no infix rule. *)
Fixpoint parseExpressionLoop (n : nat) (precedence : Z) (left : ast.Expression)
    : M ast.Expression :=
  semi <- peekTokenTypeIs SEMICOLON ;;
  peekPrecedence <- peekTokenPrecedence ;;
  if negb semi && (precedence <? peekPrecedence) then
    peek <- gets peekToken ;;
    fns <- gets infixFns ;;
    match fns (Type_ peek) with
    | None => ret left
    | Some infixFn =>
        match n with
        | O => stuck
        | S n' =>
            _ <- nextToken ;;
            left1 <- callInfix n' infixFn left ;;
            parseExpressionLoop n' precedence left1
        end
    end
  else ret left.

Definition parseExpressionBody (n : nat) (precedence : Z) : M ast.Expression :=
  t <- gets currentToken ;;
  fns <- gets prefixFns ;;
  match fns (Type_ t) with
  | None =>
      panicParserError ("can not parse token type " +:+ quoteType (Type_ t)) t
  | Some prefixFn =>
      left <- callPrefix n prefixFn ;;
      parseExpressionLoop n precedence left
  end.

End Rules.

(** [parseExpression] with [fuel] levels of nested calls, each with a
    budget of [fuel] iterations for its loops. *)
Fixpoint parseExpression (fuel : nat) (precedence : Z) : M ast.Expression :=
  match fuel with
  | O => stuck
  | S fuel' => parseExpressionBody (parseExpression fuel') fuel' precedence
  end.

(** [for !p.currentTokenTypeIs(token.EOF)] of [ParseProgram]; here too
    the statement is never [nil]. *)
Fixpoint parseProgramStatements (fuel n : nat) (statements : list ast.Statement)
    : M (list ast.Statement) :=
  eof <- currentTokenTypeIs EOF ;;
  if negb eof then
    match n with
    | O => stuck
    | S n' =>
        statement <- parseStatement (parseExpression fuel) ;;
        _ <- nextToken ;;
        parseProgramStatements fuel n' (statements ++ [statement])
    end
  else ret statements.

(** The body of [ParseProgram], before the deferred [recover]. *)
Definition parseProgramBody (fuel : nat) : M ast.Program :=
  ready <- gets initialized ;;
  _ <- (if negb ready then
          _ <- nextToken ;;
          _ <- nextToken ;;
          setInitialized
        else ret tt) ;;
  statements <- parseProgramStatements fuel fuel [] ;;
  ret (ast.mkProgram statements).

(** What a caller of [ParseProgram] sees: the two results, or a panic
    that leaves the function, or the model out of fuel. *)
Inductive ProgramResult : Type :=
| Returns (program : option ast.Program) (err : option error)
| Escapes (v : PanicValue)
| OutOfFuel.

(** The deferred function: [if r := recover(); r != nil { err = r.(error);
    program = nil }].  The assertion [r.(error)] on a value that is not an
    [error] panics in its turn, inside the deferred function, and that
    panic is recovered by nobody. *)
Definition recovered (r : PanicValue) : ProgramResult :=
  match r with
  | PanicError e => Returns None (Some e)
  | PanicString _ => Escapes (PanicError TypeAssertionError)
  end.

Definition ParseProgram (fuel : nat) (p : Parser) : ProgramResult :=
  match parseProgramBody fuel p with
  | Ok program _ => Returns (Some program) None
  | Panic r => recovered r
  | Stuck => OutOfFuel
  end.

(** A call that, when it panics with a [ParserError], carries one whose
    field [pos] is the zero position. *)
Definition Unpositioned {A : Type} (m : M A) : Prop :=
  forall p,
    match m p with
    | Panic (PanicError (ParserErr e)) => pos e = zeroPosition
    | _ => True
    end.

(** [m'] returns what [m] returns, whenever [m] does not run out of
    fuel. *)
Definition Below {A : Type} (m m' : M A) : Prop :=
  forall p, m p <> Stuck -> m' p = m p.

(** *** Parsers over a plain sequence of tokens

    Vocabulary for the statements below.  [tokenizer eof toks] answers
    with the tokens of [toks], then with [eof] for ever; [cursorOn] is the
    parser whose current token is the first of [toks] and whose peek token
    is the second. *)

Definition tokenizer (eof : Token) (toks : list Token) : Lexer :=
  mkLexer (map Tok toks) eof.

Definition cursorOn (eof : Token) (toks : list Token) : Parser :=
  {| lex := tokenizer eof (drop 2 toks); initialized := true;
     currentToken := hd eof toks; peekToken := hd eof (tl toks);
     prefixFns := registeredPrefixFns; infixFns := registeredInfixFns |}.

(** The node of an expression made of the single token [t], for the token
    types whose prefix rule reads one token. *)
Definition literal (t : Token) : option ast.Expression :=
  match Type_ t with
  | IDENT => Some (ast.Ident (ast.mkIdentifier t (Literal t)))
  | INT =>
      match ParseInt (Literal t) with
      | Some value => Some (ast.Integer t value)
      | None => None
      end
  | TRUE => Some (ast.Boolean t true)
  | FALSE => Some (ast.Boolean t false)
  | STRING => Some (ast.String t (Literal t))
  | _ => None
  end.

(** [k] is in one of the operator lists of package [token]. *)
Definition isOperator (k : TokenType) : bool :=
  existsb (token.eqb k)
    (GetPrefixOperators tk ++ GetInfixOperators tk ++ GetPostfixOperators tk).

(** None of [kinds] is in an operator list: the rules [New] registers for
    them by name are the ones in force. *)
Definition plain (kinds : list TokenType) : Prop :=
  forallb (fun k => negb (isOperator k)) kinds = true.

(** [t] is a binary operator: registered by the list of infix operators
    and by no later list, and not the statement terminator. *)
Definition binaryOperator (t : Token) : Prop :=
  existsb (token.eqb (Type_ t)) (GetInfixOperators tk) = true /\
  existsb (token.eqb (Type_ t)) (GetPostfixOperators tk) = false /\
  token.eqb (Type_ t) SEMICOLON = false.

(** [t] is a prefix operator. *)
Definition prefixOperator (t : Token) : Prop :=
  existsb (token.eqb (Type_ t)) (GetPrefixOperators tk) = true.

(** [t] is a postfix operator, and not the statement terminator. *)
Definition postfixOperator (t : Token) : Prop :=
  existsb (token.eqb (Type_ t)) (GetPostfixOperators tk) = true /\
  token.eqb (Type_ t) SEMICOLON = false.

(** A chain of binary operators: a first operand, then links of an
    operator and an operand.  [link] says that the operator is a binary
    operator above the lowest level and the operand a one-token
    expression. *)
Definition chainTokens (chain : list (Token * Token)) : list Token :=
  flat_map (fun link => [fst link; snd link]) chain.

Definition link (oa : Token * Token) : Prop :=
  binaryOperator (fst oa) /\
  LOWEST_PRECEDENCE tk < Precedence tk (fst oa) /\
  is_Some (literal (snd oa)).

(** The tokens of an expression tree, from left to right. *)
Fixpoint inorder (e : ast.Expression) : list Token :=
  match e with
  | ast.Ident i => [ast.IdentToken i]
  | ast.Integer t _ | ast.Boolean t _ | ast.String t _ => [t]
  | ast.PrefixExpression t _ value => t :: inorder value
  | ast.InfixExpression t lhs _ rhs => inorder lhs ++ t :: inorder rhs
  | _ => []
  end.

(** The level of the operator at the root of a binary expression. *)
Definition rootPrecedence (e : ast.Expression) : option Z :=
  match e with
  | ast.InfixExpression t _ _ _ => Some (Precedence tk t)
  | _ => None
  end.

(** A tree that respects precedence: under every binary operator, a
    binary operator at the root of the right operand binds strictly
    tighter, and one at the root of the left operand binds as tight or
    tighter (equal levels group to the left). *)
Fixpoint ordered (e : ast.Expression) : Prop :=
  match e with
  | ast.InfixExpression t lhs _ rhs =>
      ordered lhs /\ ordered rhs /\
      (forall q, rootPrecedence lhs = Some q -> Precedence tk t <= q) /\
      (forall q, rootPrecedence rhs = Some q -> Precedence tk t < q)
  | _ => True
  end.

(** What reading a chain gives, after the tree [left] and at the level
    [precedence]: the outcome [r] is a tree over [left] and the links
    read, in their order and respecting precedence; the cursor is on the
    last token read; and the first link left unread, if any, has an
    operator that does not bind tighter than [precedence]. *)
Definition readsChain (eof : Token) (precedence : Z) (left : ast.Expression)
    (chain : list (Token * Token)) (r : Res ast.Expression) : Prop :=
  exists tree read unread last,
    chain = read ++ unread /\
    r = Ok tree (cursorOn eof (last :: chainTokens unread)) /\
    inorder tree = inorder left ++ chainTokens read /\
    ordered tree /\
    (tree = left \/ exists q, rootPrecedence tree = Some q /\ precedence < q) /\
    (forall oa rest, unread = oa :: rest -> Precedence tk (fst oa) <= precedence).

(** The tokens of a sequence of one-token elements, each followed or not
    by a comma token; [element] says that an item reads as the node [e]. *)
Definition separated (items : list (Token * option Token)) : list Token :=
  flat_map
    (fun item => fst item :: match snd item with Some c => [c] | None => [] end)
    items.

Definition element (item : Token * option Token) (e : ast.Expression) : Prop :=
  literal (fst item) = Some e /\
  match snd item with Some c => Type_ c = COMMA | None => True end.

(** The tokens of the entries of a hash literal: a one-token key, a colon,
    a one-token value, and a comma or not; [entry] says that an entry
    reads as the pair [kv] of nodes. *)
Definition hashEntries (entries : list (Token * Token * Token * option Token))
    : list Token :=
  flat_map
    (fun '(k, colon, v, comma) =>
       k :: colon :: v :: match comma with Some c => [c] | None => [] end)
    entries.

Definition entry (item : Token * Token * Token * option Token)
    (kv : ast.Expression * ast.Expression) : Prop :=
  let '(k, colon, v, comma) := item in
  literal k = Some (fst kv) /\ Type_ colon = COLON /\
  literal v = Some (snd kv) /\
  match comma with Some c => Type_ c = COMMA | None => True end.

(** The outcome [r] of a call on a cursor is settled within [bound]: it
    is a value and a cursor with at most [bound] tokens left, or a panic
    with a [ParserError]; it is no other panic, nor the model out of fuel. *)
Definition settles {A : Type} (eof : Token) (bound : nat) (r : Res A) : Prop :=
  match r with
  | Ok _ p => exists toks, p = cursorOn eof toks /\ (length toks <= bound)%nat
  | Panic v => exists e, v = PanicError (ParserErr e)
  | Stuck => False
  end.

(** The call [m] goes forward on every cursor with at most [bound] tokens
    left: its outcome is settled, with no more tokens left than there
    were. *)
Definition forward {A : Type} (eof : Token) (bound : nat) (m : M A) : Prop :=
  forall toks, (length toks <= bound)%nat ->
    settles eof (length toks) (m (cursorOn eof toks)).

(** The tokens of a sequence of one-token expression statements, each
    followed or not by a semicolon, are [separated items] as well;
    [statementOf] says that an item reads as the statement [s]. *)
Definition statementOf (item : Token * option Token) (s : ast.Statement) : Prop :=
  (exists e, literal (fst item) = Some e /\
             s = ast.ExpressionStatement (fst item) e) /\
  match snd item with Some semi => Type_ semi = SEMICOLON | None => True end.

End WithPackages.

End parser.

(** ** A token package to run the parser on

    The operator table of package [token] is not in the sources.  This one
    has the usual operators and levels; it serves to run the definitions
    on concrete inputs.  Nothing general is proved from it. *)

Module sample.
Import token lexer.

Definition PLUS : TokenType := OTHER "+".
Definition MINUS : TokenType := OTHER "-".
Definition ASTERISK : TokenType := OTHER "*".
Definition SLASH : TokenType := OTHER "/".
Definition BANG : TokenType := OTHER "!".
Definition EQ : TokenType := OTHER "==".
Definition NOT_EQ : TokenType := OTHER "!=".
Definition LT : TokenType := OTHER "<".
Definition GT : TokenType := OTHER ">".

Definition Precedence (t : Token) : Z :=
  match Type_ t with
  | OTHER name =>
      if (String.eqb name "==" || String.eqb name "!=")%bool then 1
      else if (String.eqb name "<" || String.eqb name ">")%bool then 2
      else if (String.eqb name "+" || String.eqb name "-")%bool then 3
      else if (String.eqb name "*" || String.eqb name "/")%bool then 4
      else if String.eqb name "!" then 5
      else 0
  | LPAREN => 6
  | LBRACKET => 7
  | _ => 0
  end.

Definition tk : Package :=
  {| token.Precedence := Precedence;
     LOWEST_PRECEDENCE := 0;
     GetPrefixOperators := [BANG; MINUS];
     GetInfixOperators := [PLUS; MINUS; ASTERISK; SLASH; EQ; NOT_EQ; LT; GT];
     GetPostfixOperators := [] |}.

(** The same table with a postfix operator [++], at the level of [!]. *)
Definition INCREMENT : TokenType := OTHER "++".

Definition withPostfix : Package :=
  {| token.Precedence :=
       fun t => if token.eqb (Type_ t) INCREMENT then 5 else Precedence t;
     LOWEST_PRECEDENCE := 0;
     GetPrefixOperators := [BANG; MINUS];
     GetInfixOperators := [PLUS; MINUS; ASTERISK; SLASH; EQ; NOT_EQ; LT; GT];
     GetPostfixOperators := [INCREMENT] |}.

Fixpoint digits (s : string) (acc : Z) : option Z :=
  match s with
  | EmptyString => Some acc
  | String.String c rest =>
      let d := Z.of_nat (Ascii.nat_of_ascii c) - 48 in
      if ((0 <=? d) && (d <=? 9))%bool then digits rest (10 * acc + d) else None
  end.

(** On a string of decimal digits without a leading zero and below
    [2^63], the value [strconv.ParseInt(s, 0, 64)] gives; [None] on every
    other string. *)
Definition ParseInt (s : string) : option Z :=
  match s with
  | EmptyString => None
  | String.String c rest =>
      if (Ascii.eqb c (Ascii.ascii_of_nat 48) && negb (String.eqb rest EmptyString))%bool then None
      else
        match digits s 0 with
        | Some value => if value <? 2 ^ 63 then Some value else None
        | None => None
        end
  end.

Definition quote (s : string) : string := "'" +:+ s +:+ "'".

Definition quoteType (k : TokenType) : string :=
  quote
    match k with
    | IDENT => "IDENT" | INT => "INT" | TRUE => "TRUE" | FALSE => "FALSE"
    | STRING => "STRING" | IF_ => "IF" | ELSE => "ELSE"
    | FUNCTION => "FUNCTION" | LET => "LET" | RETURN => "RETURN"
    | LBRACKET => "[" | RBRACKET => "]" | LBRACE => "{" | RBRACE => "}"
    | LPAREN => "(" | RPAREN => ")" | COMMA => "," | COLON => ":"
    | SEMICOLON => ";" | ASSIGN => "=" | EOF => "EOF"
    | OTHER name => name
    end.

(** A token at a line and a column. *)
Definition T (k : TokenType) (literal : string) (line column : Z) : Token :=
  mkToken k literal (mkPosition line column).

Definition New (l : Lexer) : parser.Parser := parser.New tk l.

Definition ParseProgram (fuel : nat) (p : parser.Parser) : parser.ProgramResult :=
  parser.ParseProgram tk ParseInt quoteType quote fuel p.

(** The end-of-input token, and the tokens of some source lines, each at
    its line and column. *)
Definition eof : Token := T EOF EmptyString 1 80.

(** [1 + 2 * 3] *)
Definition one_plus_two_times_three : list Token :=
  [T INT "1" 1 1; T PLUS "+" 1 3; T INT "2" 1 5; T ASTERISK "*" 1 7;
   T INT "3" 1 9].

(** [a + b + c] *)
Definition a_plus_b_plus_c : list Token :=
  [T IDENT "a" 1 1; T PLUS "+" 1 3; T IDENT "b" 1 5; T PLUS "+" 1 7;
   T IDENT "c" 1 9].

(** [-1 + 2] *)
Definition minus_one_plus_two : list Token :=
  [T MINUS "-" 1 1; T INT "1" 1 2; T PLUS "+" 1 4; T INT "2" 1 6].

(** The links of [a + b * c - d] after its first operand *)
Definition plus_b_times_c_minus_d : list (Token * Token) :=
  [(T PLUS "+" 1 3, T IDENT "b" 1 5); (T ASTERISK "*" 1 7, T IDENT "c" 1 9);
   (T MINUS "-" 1 11, T IDENT "d" 1 13)].

(** [let add = fn(a, b) { a + b };] *)
Definition let_add : list Token :=
  [T LET "let" 1 1; T IDENT "add" 1 5; T ASSIGN "=" 1 9;
   T FUNCTION "fn" 1 11; T LPAREN "(" 1 13; T IDENT "a" 1 14;
   T COMMA "," 1 15; T IDENT "b" 1 17; T RPAREN ")" 1 18;
   T LBRACE "{" 1 20; T IDENT "a" 1 22; T PLUS "+" 1 24; T IDENT "b" 1 26;
   T RBRACE "}" 1 28; T SEMICOLON ";" 1 29].

(** [let 5] *)
Definition let_five : list Token :=
  [T LET "let" 1 1; T INT "5" 1 5].

(** [{a: 1, b: 2}] *)
Definition hash_a_b : list Token :=
  [T LBRACE "{" 1 1; T IDENT "a" 1 2; T COLON ":" 1 3; T INT "1" 1 5;
   T COMMA "," 1 6; T IDENT "b" 1 8; T COLON ":" 1 9; T INT "2" 1 11;
   T RBRACE "}" 1 12].







(** [[1]] *)
Definition array_of_one : list Token :=
  [T LBRACKET "[" 1 1; T INT "1" 1 2; T RBRACKET "]" 1 3].





(** A numbering of the opcodes, and a type of objects. *)
Definition byteOf (op : code.OpCode) : Z :=
  match op with
  | code.OpConstant => 0
  | code.OpSetLocal => 1
  | code.OpAdd => 2
  | code.OpClosure => 3
  end.

Definition Object : Type := string.

End sample.

(** * Properties *)

(** ** Instruction encoding *)

Section EncodingProperties.
Variable byteOf : code.OpCode -> Z.

Lemma byte_low (x : Z) : code.byte x = x mod 256.
Proof. unfold code.byte. change 255 with (Z.ones 8). by rewrite Z.land_ones. Qed.

Lemma land_high_low (a b : Z) :
  0 <= b < 256 -> Z.land (a * 2 ^ 8) b = 0.
Proof.
  intros Hb. apply Z.bits_inj'. intros n Hn.
  rewrite Z.land_spec, Z.bits_0.
  destruct (Z.lt_ge_cases n 8).
  - rewrite Z.mul_pow2_bits_low by lia. done.
  - rewrite <- (Z.mod_small b (2 ^ 8)) by (change (2 ^ 8) with 256; lia).
    rewrite Z.mod_pow2_bits_high by lia. apply andb_false_r.
Qed.

(** Decoding the two bytes [putBigEndian] writes gives the number back. *)
Lemma ReadUint16_putBigEndian (i : Z) (rest : list Z) :
  0 <= i < 65536 ->
  code.ReadUint16 (code.putBigEndian 2 i ++ rest) = Some i.
Proof.
  intros Hi. cbn [code.putBigEndian app code.ReadUint16]. f_equal.
  rewrite !byte_low. change (8 * Z.of_nat 1) with 8. change (8 * Z.of_nat 0) with 0.
  rewrite Z.shiftr_0_r, Z.shiftr_div_pow2, Z.shiftl_mul_pow2 by lia.
  assert (Hq : 0 <= i / 2 ^ 8 < 256).
  { change (2 ^ 8) with 256.
    split; [apply Z.div_pos | apply Z.div_lt_upper_bound]; lia. }
  assert (Hr : 0 <= i mod 256 < 256) by (apply Z.mod_pos_bound; lia).
  rewrite (Z.mod_small (i / 2 ^ 8) 256) by done.
  rewrite <- Z.lxor_lor, <- Z.add_nocarry_lxor by (by apply land_high_low).
  change (2 ^ 8) with 256. pose proof (Z.div_mod i 256). lia.
Qed.

(** Every instruction [Make] builds has the length its opcode fixes, when
    one operand is given per width. *)
Lemma length_putBigEndian (w : nat) (x : Z) :
  length (code.putBigEndian w x) = w.
Proof. induction w as [|w IH]; cbn; [done | by rewrite IH]. Qed.

(** C2: the encoder is bit-exact on the three instructions of the encoding
    test: a constant load of index 65534 is [opcode, 0xFF, 0xFE] and its
    operand decodes to 65534; a local-slot access of slot 126 is
    [opcode, 126]; a closure creation of function 65534 with 255 captured
    variables is [opcode, 0xFF, 0xFE, 0xFF]. *)
Theorem Make_bit_exact :
  code.Make byteOf code.OpConstant [65534] = [byteOf code.OpConstant; 255; 254] /\
  code.ReadUint16 (drop 1 [byteOf code.OpConstant; 255; 254]) = Some 65534 /\
  code.Make byteOf code.OpSetLocal [126] = [byteOf code.OpSetLocal; 126] /\
  code.Make byteOf code.OpAdd [] = [byteOf code.OpAdd] /\
  code.Make byteOf code.OpClosure [65534; 255]
    = [byteOf code.OpClosure; 255; 254; 255].
Proof. repeat split. Qed.

End EncodingProperties.

(** ** Virtual machine *)

Section MachineProperties.
Variable Object : Type.
Variable byteOf : code.OpCode -> Z.

Lemma pushStack_instructions (o : vm.Value Object) (v v1 : vm.VM Object)
    (e : vm.error) :
  vm.pushStack o v = vm.Returned e v1 ->
  vm.instructions v1 = vm.instructions v.
Proof.
  unfold vm.pushStack. destruct (_ <=? _).
  - by intros [= _ <-].
  - cbn. destruct (_ && _); [by intros [= _ <-] | done].
Qed.

(** An iteration that does not leave the loop keeps the instruction
    stream and does not move the instruction pointer backwards. *)
Lemma step_continues (ip ip1 : Z) (v v1 : vm.VM Object) :
  vm.step byteOf ip v = inr (ip1, v1) ->
  ip <= ip1 /\ vm.instructions v1 = vm.instructions v.
Proof.
  unfold vm.step. destruct (_ !! _) as [c|]; [|done].
  destruct (c =? _).
  - destruct (code.ReadUint16 _) as [index|]; [|done].
    destruct (_ !! _) as [o|]; [|done].
    destruct (vm.pushStack o v) as [[msg|] v2|] eqn:Hpush; try done.
    intros [= <- <-]. split; [lia|]. by eapply pushStack_instructions.
  - intros [= <- <-]. split; [lia | done].
Qed.

Lemma run_from_total (fuel : nat) (ip : Z) (v : vm.VM Object) :
  vm.len (vm.instructions v) - ip <= Z.of_nat fuel ->
  is_Some (vm.run_from byteOf fuel ip v).
Proof.
  revert ip v. induction fuel as [|fuel IH]; intros ip v Hfuel; cbn.
  - destruct (Z.ltb_spec ip (vm.len (vm.instructions v))); [lia | by eexists].
  - destruct (Z.ltb_spec ip (vm.len (vm.instructions v))); [| by eexists].
    destruct (vm.step byteOf ip v) as [out|[ip1 v1]] eqn:Hstep; [by eexists|].
    apply step_continues in Hstep as [Hip Hins].
    apply IH. rewrite Hins. lia.
Qed.

(** [Run] always ends: the fuel of the model never runs out. *)
Lemma Run_total (v : vm.VM Object) : is_Some (vm.Run byteOf v).
Proof. apply run_from_total. unfold vm.len. lia. Qed.

(** C3 (the code departs from it): on a machine whose stack holds
    [StackSize] values, that is whose top index [sp] is [StackSize - 1],
    [pushStack] does not return the fault: its test [sp >= len(stack)] is
    false there, it moves [sp] to [StackSize] and the store at that index
    panics with an index out of range. *)
Theorem pushStack_at_capacity_overruns (o : vm.Value Object) (v : vm.VM Object) :
  vm.len (vm.stack v) = vm.StackSize ->
  vm.sp v = vm.StackSize - 1 ->
  vm.pushStack o v
  = vm.Panicked (vm.IndexOutOfRange vm.StackSize vm.StackSize)
      (vm.set_sp v vm.StackSize).
Proof.
  intros Hlen Hsp. unfold vm.pushStack. rewrite Hlen, Hsp.
  cbn [vm.set_sp vm.sp vm.stack]. rewrite Hlen. reflexivity.
Qed.

(** The fault of [pushStack] needs [sp] at [len(stack)] or beyond. *)
Lemma pushStack_full_iff (o : vm.Value Object) (v : vm.VM Object) :
  (exists m v1, vm.pushStack o v = vm.Returned (Some m) v1) <->
  vm.len (vm.stack v) <= vm.sp v.
Proof.
  unfold vm.pushStack. destruct (Z.leb_spec (vm.len (vm.stack v)) (vm.sp v)).
  - split; [done | by eexists _, _].
  - cbn. destruct (_ && _); split; try lia; by intros (? & ? & [=]).
Qed.

(** The iteration on a constant load: the decoded index selects the
    constant, which is pushed; the instruction pointer ends on the last
    operand byte. *)
Lemma step_constant_load (ip i : Z) (o : vm.Value Object) (v : vm.VM Object) :
  vm.instructions v !! Z.to_nat ip = Some (byteOf code.OpConstant) ->
  code.ReadUint16 (drop (Z.to_nat (ip + 1)) (vm.instructions v)) = Some i ->
  vm.constants v !! Z.to_nat i = Some o ->
  vm.step byteOf ip v
  = match vm.pushStack o v with
    | vm.Returned None v1 => inr (ip + 2, v1)
    | vm.Returned (Some m) v1 => inl (vm.Returned (Some m) v1)
    | vm.Panicked e v1 => inl (vm.Panicked e v1)
    end.
Proof.
  intros Hop Hread Ho. unfold vm.step. by rewrite Hop, Z.eqb_refl, Hread, Ho.
Qed.

(** The first push on a fresh machine stores at index 0. *)
Lemma pushStack_New (o : vm.Value Object) (bytecode : vm.Bytecode Object) :
  vm.pushStack o (vm.New bytecode)
  = vm.Returned None
      (vm.set_stack (vm.set_sp (vm.New bytecode) 0)
         (<[0%nat := o]> (vm.stack (vm.New bytecode)))).
Proof. reflexivity. Qed.

(** C4: a program made of one constant load of index [i], with [i] within
    the pool, runs to its end without fault and leaves [constants[i]] on
    top of the stack: [StackTop] returns it. *)
Theorem Run_constant_load (constants : list (vm.Value Object)) (i : Z)
    (o : vm.Value Object) :
  0 <= i < 65536 ->
  constants !! Z.to_nat i = Some o ->
  exists v1,
    vm.Run byteOf
      (vm.New (vm.mkBytecode (code.Make byteOf code.OpConstant [i]) constants))
    = Some (vm.Returned None v1) /\
    vm.sp v1 = 0 /\
    vm.StackTop v1 = vm.Returned o v1.
Proof.
  intros Hi Ho.
  set (bytecode := vm.mkBytecode (code.Make byteOf code.OpConstant [i]) constants).
  exists (vm.set_stack (vm.set_sp (vm.New bytecode) 0)
            (<[0%nat := o]> (vm.stack (vm.New bytecode)))).
  split; [|split; reflexivity].
  unfold vm.Run.
  change (length (vm.instructions (vm.New bytecode))) with 3%nat.
  cbn [vm.run_from].
  change (0 <? vm.len (vm.instructions (vm.New bytecode))) with true. cbv iota.
  rewrite (step_constant_load 0 i o); [| reflexivity | | exact Ho].
  - rewrite pushStack_New. reflexivity.
  - rewrite <- (ReadUint16_putBigEndian i [] Hi). reflexivity.
Qed.

(** A byte that is not the opcode of the constant load is passed over:
    the iteration ends where it began, on the same machine. *)
Lemma step_other_byte (ip b : Z) (v : vm.VM Object) :
  vm.instructions v !! Z.to_nat ip = Some b ->
  b <> byteOf code.OpConstant ->
  vm.step byteOf ip v = inr (ip, v).
Proof.
  intros Hb Hne. unfold vm.step. rewrite Hb.
  by destruct (Z.eqb_spec b (byteOf code.OpConstant)).
Qed.

Lemma run_from_other_bytes (fuel : nat) (ip : Z) (v : vm.VM Object) :
  Forall (fun b => b <> byteOf code.OpConstant) (vm.instructions v) ->
  0 <= ip ->
  vm.len (vm.instructions v) - ip <= Z.of_nat fuel ->
  vm.run_from byteOf fuel ip v = Some (vm.Returned None v).
Proof.
  intros Hall. revert ip. induction fuel as [|fuel IH]; intros ip Hip Hfuel; cbn.
  - destruct (Z.ltb_spec ip (vm.len (vm.instructions v))); [lia | done].
  - destruct (Z.ltb_spec ip (vm.len (vm.instructions v))) as [Hlt|]; [|done].
    destruct (lookup_lt_is_Some_2 (vm.instructions v) (Z.to_nat ip)) as [b Hb].
    { unfold vm.len in Hlt. lia. }
    rewrite (step_other_byte ip b v Hb).
    + apply IH; lia.
    + rewrite Forall_forall in Hall. apply Hall. by eapply list_elem_of_lookup_2.
Qed.

(** C5, as the code has it: a byte that is not the opcode of the constant
    load is not a fault.  A program made of such bytes only runs to its
    end, returns no error and leaves the machine as it was. *)
Theorem Run_skips_other_bytes (v : vm.VM Object) :
  Forall (fun b => b <> byteOf code.OpConstant) (vm.instructions v) ->
  vm.Run byteOf v = Some (vm.Returned None v).
Proof.
  intros Hall. apply run_from_other_bytes; [done | lia | unfold vm.len; lia].
Qed.

(** While [sp] is below [len(stack)], a push that returns gives no error
    and keeps [sp] below [len(stack)]. *)
Lemma pushStack_below (o : vm.Value Object) (v v1 : vm.VM Object) (e : vm.error) :
  vm.sp v < vm.len (vm.stack v) ->
  vm.pushStack o v = vm.Returned e v1 ->
  e = None /\ vm.sp v1 < vm.len (vm.stack v1).
Proof.
  intros Hsp. unfold vm.pushStack.
  destruct (Z.leb_spec (vm.len (vm.stack v)) (vm.sp v)); [lia|].
  cbn [vm.set_sp vm.sp vm.stack].
  destruct (Z.leb_spec 0 (vm.sp v + 1)); cbn [andb]; [|done].
  destruct (Z.ltb_spec (vm.sp v + 1) (vm.len (vm.stack v))); [|done].
  intros [= <- <-]. split; [done|].
  cbn [vm.set_stack vm.sp vm.stack]. unfold vm.len. rewrite length_insert.
  done.
Qed.

Lemma run_from_no_error (fuel : nat) : forall (ip : Z) (v v1 : vm.VM Object) e,
  vm.sp v < vm.len (vm.stack v) ->
  vm.run_from byteOf fuel ip v = Some (vm.Returned e v1) ->
  e = None.
Proof.
  induction fuel as [|fuel IH]; intros ip v v1 e Hsp; cbn [vm.run_from];
    destruct (ip <? vm.len (vm.instructions v)); try done;
    try (by intros [= <- _]).
  unfold vm.step.
  destruct (vm.instructions v !! Z.to_nat ip) as [c|]; [|done].
  destruct (c =? byteOf code.OpConstant); [|by apply IH].
  destruct (code.ReadUint16 _) as [index|]; [|done].
  destruct (vm.constants v !! Z.to_nat index) as [o|]; [|done].
  destruct (vm.pushStack o v) as [[m|] v2|] eqn:Hpush; [| |done].
  - by apply pushStack_below in Hpush as [? _].
  - apply pushStack_below in Hpush as [_ Hsp2]; [|done]. by apply IH.
Qed.

(** The fault of [pushStack] is out of reach: a run of a machine made by
    [New] never returns an error, it returns [nil] or panics. *)
Lemma Run_New_no_error (bytecode : vm.Bytecode Object) (v1 : vm.VM Object) e :
  vm.Run byteOf (vm.New bytecode) = Some (vm.Returned e v1) ->
  e = None.
Proof. apply run_from_no_error. reflexivity. Qed.

(** *** More on the stack and on [Run] *)

Lemma pushStack_in_range (o : vm.Value Object) (v : vm.VM Object) :
  -1 <= vm.sp v -> vm.sp v + 1 < vm.len (vm.stack v) ->
  vm.pushStack o v
  = vm.Returned None
      (vm.set_stack (vm.set_sp v (vm.sp v + 1))
         (<[Z.to_nat (vm.sp v + 1) := o]> (vm.stack v))).
Proof.
  intros Hlow Hhigh. unfold vm.pushStack.
  destruct (Z.leb_spec (vm.len (vm.stack v)) (vm.sp v)); [lia|].
  cbn [vm.set_sp vm.sp vm.stack].
  destruct (Z.leb_spec 0 (vm.sp v + 1)); [|lia].
  destruct (Z.ltb_spec (vm.sp v + 1) (vm.len (vm.stack v))); [|lia].
  reflexivity.
Qed.

(** X1: a push on a stack with room followed by a pop gives the pushed
    value back and the stack pointer it started from; between the two,
    [StackTop] returns the value.  The pop leaves the value in its slot. *)
Theorem push_then_pop (o : vm.Value Object) (v : vm.VM Object) :
  -1 <= vm.sp v -> vm.sp v + 1 < vm.len (vm.stack v) ->
  exists v1 v2,
    vm.pushStack o v = vm.Returned None v1 /\
    vm.StackTop v1 = vm.Returned o v1 /\
    vm.popStack v1 = vm.Returned o v2 /\
    vm.sp v2 = vm.sp v /\
    vm.stack v2 = <[Z.to_nat (vm.sp v + 1) := o]> (vm.stack v).
Proof.
  intros Hlow Hhigh. eexists _, _.
  split; [by apply pushStack_in_range|].
  assert (Hslot : <[Z.to_nat (vm.sp v + 1) := o]> (vm.stack v)
                  !! Z.to_nat (vm.sp v + 1) = Some o).
  { apply list_lookup_insert_eq. unfold vm.len in Hhigh. lia. }
  unfold vm.StackTop, vm.popStack. cbn [vm.set_stack vm.set_sp vm.sp vm.stack].
  destruct (Z.ltb_spec (vm.sp v + 1) 0); [lia|].
  rewrite Hslot. cbn [vm.set_stack vm.set_sp vm.sp vm.stack].
  split_and!; [done | reflexivity | cbn; lia | done].
Qed.

Lemma pushStack_keeps (o : vm.Value Object) (v v1 : vm.VM Object) (e : vm.error) :
  vm.pushStack o v = vm.Returned e v1 ->
  vm.instructions v1 = vm.instructions v /\
  vm.constants v1 = vm.constants v /\
  length (vm.stack v1) = length (vm.stack v) /\
  vm.sp v <= vm.sp v1.
Proof.
  unfold vm.pushStack. destruct (_ <=? _).
  - intros [= _ <-]. split_and!; try done.
  - cbn [vm.set_sp vm.sp vm.stack]. destruct (_ && _); [|done].
    intros [= _ <-]. cbn. rewrite length_insert. split_and!; try done. lia.
Qed.

Lemma run_from_keeps (fuel : nat) : forall (ip : Z) (v v1 : vm.VM Object) e,
  vm.sp v < vm.len (vm.stack v) ->
  vm.run_from byteOf fuel ip v = Some (vm.Returned e v1) ->
  vm.instructions v1 = vm.instructions v /\
  vm.constants v1 = vm.constants v /\
  length (vm.stack v1) = length (vm.stack v) /\
  vm.sp v <= vm.sp v1 < vm.len (vm.stack v1).
Proof.
  induction fuel as [|fuel IH]; intros ip v v1 e Hsp; cbn [vm.run_from];
    destruct (ip <? vm.len (vm.instructions v)); try done;
    try (intros [= _ <-]; split_and!; (done || lia)).
  unfold vm.step.
  destruct (vm.instructions v !! Z.to_nat ip) as [c|]; [|done].
  destruct (c =? byteOf code.OpConstant); [|by apply IH].
  destruct (code.ReadUint16 _) as [index|]; [|done].
  destruct (vm.constants v !! Z.to_nat index) as [o|]; [|done].
  destruct (vm.pushStack o v) as [[m|] v2|] eqn:Hpush; [| |done].
  - by apply pushStack_below in Hpush as [? _].
  - pose proof Hpush as Hkeeps. apply pushStack_keeps in Hkeeps as (Hi & Hc & Hl & Hs).
    apply pushStack_below in Hpush as [_ Hsp2]; [|done].
    intros Hrun. apply IH in Hrun as (Hi1 & Hc1 & Hl1 & Hs1); [|done].
    split_and!; try congruence; lia.
Qed.

(** X2: what a run keeps.  On a machine whose stack pointer is within
    [-1 <= sp < len(stack)], as on every machine made by [New], a run that
    returns has changed neither the instructions nor the constants nor
    the size of the stack, has not lowered the stack pointer, has kept it
    below the size of the stack, and returns no error. *)
Theorem Run_keeps_machine (v v1 : vm.VM Object) (e : vm.error) :
  -1 <= vm.sp v < vm.len (vm.stack v) ->
  vm.Run byteOf v = Some (vm.Returned e v1) ->
  e = None /\
  vm.instructions v1 = vm.instructions v /\
  vm.constants v1 = vm.constants v /\
  length (vm.stack v1) = length (vm.stack v) /\
  vm.sp v <= vm.sp v1 < vm.len (vm.stack v1).
Proof.
  intros [Hlow Hhigh] Hrun. split.
  - by eapply run_from_no_error.
  - by eapply run_from_keeps.
Qed.

Lemma step_constant_outside (ip i : Z) (v : vm.VM Object) :
  vm.instructions v !! Z.to_nat ip = Some (byteOf code.OpConstant) ->
  code.ReadUint16 (drop (Z.to_nat (ip + 1)) (vm.instructions v)) = Some i ->
  vm.constants v !! Z.to_nat i = None ->
  vm.step byteOf ip v
  = inl (vm.Panicked (vm.IndexOutOfRange i (vm.len (vm.constants v))) v).
Proof.
  intros Hop Hread Hnone. unfold vm.step. by rewrite Hop, Z.eqb_refl, Hread, Hnone.
Qed.

(** X3: a constant load whose index is outside the pool is not returned
    as an error: the read [v.constants[index]] panics with an index out of
    range, on the machine as it was. *)
Theorem Run_index_outside_pool (constants : list (vm.Value Object)) (i : Z) :
  0 <= i < 65536 ->
  vm.len constants <= i ->
  vm.Run byteOf
    (vm.New (vm.mkBytecode (code.Make byteOf code.OpConstant [i]) constants))
  = Some (vm.Panicked (vm.IndexOutOfRange i (vm.len constants))
      (vm.New (vm.mkBytecode (code.Make byteOf code.OpConstant [i]) constants))).
Proof.
  intros Hi Hlen.
  set (bytecode := vm.mkBytecode (code.Make byteOf code.OpConstant [i]) constants).
  unfold vm.Run.
  change (length (vm.instructions (vm.New bytecode))) with 3%nat.
  cbn [vm.run_from].
  change (0 <? vm.len (vm.instructions (vm.New bytecode))) with true. cbv iota.
  rewrite (step_constant_outside 0 i); [done | reflexivity | |].
  - rewrite <- (ReadUint16_putBigEndian i [] Hi). reflexivity.
  - apply lookup_ge_None. unfold vm.len in Hlen. cbn. lia.
Qed.

Lemma Make_OpConstant (i : Z) :
  code.Make byteOf code.OpConstant [i]
  = byteOf code.OpConstant :: code.putBigEndian 2 i.
Proof. unfold code.Make. cbn [code.operandWidths code.putOperands]. by rewrite app_nil_r. Qed.

Lemma length_Make_OpConstant (i : Z) :
  length (code.Make byteOf code.OpConstant [i]) = 3%nat.
Proof. reflexivity. Qed.

(** A run over constant loads, from the middle of a program: each load
    pushes its constant on the free part of the stack. *)
Lemma run_from_loads (constants : list (vm.Value Object)) idxs objs :
  Forall2 (fun i o => 0 <= i < 65536 /\ constants !! Z.to_nat i = Some o) idxs objs ->
  forall fuel before done free (ins : list Z) sp,
    ins = before ++ flat_map (fun i => code.Make byteOf code.OpConstant [i]) idxs ->
    sp = vm.len done - 1 ->
    (length idxs <= free)%nat ->
    (length idxs <= fuel)%nat ->
    vm.run_from byteOf fuel (vm.len before)
      (vm.mkVM ins constants (done ++ replicate free None) sp)
    = Some (vm.Returned None
        (vm.mkVM ins constants
           (done ++ objs ++ replicate (free - length idxs) None)
           (sp + vm.len idxs))).
Proof.
  induction 1 as [|i o idxs objs [Hi Ho] _ IH];
    intros fuel before done free ins sp Hins Hsp Hfree Hfuel.
  - cbn [flat_map] in Hins. rewrite app_nil_r in Hins. subst ins.
    cbn [length app]. rewrite Nat.sub_0_r.
    replace (sp + vm.len []) with sp by (unfold vm.len; cbn; lia).
    destruct fuel; cbn [vm.run_from vm.instructions];
      by rewrite Z.ltb_irrefl.
  - cbn [length] in Hfree, Hfuel.
    destruct fuel as [|fuel]; [lia|]. destruct free as [|free]; [lia|].
    cbn [flat_map] in Hins. rewrite Make_OpConstant in Hins.
    set (rest := flat_map (fun i => code.Make byteOf code.OpConstant [i]) idxs) in *.
    cbn [vm.run_from vm.instructions].
    assert (Hlen : vm.len before < vm.len ins).
    { subst ins. unfold vm.len. rewrite length_app. cbn [length app]. lia. }
    destruct (Z.ltb_spec (vm.len before) (vm.len ins)); [|lia].
    rewrite (step_constant_load (vm.len before) i o); cbn [vm.instructions vm.constants].
    + rewrite pushStack_in_range; cbn [vm.sp vm.stack vm.set_sp vm.set_stack].
      * replace (Z.to_nat (sp + 1)) with (length done + 0)%nat
          by (unfold vm.len in Hsp; lia).
        rewrite insert_app_r. cbn [replicate].
        change (<[0%nat := o]> (None :: replicate free None))
          with (o :: replicate free None).
        replace (vm.len before + 2 + 1)
          with (vm.len (before ++ byteOf code.OpConstant :: code.putBigEndian 2 i))
          by (unfold vm.len; rewrite length_app; cbn [length code.putBigEndian]; lia).
        change (done ++ o :: replicate free None)
          with (done ++ [o] ++ replicate free None).
        rewrite (app_assoc done [o]).
        rewrite (IH fuel _ (done ++ [o]) free ins (sp + 1)).
        -- do 3 f_equal.
           ++ by rewrite <- !app_assoc.
           ++ unfold vm.len. cbn [length]. lia.
        -- subst ins. by rewrite <- app_assoc.
        -- unfold vm.len in *. rewrite length_app. cbn [length]. lia.
        -- lia.
        -- lia.
      * unfold vm.len in *. lia.
      * subst sp. unfold vm.len. rewrite length_app, length_replicate. lia.
    + subst ins. unfold vm.len. rewrite Nat2Z.id.
      by rewrite lookup_app_r, Nat.sub_diag by lia.
    + subst ins.
      replace (Z.to_nat (vm.len before + 1)) with (length before + 1)%nat
        by (unfold vm.len; lia).
      rewrite drop_app_add.
      cbn [app drop]. apply ReadUint16_putBigEndian. exact Hi.
    + exact Ho.
Qed.

(** X4: a program of constant loads, no more of them than the stack has
    slots, runs to its end without fault; it leaves the constants it
    names on the stack in the order of the loads, the last one on top,
    and the rest of the stack empty. *)
Theorem Run_constant_loads (constants : list (vm.Value Object)) idxs objs :
  Forall2 (fun i o => 0 <= i < 65536 /\ constants !! Z.to_nat i = Some o) idxs objs ->
  vm.len idxs <= vm.StackSize ->
  exists v1,
    vm.Run byteOf
      (vm.New (vm.mkBytecode
         (flat_map (fun i => code.Make byteOf code.OpConstant [i]) idxs)
         constants))
    = Some (vm.Returned None v1) /\
    vm.sp v1 = vm.len idxs - 1 /\
    vm.stack v1
    = objs ++ replicate (Z.to_nat vm.StackSize - length idxs) None.
Proof.
  intros Hloads Hsize. eexists. split; [|split].
  - unfold vm.Run, vm.New.
    cbn [vm.instructions vm.constants vm.Instructions vm.Constants].
    apply (run_from_loads constants idxs objs Hloads _ [] [] _ _ (-1));
      [done | done | unfold vm.len, vm.StackSize in *; lia |].
    clear. induction idxs as [|i idxs IH]; cbn [flat_map length]; [lia|].
    rewrite length_app, length_Make_OpConstant. lia.
  - cbn [vm.sp]. lia.
  - reflexivity.
Qed.

End MachineProperties.

(** On concrete machines: an empty program on a full stack, a load of the
    second constant, and a program of two bytes that are no opcode. *)
Lemma pushStack_at_capacity_overruns_witness :
  let v := vm.mkVM [] [] (replicate 2048 (None : vm.Value sample.Object)) 2047 in
  vm.len (vm.stack v) = vm.StackSize /\
  vm.sp v = vm.StackSize - 1 /\
  vm.pushStack (Some "x"%string) v
  = vm.Panicked (vm.IndexOutOfRange 2048 2048) (vm.set_sp v 2048).
Proof.
  intros v. split; [reflexivity | split; [reflexivity |]].
  apply (pushStack_at_capacity_overruns sample.Object (Some "x"%string) v);
    reflexivity.
Defined.

Lemma Run_constant_load_witness :
  exists v1,
    vm.Run sample.byteOf
      (vm.New (vm.mkBytecode (code.Make sample.byteOf code.OpConstant [1])
                 [Some "a"%string; Some "b"%string]))
    = Some (vm.Returned None v1) /\
    vm.sp v1 = 0 /\
    vm.StackTop v1 = vm.Returned (Some "b"%string) v1.
Proof.
  apply (Run_constant_load sample.Object sample.byteOf
           [Some "a"%string; Some "b"%string] 1 (Some "b"%string));
    [lia | reflexivity].
Defined.

Lemma Run_skips_other_bytes_witness :
  let v := vm.New (vm.mkBytecode [255; 7] ([] : list (vm.Value sample.Object))) in
  vm.Run sample.byteOf v = Some (vm.Returned None v).
Proof.
  intros v. apply (Run_skips_other_bytes sample.Object sample.byteOf v).
  repeat constructor; cbn; lia.
Defined.

(** C5 fails on the code: with the opcodes numbered from 0, the byte 255
    is no opcode, and the run of the program [255] returns no error. *)
Lemma Run_unknown_opcode_no_fault :
  ~ (exists (m : string) (v1 : vm.VM sample.Object),
       vm.Run sample.byteOf (vm.New (vm.mkBytecode [255] []))
       = Some (vm.Returned (Some m) v1)).
Proof. intros (m & v1 & H). vm_compute in H. discriminate H. Qed.

(** The state C3 speaks of is reached by a run: 2048 constant loads fill
    the stack, and the next one panics instead of returning the fault. *)
Lemma Run_overfull_panics :
  exists v1 : vm.VM sample.Object,
    vm.Run sample.byteOf
      (vm.New (vm.mkBytecode
                 (concat (replicate 2049 (code.Make sample.byteOf code.OpConstant [0])))
                 [Some "x"%string]))
    = Some (vm.Panicked (vm.IndexOutOfRange 2048 2048) v1) /\
    vm.sp v1 = 2048.
Proof. eexists. split; vm_compute; reflexivity. Qed.

(** A push of ["x"] on a fresh machine, then a pop. *)
Lemma push_then_pop_witness :
  let v := vm.New (vm.mkBytecode [] ([] : list (vm.Value sample.Object))) in
  exists v1 v2,
    vm.pushStack (Some "x"%string) v = vm.Returned None v1 /\
    vm.StackTop v1 = vm.Returned (Some "x"%string) v1 /\
    vm.popStack v1 = vm.Returned (Some "x"%string) v2 /\
    vm.sp v2 = -1 /\
    vm.stack v2 = <[0%nat := Some "x"%string]> (vm.stack v).
Proof.
  intros v.
  apply (push_then_pop sample.Object (Some "x"%string) v); [cbn; lia | reflexivity].
Defined.

(** The run of one load of the first constant. *)
Lemma Run_keeps_machine_witness :
  let v := vm.New (vm.mkBytecode (code.Make sample.byteOf code.OpConstant [0])
                     [Some "a"%string]) in
  let v1 := vm.set_stack (vm.set_sp v 0) (<[0%nat := Some "a"%string]> (vm.stack v)) in
  vm.Run sample.byteOf v = Some (vm.Returned None v1) /\
  vm.instructions v1 = vm.instructions v /\
  vm.constants v1 = vm.constants v /\
  length (vm.stack v1) = length (vm.stack v) /\
  vm.sp v <= vm.sp v1 < vm.len (vm.stack v1).
Proof.
  intros v v1.
  assert (Hrun : vm.Run sample.byteOf v = Some (vm.Returned None v1)) by reflexivity.
  split; [exact Hrun|].
  apply (Run_keeps_machine sample.Object sample.byteOf v v1 None);
    [split; [cbn; lia | reflexivity] | exact Hrun].
Defined.

(** Three loads, of the constants 1, 0 and 1. *)
Lemma Run_constant_loads_witness :
  exists v1,
    vm.Run sample.byteOf
      (vm.New (vm.mkBytecode
         (flat_map (fun i => code.Make sample.byteOf code.OpConstant [i]) [1; 0; 1])
         [Some "a"%string; Some "b"%string]))
    = Some (vm.Returned None v1) /\
    vm.sp v1 = 2 /\
    vm.stack v1
    = [Some "b"%string; Some "a"%string; Some "b"%string]
      ++ replicate 2045 None.
Proof.
  apply (Run_constant_loads sample.Object sample.byteOf
           [Some "a"%string; Some "b"%string] [1; 0; 1]
           [Some "b"%string; Some "a"%string; Some "b"%string]).
  - repeat constructor; lia.
  - vm_compute. discriminate.
Defined.

(** A load of index 5 from a pool of one constant. *)
Lemma Run_index_outside_pool_witness :
  let v := vm.New (vm.mkBytecode (code.Make sample.byteOf code.OpConstant [5])
                     [Some "a"%string]) in
  vm.Run sample.byteOf v = Some (vm.Panicked (vm.IndexOutOfRange 5 1) v).
Proof.
  intros v.
  apply (Run_index_outside_pool sample.Object sample.byteOf [Some "a"%string] 5);
    [lia | vm_compute; discriminate].
Defined.

(** ** Parser *)

Section TokenTypes.
Import token.

Lemma eqb_refl (k : TokenType) : token.eqb k k = true.
Proof. destruct k; cbn; [done.. | apply String.eqb_refl]. Qed.

Lemma eqb_eq (a b : TokenType) : token.eqb a b = true <-> a = b.
Proof.
  split; [| intros <-; apply eqb_refl].
  destruct a, b; cbn; try done.
  intros H%String.eqb_eq. by subst.
Qed.

Lemma eqb_sym (a b : TokenType) : token.eqb a b = token.eqb b a.
Proof.
  destruct (token.eqb a b) eqn:Hab.
  - apply eqb_eq in Hab as ->. symmetry. apply eqb_refl.
  - destruct (token.eqb b a) eqn:Hba; [|done].
    apply eqb_eq in Hba as ->. by rewrite eqb_refl in Hab.
Qed.

End TokenTypes.

Section Registration.
Import token parser.

(** A list of registrations leaves a token type outside the list with the
    rule it had, and gives one inside the list the rule of the list. *)
Lemma register_prefix_outside (fn : prefixParseFn) (l : list TokenType)
    (fns : TokenType -> option prefixParseFn) (k : TokenType) :
  existsb (token.eqb k) l = false ->
  fold_left (fun fns t => registerPrefixParseFn t fn fns) l fns k = fns k.
Proof.
  revert fns. induction l as [|t l IH]; intros fns Hk; cbn in *; [done|].
  apply orb_false_iff in Hk as [Hkt Hk].
  rewrite IH by done. unfold registerPrefixParseFn. by rewrite Hkt.
Qed.

Lemma register_prefix_inside (fn : prefixParseFn) (l : list TokenType)
    (fns : TokenType -> option prefixParseFn) (k : TokenType) :
  existsb (token.eqb k) l = true ->
  fold_left (fun fns t => registerPrefixParseFn t fn fns) l fns k = Some fn.
Proof.
  revert fns. induction l as [|t l IH]; intros fns Hk; cbn in *; [done|].
  destruct (existsb (token.eqb k) l) eqn:Hl.
  - by apply IH.
  - rewrite register_prefix_outside by done.
    rewrite orb_false_r in Hk. unfold registerPrefixParseFn. by rewrite Hk.
Qed.

Lemma register_infix_outside (fn : infixParseFn) (l : list TokenType)
    (fns : TokenType -> option infixParseFn) (k : TokenType) :
  existsb (token.eqb k) l = false ->
  fold_left (fun fns t => registerInfixParseFn t fn fns) l fns k = fns k.
Proof.
  revert fns. induction l as [|t l IH]; intros fns Hk; cbn in *; [done|].
  apply orb_false_iff in Hk as [Hkt Hk].
  rewrite IH by done. unfold registerInfixParseFn. by rewrite Hkt.
Qed.

Lemma register_infix_inside (fn : infixParseFn) (l : list TokenType)
    (fns : TokenType -> option infixParseFn) (k : TokenType) :
  existsb (token.eqb k) l = true ->
  fold_left (fun fns t => registerInfixParseFn t fn fns) l fns k = Some fn.
Proof.
  revert fns. induction l as [|t l IH]; intros fns Hk; cbn in *; [done|].
  destruct (existsb (token.eqb k) l) eqn:Hl.
  - by apply IH.
  - rewrite register_infix_outside by done.
    rewrite orb_false_r in Hk. unfold registerInfixParseFn. by rewrite Hk.
Qed.

Variable tk : Package.

Lemma isOperator_false (k : TokenType) :
  isOperator tk k = false ->
  existsb (token.eqb k) (GetPrefixOperators tk) = false /\
  existsb (token.eqb k) (GetInfixOperators tk) = false /\
  existsb (token.eqb k) (GetPostfixOperators tk) = false.
Proof.
  unfold isOperator. rewrite !existsb_app, !orb_false_iff. tauto.
Qed.

Lemma plain_cons (k : TokenType) (kinds : list TokenType) :
  plain tk (k :: kinds) <-> isOperator tk k = false /\ plain tk kinds.
Proof.
  unfold plain. cbn [forallb]. rewrite andb_true_iff, negb_true_iff. tauto.
Qed.

Lemma plain_elem (k : TokenType) (kinds : list TokenType) :
  plain tk kinds -> In k kinds -> isOperator tk k = false.
Proof.
  unfold plain. rewrite forallb_forall. intros H Hk.
  apply negb_true_iff. by apply H.
Qed.

(** The rules in force for a token type outside the operator lists: the
    ones [New] registers by name. *)
Lemma prefixFns_plain (k : TokenType) :
  isOperator tk k = false ->
  registeredPrefixFns tk k
  = match k with
    | IDENT => Some parseIdentifierFn
    | INT => Some parseIntegerFn
    | TRUE | FALSE => Some parseBooleanFn
    | STRING => Some parseStringFn
    | IF_ => Some parseIfExpressionFn
    | FUNCTION => Some parseFunctionFn
    | LBRACKET => Some parseArrayLiteralFn
    | LBRACE => Some parseHashLiteralFn
    | LPAREN => Some parseGroupedExpressionFn
    | _ => None
    end.
Proof.
  intros (Hk & _ & _)%isOperator_false. unfold registeredPrefixFns.
  rewrite register_prefix_outside by done.
  by destruct k.
Qed.

Lemma infixFns_plain (k : TokenType) :
  isOperator tk k = false ->
  registeredInfixFns tk k
  = match k with
    | LPAREN => Some parseCallExpressionFn
    | LBRACKET => Some parseIndexExpressionFn
    | _ => None
    end.
Proof.
  intros (_ & Hi & Hp)%isOperator_false. unfold registeredInfixFns.
  rewrite !register_infix_outside by done.
  by destruct k.
Qed.

Lemma infixFns_binaryOperator (t : Token) :
  binaryOperator tk t -> registeredInfixFns tk (Type_ t) = Some parseInfixFn.
Proof.
  intros (Hi & Hp & _). unfold registeredInfixFns.
  rewrite register_infix_outside by done.
  by apply register_infix_inside.
Qed.

Lemma prefixFns_prefixOperator (t : Token) :
  prefixOperator tk t -> registeredPrefixFns tk (Type_ t) = Some parsePrefixFn.
Proof. intros H. by apply register_prefix_inside. Qed.

(** X5: the dispatch tables [New] builds.  A registration replaces the
    one made before it for the same token type, so the operator lists of
    package [token] win over the rules [New] registers by name: a type in
    the list of prefix operators is read by [parsePrefix] whatever it is;
    a type in the list of postfix operators is continued by
    [parsePostfix], else one in the list of infix operators by
    [parseInfix], and only then [(] by [parseCallExpression] and [[] by
    [parseIndexExpression].  Every other type has no rule. *)
Theorem New_dispatch (l : lexer.Lexer) (k : TokenType) :
  prefixFns (New tk l) k
  = (if existsb (token.eqb k) (GetPrefixOperators tk) then Some parsePrefixFn
     else match k with
          | IDENT => Some parseIdentifierFn
          | INT => Some parseIntegerFn
          | TRUE | FALSE => Some parseBooleanFn
          | STRING => Some parseStringFn
          | IF_ => Some parseIfExpressionFn
          | FUNCTION => Some parseFunctionFn
          | LBRACKET => Some parseArrayLiteralFn
          | LBRACE => Some parseHashLiteralFn
          | LPAREN => Some parseGroupedExpressionFn
          | _ => None
          end) /\
  infixFns (New tk l) k
  = (if existsb (token.eqb k) (GetPostfixOperators tk) then Some parsePostfixFn
     else if existsb (token.eqb k) (GetInfixOperators tk) then Some parseInfixFn
     else match k with
          | LPAREN => Some parseCallExpressionFn
          | LBRACKET => Some parseIndexExpressionFn
          | _ => None
          end).
Proof.
  cbn [prefixFns infixFns New]. unfold registeredPrefixFns, registeredInfixFns.
  split.
  - destruct (existsb (token.eqb k) (GetPrefixOperators tk)) eqn:Hprefix.
    + by apply register_prefix_inside.
    + rewrite register_prefix_outside by done. by destruct k.
  - destruct (existsb (token.eqb k) (GetPostfixOperators tk)) eqn:Hpostfix.
    + by apply register_infix_inside.
    + rewrite register_infix_outside by done.
      destruct (existsb (token.eqb k) (GetInfixOperators tk)) eqn:Hinfix.
      * by apply register_infix_inside.
      * rewrite register_infix_outside by done. by destruct k.
Qed.

End Registration.

(** *** Fuel

    The result of a parse does not depend on the fuel, once there is
    enough of it. *)

Section Fuel.
Import token lexer parser.

Variable tk : Package.
Variable ParseInt : string -> option Z.
Variable quoteType : TokenType -> string.
Variable quote : string -> string.

Lemma Below_refl {A : Type} (m : M A) : Below m m.
Proof. by intros p. Qed.

Lemma Below_stuck {A : Type} (m : M A) : Below stuck m.
Proof. by intros p. Qed.

Lemma Below_bind {A B : Type} (m m' : M A) (k k' : A -> M B) :
  Below m m' -> (forall a, Below (k a) (k' a)) -> Below (bind m k) (bind m' k').
Proof.
  intros Hm Hk p. unfold bind. specialize (Hm p).
  destruct (m p) as [a p1| |] eqn:Hmp; intros Hrun.
  - rewrite Hm by done. by apply Hk.
  - by rewrite Hm.
  - done.
Qed.

Create HintDb below.

#[local] Hint Resolve Below_refl Below_stuck : below.
#[local] Hint Extern 1 (_ <= _)%nat => lia : below.

(** Two calls of the same shape: compare them part by part. *)
Ltac below :=
  repeat first
    [ solve [auto with below nocore]
    | apply Below_bind; [| intros ?]
    | match goal with
      | |- Below (if ?b then _ else _) (if ?b then _ else _) => destruct b
      | |- Below (match ?x with _ => _ end) (match ?x with _ => _ end) =>
          destruct x
      end ].

Section RulesBelow.
Variables pe pe' : Z -> M ast.Expression.
Hypothesis pe_below : forall precedence, Below (pe precedence) (pe' precedence).

#[local] Hint Resolve pe_below : below.

Lemma Below_parseStatement :
  Below (parseStatement tk quoteType pe) (parseStatement tk quoteType pe').
Proof.
  unfold parseStatement, parseLetStatement, parseReturnStatement,
    parseExpressionStatement. below.
Qed.

#[local] Hint Resolve Below_parseStatement : below.

Lemma Below_parseBlockStatements n : forall n' statements,
  (n <= n')%nat ->
  Below (parseBlockStatements tk quoteType pe n statements)
        (parseBlockStatements tk quoteType pe' n' statements).
Proof.
  induction n as [|n IH]; intros [|n'] statements Hn;
    cbn [parseBlockStatements]; try lia; below.
Qed.

Lemma Below_parseParametersLoop n : forall n' params,
  (n <= n')%nat ->
  Below (parseParametersLoop n params) (parseParametersLoop n' params).
Proof.
  induction n as [|n IH]; intros [|n'] params Hn;
    cbn [parseParametersLoop]; try lia; below.
Qed.

Lemma Below_parseArrayElements n : forall n' elements,
  (n <= n')%nat ->
  Below (parseArrayElements tk pe n elements)
        (parseArrayElements tk pe' n' elements).
Proof.
  induction n as [|n IH]; intros [|n'] elements Hn;
    cbn [parseArrayElements]; try lia; below.
Qed.

Lemma Below_parseHashPairs n : forall n' pairs,
  (n <= n')%nat ->
  Below (parseHashPairs tk quoteType pe n pairs)
        (parseHashPairs tk quoteType pe' n' pairs).
Proof.
  induction n as [|n IH]; intros [|n'] pairs Hn;
    cbn [parseHashPairs]; try lia; below.
Qed.

Lemma Below_parseCallArguments n : forall n' args,
  (n <= n')%nat ->
  Below (parseCallArguments tk pe n args) (parseCallArguments tk pe' n' args).
Proof.
  induction n as [|n IH]; intros [|n'] args Hn;
    cbn [parseCallArguments]; try lia; below.
Qed.

#[local] Hint Resolve Below_parseBlockStatements Below_parseParametersLoop
  Below_parseArrayElements Below_parseHashPairs Below_parseCallArguments
  : below.

Lemma Below_callPrefix n n' fn :
  (n <= n')%nat ->
  Below (callPrefix tk ParseInt quoteType quote pe n fn)
        (callPrefix tk ParseInt quoteType quote pe' n' fn).
Proof.
  intros Hn. destruct fn; cbn [callPrefix];
    unfold parseIfExpression, parseFunction, parseParameters, parseArrayLiteral,
      parseHashLiteral, parseGroupedExpression, parsePrefix,
      parseBlockExpression; below.
Qed.

Lemma Below_callInfix n n' fn left :
  (n <= n')%nat ->
  Below (callInfix tk quoteType pe n fn left)
        (callInfix tk quoteType pe' n' fn left).
Proof.
  intros Hn. destruct fn; cbn [callInfix];
    unfold parseCallExpression, parseIndexExpression, parseInfix; below.
Qed.

#[local] Hint Resolve Below_callPrefix Below_callInfix : below.

Lemma Below_parseExpressionLoop n : forall n' precedence left,
  (n <= n')%nat ->
  Below (parseExpressionLoop tk quoteType pe n precedence left)
        (parseExpressionLoop tk quoteType pe' n' precedence left).
Proof.
  induction n as [|n IH]; intros [|n'] precedence left Hn;
    cbn [parseExpressionLoop]; try lia; below.
Qed.

#[local] Hint Resolve Below_parseExpressionLoop : below.

Lemma Below_parseExpressionBody n n' precedence :
  (n <= n')%nat ->
  Below (parseExpressionBody tk ParseInt quoteType quote pe n precedence)
        (parseExpressionBody tk ParseInt quoteType quote pe' n' precedence).
Proof. intros Hn. unfold parseExpressionBody. below. Qed.

End RulesBelow.

Lemma Below_parseExpression fuel : forall fuel' precedence,
  (fuel <= fuel')%nat ->
  Below (parseExpression tk ParseInt quoteType quote fuel precedence)
        (parseExpression tk ParseInt quoteType quote fuel' precedence).
Proof.
  induction fuel as [|fuel IH]; intros [|fuel'] precedence Hfuel;
    cbn [parseExpression]; try lia; try apply Below_stuck.
  apply Below_parseExpressionBody; [|lia]. intros. apply IH. lia.
Qed.

Lemma Below_parseProgramStatements fuel fuel' n : forall n' statements,
  (fuel <= fuel')%nat -> (n <= n')%nat ->
  Below (parseProgramStatements tk ParseInt quoteType quote fuel n statements)
        (parseProgramStatements tk ParseInt quoteType quote fuel' n' statements).
Proof.
  intros n' statements Hfuel. revert n' statements.
  pose proof (Below_parseStatement _ _
                (fun precedence => Below_parseExpression fuel fuel' precedence Hfuel))
    as Hstatement.
  induction n as [|n IH]; intros [|n'] statements Hn;
    cbn [parseProgramStatements]; try lia; below.
Qed.

(** More fuel does not change what [ParseProgram] gives. *)
Lemma ParseProgram_fuel (fuel fuel' : nat) (p : Parser) :
  (fuel <= fuel')%nat ->
  ParseProgram tk ParseInt quoteType quote fuel p <> OutOfFuel ->
  ParseProgram tk ParseInt quoteType quote fuel' p
  = ParseProgram tk ParseInt quoteType quote fuel p.
Proof.
  intros Hfuel Hrun. unfold ParseProgram in *.
  assert (Hbody : Below (parseProgramBody tk ParseInt quoteType quote fuel)
                        (parseProgramBody tk ParseInt quoteType quote fuel')).
  { pose proof (fun statements =>
      Below_parseProgramStatements fuel fuel' fuel fuel' statements Hfuel Hfuel)
      as Hloop.
    unfold parseProgramBody. below. }
  rewrite (Hbody p); [done|].
  intros Hstuck. by rewrite Hstuck in Hrun.
Qed.

End Fuel.

Section Parsing.
Import token lexer parser.

Variable tk : Package.
Variable ParseInt : string -> option Z.
Variable quoteType : TokenType -> string.
Variable quote : string -> string.
(** The end-of-input token of the tokenizer. *)
Variable eof : Token.

Local Abbreviation PE := (parseExpression tk ParseInt quoteType quote).
Local Abbreviation on := (cursorOn tk eof).

(** *** The cursor *)

Lemma nextToken_on (toks : list Token) :
  nextToken (on toks) = Ok (hd eof (tl toks)) (on (tl toks)).
Proof. by destruct toks as [|a [|b [|c rest]]]. Qed.

(** [ParseProgram] on a fresh parser pulls two tokens, which puts the
    cursor on the first one. *)
Lemma parseProgramBody_New (fuel : nat) (toks : list Token) :
  parseProgramBody tk ParseInt quoteType quote fuel (New tk (tokenizer eof toks))
  = match parseProgramStatements tk ParseInt quoteType quote fuel fuel [] (on toks) with
    | Ok statements p => Ok (ast.mkProgram statements) p
    | Panic v => Panic v
    | Stuck => Stuck
    end.
Proof. by destruct toks as [|a [|b rest]]. Qed.

(** *** The loop of [parseExpression] *)

Lemma loop_no_rule pe n precedence left p :
  infixFns p (Type_ (peekToken p)) = None ->
  parseExpressionLoop tk quoteType pe n precedence left p = Ok left p.
Proof.
  intros Hnone. destruct n; cbn; unfold bind, gets; cbn;
    destruct (_ && _); by rewrite ?Hnone.
Qed.

Lemma loop_low pe n precedence left p :
  (precedence <? Precedence tk (peekToken p)) = false ->
  parseExpressionLoop tk quoteType pe n precedence left p = Ok left p.
Proof.
  intros Hlow. destruct n; cbn; unfold bind, gets; cbn;
    by rewrite Hlow, andb_false_r.
Qed.

Lemma loop_rule pe n precedence left p fn :
  token.eqb (Type_ (peekToken p)) SEMICOLON = false ->
  (precedence <? Precedence tk (peekToken p)) = true ->
  infixFns p (Type_ (peekToken p)) = Some fn ->
  parseExpressionLoop tk quoteType pe (S n) precedence left p
  = match nextToken p with
    | Ok _ p1 =>
        match callInfix tk quoteType pe n fn left p1 with
        | Ok left1 p2 => parseExpressionLoop tk quoteType pe n precedence left1 p2
        | Panic v => Panic v
        | Stuck => Stuck
        end
    | Panic v => Panic v
    | Stuck => Stuck
    end.
Proof.
  intros Hsemi Hhigh Hfn. cbn. unfold bind, gets; cbn.
  rewrite Hsemi, Hhigh. cbn. by rewrite Hfn.
Qed.

(** *** The rules on a cursor *)

Lemma parseInfix_on pe left o rest :
  parseInfix tk pe left (on (o :: rest))
  = match pe (Precedence tk o) (on rest) with
    | Ok operand p => Ok (ast.InfixExpression o left (Literal o) operand) p
    | Panic v => Panic v
    | Stuck => Stuck
    end.
Proof.
  unfold parseInfix, currentTokenPrecedence, bind, gets.
  rewrite nextToken_on. by destruct rest.
Qed.

Lemma parsePrefix_on pe o rest :
  parsePrefix tk pe (on (o :: rest))
  = match pe (Precedence tk o) (on rest) with
    | Ok value p => Ok (ast.PrefixExpression o (Literal o) value) p
    | Panic v => Panic v
    | Stuck => Stuck
    end.
Proof.
  unfold parsePrefix, currentTokenPrecedence, bind, gets.
  rewrite nextToken_on. by destruct rest.
Qed.

(** A one-token expression: the prefix rule reads the current token and
    leaves the cursor on it. *)
Lemma callPrefix_literal pe n t e rest :
  isOperator tk (Type_ t) = false ->
  literal ParseInt t = Some e ->
  exists fn,
    registeredPrefixFns tk (Type_ t) = Some fn /\
    callPrefix tk ParseInt quoteType quote pe n fn (on (t :: rest))
    = Ok e (on (t :: rest)).
Proof.
  intros Hplain Hlit. rewrite (prefixFns_plain tk _ Hplain).
  unfold literal in Hlit.
  destruct (Type_ t) eqn:Hk; try done; eexists; (split; [done|]); cbn.
  - by injection Hlit as <-.
  - unfold parseInteger, bind, gets. cbn.
    destruct (ParseInt (Literal t)); [by injection Hlit as <- | done].
  - unfold parseBoolean, bind, gets. cbn. rewrite Hk. cbn. by injection Hlit as <-.
  - unfold parseBoolean, bind, gets. cbn. rewrite Hk. cbn. by injection Hlit as <-.
  - by injection Hlit as <-.
Qed.

Lemma PE_literal n precedence t e rest :
  isOperator tk (Type_ t) = false ->
  literal ParseInt t = Some e ->
  PE (S n) precedence (on (t :: rest))
  = parseExpressionLoop tk quoteType (PE n) n precedence e (on (t :: rest)).
Proof.
  intros Hplain Hlit.
  destruct (callPrefix_literal (PE n) n t e rest Hplain Hlit) as (fn & Hfn & Hcall).
  cbn [parseExpression]. unfold parseExpressionBody, bind at 1 2, gets.
  cbn [currentToken prefixFns cursorOn hd]. rewrite Hfn.
  unfold bind. by rewrite Hcall.
Qed.

(** A one-token expression followed by a token with no infix rule. *)
Lemma PE_literal_end n precedence t e rest :
  isOperator tk (Type_ t) = false ->
  literal ParseInt t = Some e ->
  isOperator tk (Type_ (hd eof rest)) = false ->
  Type_ (hd eof rest) <> LPAREN ->
  Type_ (hd eof rest) <> LBRACKET ->
  PE (S n) precedence (on (t :: rest)) = Ok e (on (t :: rest)).
Proof.
  intros Hplain Hlit Hnext Hparen Hbracket.
  rewrite (PE_literal n precedence t e rest) by done. apply loop_no_rule.
  cbn [infixFns peekToken cursorOn tl]. rewrite infixFns_plain by done.
  by destruct (Type_ (hd eof rest)).
Qed.

(** An expression that begins with a prefix operator. *)
Lemma PE_prefix n precedence m rest :
  prefixOperator tk m ->
  PE (S n) precedence (on (m :: rest))
  = match PE n (Precedence tk m) (on rest) with
    | Ok value p =>
        parseExpressionLoop tk quoteType (PE n) n precedence
          (ast.PrefixExpression m (Literal m) value) p
    | Panic v => Panic v
    | Stuck => Stuck
    end.
Proof.
  intros Hm.
  change (PE (S n) precedence)
    with (parseExpressionBody tk ParseInt quoteType quote (PE n) n precedence).
  unfold parseExpressionBody, bind at 1 2, gets.
  cbn [currentToken prefixFns cursorOn hd].
  rewrite prefixFns_prefixOperator by done.
  unfold bind at 1. cbn [callPrefix]. rewrite parsePrefix_on.
  by destruct (PE n (Precedence tk m) (on rest)).
Qed.

(** *** Programs of one expression statement *)

Hypothesis eof_type : Type_ eof = EOF.

(** After the last token the loop of [parseExpression] ends: the peek
    token is the end of input, which has no infix rule. *)
Lemma loop_end pe n precedence left t :
  isOperator tk EOF = false ->
  parseExpressionLoop tk quoteType pe n precedence left (on [t]) = Ok left (on [t]).
Proof.
  intros Hplain. apply loop_no_rule.
  cbn [infixFns peekToken cursorOn tl hd]. rewrite eof_type.
  by rewrite infixFns_plain.
Qed.

(** [skipSemicolon] on the last token of the input, and before a final
    semicolon. *)
Lemma skipSemicolon_last t :
  skipSemicolon (on [t]) = Ok tt (on [t]).
Proof.
  unfold skipSemicolon, bind, peekTokenTypeIs, gets.
  cbn [peekToken cursorOn hd tl]. by rewrite eof_type.
Qed.

Lemma skipSemicolon_semicolon t semi rest :
  Type_ semi = SEMICOLON ->
  skipSemicolon (on (t :: semi :: rest)) = Ok tt (on (semi :: rest)).
Proof.
  intros Hsemi. unfold skipSemicolon, bind at 1, peekTokenTypeIs, gets.
  cbn [peekToken cursorOn hd tl]. rewrite Hsemi. cbn [token.eqb].
  unfold bind. by rewrite nextToken_on.
Qed.

(** A program of one statement: when [parseStatement] reads the tokens up
    to the last one, [ParseProgram] returns the program of that
    statement. *)
Lemma ParseProgram_statement fuel t rest statement last :
  Type_ t <> EOF ->
  parseStatement tk quoteType (PE (S fuel)) (on (t :: rest))
  = Ok statement (on [last]) ->
  ParseProgram tk ParseInt quoteType quote (S fuel)
    (New tk (tokenizer eof (t :: rest)))
  = Returns (Some (ast.mkProgram [statement])) None.
Proof.
  intros Heof Hparse. unfold ParseProgram.
  rewrite parseProgramBody_New.
  cbn [parseProgramStatements]. unfold bind at 1, currentTokenTypeIs at 1, gets at 1.
  cbn [currentToken cursorOn hd].
  replace (token.eqb (Type_ t) EOF) with false
    by (symmetry; apply not_true_is_false; by rewrite eqb_eq).
  cbn [negb]. unfold bind at 1. rewrite Hparse.
  unfold bind at 1. rewrite nextToken_on. cbn [tl].
  destruct fuel; cbn [parseProgramStatements]; unfold bind, currentTokenTypeIs, gets;
    cbn [currentToken cursorOn hd]; by rewrite eof_type.
Qed.

Lemma parseStatement_expression pe t rest :
  Type_ t <> LET -> Type_ t <> RETURN ->
  parseStatement tk quoteType pe (on (t :: rest))
  = match pe (LOWEST_PRECEDENCE tk) (on (t :: rest)) with
    | Ok value p =>
        match skipSemicolon p with
        | Ok _ p1 => Ok (ast.ExpressionStatement t value) p1
        | Panic v => Panic v
        | Stuck => Stuck
        end
    | Panic v => Panic v
    | Stuck => Stuck
    end.
Proof.
  intros Hlet Hret. unfold parseStatement, bind at 1, gets at 1.
  cbn [currentToken cursorOn hd].
  assert (Hrule :
    match Type_ t with
    | LET => parseLetStatement tk quoteType pe
    | RETURN => parseReturnStatement tk pe
    | _ => parseExpressionStatement tk pe
    end = parseExpressionStatement tk pe) by by destruct (Type_ t).
  rewrite Hrule. unfold parseExpressionStatement, bind, gets.
  cbn [currentToken cursorOn hd].
  destruct (pe _ _) as [value p| |]; [|done..].
  by destruct (skipSemicolon p).
Qed.

(** A program whose tokens are one expression: when [parseExpression]
    reads it up to its last token, [ParseProgram] returns the program of
    that one expression statement. *)
Lemma ParseProgram_expression fuel t rest e last :
  Type_ t <> LET -> Type_ t <> RETURN -> Type_ t <> EOF ->
  PE fuel (LOWEST_PRECEDENCE tk) (on (t :: rest)) = Ok e (on [last]) ->
  ParseProgram tk ParseInt quoteType quote fuel
    (New tk (tokenizer eof (t :: rest)))
  = Returns (Some (ast.mkProgram [ast.ExpressionStatement t e])) None.
Proof.
  intros Hlet Hret Heof Hparse. destruct fuel as [|n]; [done|].
  apply (ParseProgram_statement _ _ _ _ last); [done|].
  rewrite parseStatement_expression by done.
  by rewrite Hparse, skipSemicolon_last.
Qed.

(** *** Chains of binary operators, of any length *)

(** The token types of the one-token expressions. *)
Lemma literal_kind t e :
  literal ParseInt t = Some e ->
  In (Type_ t) [IDENT; INT; TRUE; FALSE; STRING].
Proof. unfold literal. destruct (Type_ t); cbn; tauto || done. Qed.

Lemma literal_tree t e :
  literal ParseInt t = Some e ->
  inorder e = [t] /\ rootPrecedence tk e = None /\ ordered tk e.
Proof.
  unfold literal. destruct (Type_ t); try done;
    try (by intros [= <-]).
  destruct (ParseInt (Literal t)); [by intros [= <-] | done].
Qed.

Lemma chainTokens_app (a b : list (Token * Token)) :
  chainTokens (a ++ b) = chainTokens a ++ chainTokens b.
Proof. unfold chainTokens. apply flat_map_app. Qed.

(** The loop of [parseExpression] on a chain, given that
    [parseExpression] itself reads the shorter chains. *)
Lemma loop_chain f :
  plain tk [IDENT; INT; TRUE; FALSE; STRING; EOF] ->
  (forall chain a ea precedence,
     Forall (link tk ParseInt) chain -> literal ParseInt a = Some ea ->
     (length chain < f)%nat ->
     readsChain tk eof precedence ea chain
       (PE f precedence (on (a :: chainTokens chain)))) ->
  forall n chain left cur precedence,
    Forall (link tk ParseInt) chain ->
    (length chain <= n)%nat -> (length chain <= f)%nat ->
    ordered tk left ->
    (forall q oa rest,
       rootPrecedence tk left = Some q -> chain = oa :: rest ->
       Precedence tk (fst oa) <= q) ->
    readsChain tk eof precedence left chain
      (parseExpressionLoop tk quoteType (PE f) n precedence left
         (on (cur :: chainTokens chain))).
Proof.
  intros Hplain HPE.
  assert (Heof : isOperator tk EOF = false)
    by (apply (plain_elem tk _ _ Hplain); cbn; tauto).
  induction n as [|n IH]; intros [|[o a] chain] left cur precedence
    Hlinks Hn Hf Hordered Hleft; cbn [length] in *; try lia.
  - exists left, [], [], cur. rewrite loop_end by done.
    split_and!; try done; [by rewrite app_nil_r | by left].
  - exists left, [], [], cur. rewrite loop_end by done.
    split_and!; try done; [by rewrite app_nil_r | by left].
  - apply Forall_cons in Hlinks as [(Ho & Hlow & ea & Ha) Hlinks].
    cbn [fst snd] in *. cbn [chainTokens flat_map app fst snd].
    fold (chainTokens chain).
    destruct (Z.ltb_spec precedence (Precedence tk o)) as [Hlt|Hge].
    + rewrite (loop_rule _ _ _ _ _ parseInfixFn);
        [| apply Ho | by apply Z.ltb_lt | by apply infixFns_binaryOperator].
      rewrite nextToken_on. cbn [tl callInfix]. rewrite parseInfix_on.
      destruct (HPE chain a ea (Precedence tk o) Hlinks Ha ltac:(lia))
        as (right & read1 & unread1 & last1 & -> & -> & Hin1 & Hord1 & Hroot1 & Hstop1).
      apply Forall_app in Hlinks as [_ Hunread].
      rewrite length_app in Hn, Hf.
      destruct (literal_tree a ea Ha) as (Hina & Hroota & _).
      destruct (IH unread1 (ast.InfixExpression o left (Literal o) right) last1
                  precedence Hunread ltac:(lia) ltac:(lia))
        as (tree & read2 & unread2 & last2 & -> & -> & Hin2 & Hord2 & Hroot2 & Hstop2).
      * cbn [ordered]. split_and!; try done.
        -- intros q Hq. by apply (Hleft q (o, a) (read1 ++ unread1)).
        -- intros q Hq. destruct Hroot1 as [-> | (q1 & Hq1 & Hlt1)]; congruence.
      * intros q oa rest [= <-] ->. by apply (Hstop1 oa rest).
      * exists tree, ((o, a) :: read1 ++ read2), unread2, last2.
        split_and!; try done.
        -- cbn [app]. by rewrite app_assoc.
        -- rewrite Hin2. cbn [inorder]. rewrite Hin1, Hina.
           cbn [chainTokens flat_map fst snd app]. fold (chainTokens (read1 ++ read2)).
           rewrite chainTokens_app, <- !app_assoc. done.
        -- right. destruct Hroot2 as [-> | Hroot2]; [|done].
           exists (Precedence tk o). by split.
    + rewrite loop_low by (by apply Z.ltb_ge).
      exists left, [], ((o, a) :: chain), cur. split_and!; try done.
      * by rewrite app_nil_r.
      * by left.
      * by intros oa rest [= <- _].
Qed.

(** [parseExpression] on a chain: by induction on the fuel. *)
Lemma PE_chain f :
  plain tk [IDENT; INT; TRUE; FALSE; STRING; EOF] ->
  forall chain a ea precedence,
    Forall (link tk ParseInt) chain -> literal ParseInt a = Some ea ->
    (length chain < f)%nat ->
    readsChain tk eof precedence ea chain
      (PE f precedence (on (a :: chainTokens chain))).
Proof.
  intros Hplain. induction f as [|f IH]; intros chain a ea precedence Hlinks Ha Hf;
    [lia|].
  destruct (literal_tree a ea Ha) as (Hina & Hroota & Horda).
  rewrite (PE_literal _ _ a ea);
    [| apply (plain_elem tk _ _ Hplain); apply literal_kind in Ha; cbn in *; tauto
     | done].
  apply (loop_chain f Hplain IH); try done; try lia.
  intros q oa rest Hq. congruence.
Qed.

(** A chain of binary operators of any length, over one-token operands,
    is read whole, and the tree [ParseProgram] returns has the tokens of
    the chain in their order and respects precedence at every operator. *)
Lemma ParseProgram_chain (fuel : nat) a ea chain :
  plain tk [IDENT; INT; TRUE; FALSE; STRING; EOF] ->
  literal ParseInt a = Some ea ->
  Forall (link tk ParseInt) chain ->
  (length chain < fuel)%nat ->
  exists tree,
    ParseProgram tk ParseInt quoteType quote fuel
      (New tk (tokenizer eof (a :: chainTokens chain)))
    = Returns (Some (ast.mkProgram [ast.ExpressionStatement a tree])) None /\
    inorder tree = a :: chainTokens chain /\
    ordered tk tree.
Proof.
  intros Hplain Ha Hlinks Hfuel.
  destruct (PE_chain fuel Hplain chain a ea (LOWEST_PRECEDENCE tk) Hlinks Ha Hfuel)
    as (tree & read & unread & last & -> & Hparse & Hin & Hord & _ & Hstop).
  destruct unread as [|oa rest].
  - exists tree. rewrite app_nil_r in *.
    destruct (literal_tree a ea Ha) as (Hina & _).
    rewrite Hina in Hin. split_and!; try done.
    apply literal_kind in Ha as Hkind.
    apply (ParseProgram_expression _ _ _ _ last); try done;
      intros Heq; rewrite Heq in Hkind; cbn in Hkind; intuition discriminate.
  - apply Forall_app in Hlinks as [_ Hunread].
    apply Forall_cons in Hunread as [(_ & Hlow & _) _].
    specialize (Hstop oa rest eq_refl). lia.
Qed.

(** C1: operator precedence is respected.  For one-token operands [a],
    [b], [c] and binary operators [o1], [o2] above the lowest level,
    [a o1 b o2 c] is [a o1 (b o2 c)] when [o2] binds tighter than [o1]
    (as in [1 + 2 * 3]) and [(a o1 b) o2 c] otherwise (so equal levels,
    as in [a + b + c], fold left to right); [m a o b], with [m] a prefix
    operator that does not bind looser than [o] (as in [-1 + 2]), is
    [(m a) o b]: the prefix operator applies to [a] alone; and a chain of
    binary operators of any length shorter than the fuel is read whole
    into a tree that has its tokens in their order and respects
    precedence at every operator. *)
Theorem precedence_respected (fuel : nat) :
  plain tk [IDENT; INT; TRUE; FALSE; STRING; LET; RETURN; EOF] ->
  (3 <= fuel)%nat ->
  (forall a o1 b o2 c ea eb ec,
     literal ParseInt a = Some ea ->
     literal ParseInt b = Some eb ->
     literal ParseInt c = Some ec ->
     binaryOperator tk o1 -> binaryOperator tk o2 ->
     LOWEST_PRECEDENCE tk < Precedence tk o1 ->
     LOWEST_PRECEDENCE tk < Precedence tk o2 ->
     ParseProgram tk ParseInt quoteType quote fuel
       (New tk (tokenizer eof [a; o1; b; o2; c]))
     = Returns
         (Some (ast.mkProgram [ast.ExpressionStatement a
            (if Precedence tk o1 <? Precedence tk o2 then
               ast.InfixExpression o1 ea (Literal o1)
                 (ast.InfixExpression o2 eb (Literal o2) ec)
             else
               ast.InfixExpression o2
                 (ast.InfixExpression o1 ea (Literal o1) eb) (Literal o2) ec)]))
         None) /\
  (forall m a o b ea eb,
     literal ParseInt a = Some ea ->
     literal ParseInt b = Some eb ->
     prefixOperator tk m -> binaryOperator tk o ->
     LOWEST_PRECEDENCE tk < Precedence tk o ->
     ~ Precedence tk m < Precedence tk o ->
     ParseProgram tk ParseInt quoteType quote fuel
       (New tk (tokenizer eof [m; a; o; b]))
     = Returns
         (Some (ast.mkProgram [ast.ExpressionStatement m
            (ast.InfixExpression o
               (ast.PrefixExpression m (Literal m) ea) (Literal o) eb)]))
         None) /\
  (forall a ea chain,
     literal ParseInt a = Some ea ->
     Forall (link tk ParseInt) chain ->
     (length chain < fuel)%nat ->
     exists tree,
       ParseProgram tk ParseInt quoteType quote fuel
         (New tk (tokenizer eof (a :: chainTokens chain)))
       = Returns (Some (ast.mkProgram [ast.ExpressionStatement a tree])) None /\
       inorder tree = a :: chainTokens chain /\
       ordered tk tree).
Proof.
  intros Hplain Hfuel.
  assert (Hchain : forall a ea chain,
     literal ParseInt a = Some ea ->
     Forall (link tk ParseInt) chain ->
     (length chain < fuel)%nat ->
     exists tree,
       ParseProgram tk ParseInt quoteType quote fuel
         (New tk (tokenizer eof (a :: chainTokens chain)))
       = Returns (Some (ast.mkProgram [ast.ExpressionStatement a tree])) None /\
       inorder tree = a :: chainTokens chain /\
       ordered tk tree).
  { intros a ea chain Ha Hlinks Hlen. apply (ParseProgram_chain fuel a ea); try done.
    unfold plain in *. cbn [forallb] in *.
    repeat (apply andb_prop in Hplain as [? Hplain]).
    repeat (apply andb_true_intro; split); done. }
  destruct fuel as [|[|[|n]]]; [lia.. |]. clear Hfuel.
  assert (Hlit : forall t e, literal ParseInt t = Some e ->
            isOperator tk (Type_ t) = false /\
            Type_ t <> LET /\ Type_ t <> RETURN /\ Type_ t <> EOF).
  { intros t e Ht. unfold literal in Ht. split.
    - apply (plain_elem tk _ _ Hplain). destruct (Type_ t); cbn; tauto || done.
    - by destruct (Type_ t). }
  assert (Heof : isOperator tk EOF = false)
    by (apply (plain_elem tk _ _ Hplain); cbn; tauto).
  split; [|split; [|exact Hchain]].
  - intros a o1 b o2 c ea eb ec Ha Hb Hc Ho1 Ho2 Hlow1 Hlow2.
    destruct (Hlit a ea Ha) as (Hpa & Hla & Hra & Hea).
    destruct (Hlit b eb Hb) as (Hpb & _). destruct (Hlit c ec Hc) as (Hpc & _).
    apply (ParseProgram_expression _ _ _ _ c); try done.
    rewrite (PE_literal _ _ a ea) by done.
    rewrite (loop_rule _ _ _ _ _ parseInfixFn);
      [| apply Ho1 | by apply Z.ltb_lt | by apply infixFns_binaryOperator].
    rewrite nextToken_on. cbn [tl callInfix]. rewrite parseInfix_on.
    rewrite (PE_literal _ _ b eb) by done.
    destruct (Z.ltb_spec (Precedence tk o1) (Precedence tk o2)) as [Hlt|Hge].
    + rewrite (loop_rule _ _ _ _ _ parseInfixFn);
        [| apply Ho2 | by apply Z.ltb_lt | by apply infixFns_binaryOperator].
      rewrite nextToken_on. cbn [tl callInfix]. rewrite parseInfix_on.
      rewrite (PE_literal _ _ c ec) by done.
      by rewrite !loop_end.
    + rewrite loop_low by (by apply Z.ltb_ge).
      rewrite (loop_rule _ _ _ _ _ parseInfixFn);
        [| apply Ho2 | by apply Z.ltb_lt | by apply infixFns_binaryOperator].
      rewrite nextToken_on. cbn [tl callInfix]. rewrite parseInfix_on.
      rewrite (PE_literal _ _ c ec) by done.
      by rewrite !loop_end.
  - intros m a o b ea eb Ha Hb Hm Ho Hlow Hbind.
    destruct (Hlit a ea Ha) as (Hpa & _). destruct (Hlit b eb Hb) as (Hpb & _).
    assert (Hkind : forall k, isOperator tk k = false -> Type_ m <> k).
    { intros k Hk <-. apply isOperator_false in Hk as (Hk & _).
      unfold prefixOperator in Hm. congruence. }
    apply (ParseProgram_expression _ _ _ _ b);
      try (apply Hkind, (plain_elem tk _ _ Hplain); cbn; tauto).
    rewrite PE_prefix by done.
    rewrite (PE_literal _ _ a ea) by done.
    rewrite loop_low by (apply Z.ltb_ge; cbn; lia).
    rewrite (loop_rule _ _ _ _ _ parseInfixFn);
      [| apply Ho | by apply Z.ltb_lt | by apply infixFns_binaryOperator].
    rewrite nextToken_on. cbn [tl callInfix]. rewrite parseInfix_on.
    rewrite (PE_literal _ _ b eb) by done.
    by rewrite !loop_end.
Qed.

(** *** Let statements *)

Lemma assertNextTokenType_on expect t next rest :
  Type_ next = expect ->
  assertNextTokenType quoteType expect (on (t :: next :: rest))
  = Ok tt (on (next :: rest)).
Proof.
  intros <-. unfold assertNextTokenType, bind at 1, gets.
  cbn [peekToken cursorOn hd tl]. unfold assertTokenType.
  rewrite eqb_refl. cbn [negb]. unfold bind. by rewrite nextToken_on.
Qed.

Lemma assertCurrentTokenType_on expect t rest :
  Type_ t = expect ->
  assertCurrentTokenType quoteType expect (on (t :: rest)) = Ok tt (on rest).
Proof.
  intros <-. unfold assertCurrentTokenType, bind at 1, gets.
  cbn [currentToken cursorOn hd]. unfold assertTokenType.
  rewrite eqb_refl. cbn [negb]. unfold bind. by rewrite nextToken_on.
Qed.

Lemma parseLetStatement_on pe letToken nameToken assignToken rest :
  Type_ nameToken = IDENT -> Type_ assignToken = ASSIGN ->
  parseLetStatement tk quoteType pe
    (on (letToken :: nameToken :: assignToken :: rest))
  = match pe (LOWEST_PRECEDENCE tk) (on rest) with
    | Ok express p =>
        match skipSemicolon p with
        | Ok _ p1 =>
            let name := ast.mkIdentifier nameToken (Literal nameToken) in
            Ok (ast.LetStatement letToken name
                  match express with
                  | ast.FunctionExpression ft _ parameters body =>
                      ast.FunctionExpression ft (Some name) parameters body
                  | _ => express
                  end) p1
        | Panic v => Panic v
        | Stuck => Stuck
        end
    | Panic v => Panic v
    | Stuck => Stuck
    end.
Proof.
  intros Hname Hassign. unfold parseLetStatement, bind at 1, gets at 1.
  cbn [currentToken cursorOn hd].
  unfold bind at 1. rewrite assertNextTokenType_on by done.
  unfold bind at 1, gets at 1. cbn [currentToken cursorOn hd].
  unfold bind at 1. rewrite assertNextTokenType_on by done.
  unfold bind at 1. rewrite nextToken_on. cbn [tl].
  unfold bind at 1. destruct (pe _ _) as [express p| |]; [|done..].
  unfold bind, ret. by destruct (skipSemicolon p).
Qed.

(** C8: when the expression bound by a [let] is a function literal, the
    function node in the statement carries the name of the binding.  The
    program is one [let] statement, with or without its semicolon, whose
    right-hand side [parseExpression] reads as a function literal, named
    or not; the result is the same for any larger fuel. *)
Theorem let_names_function fuel fuel' letToken nameToken assignToken rest
    ft fname parameters body last trailing :
  Type_ letToken = LET -> Type_ nameToken = IDENT -> Type_ assignToken = ASSIGN ->
  PE (S fuel) (LOWEST_PRECEDENCE tk) (on rest)
  = Ok (ast.FunctionExpression ft fname parameters body) (on (last :: trailing)) ->
  trailing = [] \/ (exists semi, trailing = [semi] /\ Type_ semi = SEMICOLON) ->
  (S fuel <= fuel')%nat ->
  ParseProgram tk ParseInt quoteType quote fuel'
    (New tk (tokenizer eof (letToken :: nameToken :: assignToken :: rest)))
  = Returns
      (Some (ast.mkProgram
         [let name := ast.mkIdentifier nameToken (Literal nameToken) in
          ast.LetStatement letToken name
            (ast.FunctionExpression ft (Some name) parameters body)]))
      None.
Proof.
  intros Hlet Hname Hassign Hparse Htrailing Hfuel.
  assert (Hrun :
    ParseProgram tk ParseInt quoteType quote (S fuel)
      (New tk (tokenizer eof (letToken :: nameToken :: assignToken :: rest)))
    = Returns
        (Some (ast.mkProgram
           [let name := ast.mkIdentifier nameToken (Literal nameToken) in
            ast.LetStatement letToken name
              (ast.FunctionExpression ft (Some name) parameters body)]))
        None).
  { destruct Htrailing as [-> | (semi & -> & Hsemi)].
    - apply (ParseProgram_statement _ _ _ _ last); [by rewrite Hlet|].
      unfold parseStatement, bind at 1, gets at 1. cbn [currentToken cursorOn hd].
      rewrite Hlet, parseLetStatement_on by done.
      by rewrite Hparse, skipSemicolon_last.
    - apply (ParseProgram_statement _ _ _ _ semi); [by rewrite Hlet|].
      unfold parseStatement, bind at 1, gets at 1. cbn [currentToken cursorOn hd].
      rewrite Hlet, parseLetStatement_on by done.
      by rewrite Hparse, skipSemicolon_semicolon. }
  rewrite (ParseProgram_fuel tk ParseInt quoteType quote (S fuel) fuel') by
    (done || by rewrite Hrun).
  exact Hrun.
Qed.

(** *** Lists of elements *)

(** A one-token expression before a token of a type among [kinds], none
    of which continues an expression. *)
Lemma PE_literal_before kinds n precedence t e rest :
  plain tk kinds -> ~ In LPAREN kinds -> ~ In LBRACKET kinds ->
  incl [IDENT; INT; TRUE; FALSE; STRING] kinds ->
  In (Type_ (hd eof rest)) kinds ->
  literal ParseInt t = Some e ->
  PE (S n) precedence (on (t :: rest)) = Ok e (on (t :: rest)).
Proof.
  intros Hplain Hparen Hbracket Hincl Hnext Hlit.
  apply PE_literal_end; try done.
  - apply (plain_elem tk _ _ Hplain), Hincl. by eapply literal_kind.
  - by apply (plain_elem tk _ _ Hplain).
  - by intros Heq; rewrite Heq in Hnext.
  - by intros Heq; rewrite Heq in Hnext.
Qed.

(** What follows an element of a separated list: a comma, the next
    element, or the token that closes the list. *)
Lemma hd_separated items es closing trailing :
  Forall2 (element ParseInt) items es ->
  In (Type_ (hd eof (separated items ++ closing :: trailing)))
    [IDENT; INT; TRUE; FALSE; STRING; Type_ closing].
Proof.
  intros [|[t c] e items' es' [Ht _] _]; cbn [separated flat_map app hd fst].
  - cbn. tauto.
  - apply literal_kind in Ht. cbn in *. tauto.
Qed.


(** **** Call arguments *)




Lemma literal_not t e k :
  literal ParseInt t = Some e ->
  ~ In k [IDENT; INT; TRUE; FALSE; STRING] ->
  token.eqb (Type_ t) k = false.
Proof.
  intros Hlit Hk. apply not_true_is_false. rewrite eqb_eq. intros Heq.
  apply Hk. rewrite <- Heq. by eapply literal_kind.
Qed.


(** **** Array elements and parameters *)

Lemma hd_not_comma items es closing trailing :
  Forall2 (element ParseInt) items es ->
  Type_ closing <> COMMA ->
  token.eqb (Type_ (hd eof (separated items ++ closing :: trailing))) COMMA = false.
Proof.
  intros Hitems Hclosing. apply not_true_is_false. rewrite eqb_eq. intros Heq.
  pose proof (hd_separated items es closing trailing Hitems) as Hin.
  rewrite Heq in Hin. cbn in Hin. intuition (discriminate || congruence).
Qed.

(** The cursor after an element and the comma that may follow it. *)
Lemma after_element (c : option Token) items es closing trailing :
  match c with Some c => Type_ c = COMMA | None => True end ->
  Forall2 (element ParseInt) items es ->
  Type_ closing <> COMMA ->
  let rest := match c with Some c => [c] | None => [] end
              ++ separated items ++ closing :: trailing in
  (if token.eqb (Type_ (hd eof rest)) COMMA then tl rest else rest)
  = separated items ++ closing :: trailing.
Proof.
  intros Hc Hitems Hclosing. destruct c as [c|]; cbn [app hd tl].
  - by rewrite Hc.
  - by rewrite (hd_not_comma items es).
Qed.




Lemma parseParametersLoop_done n params closing rest :
  Type_ closing = RPAREN ->
  parseParametersLoop n params (on (closing :: rest))
  = Ok params (on (closing :: rest)).
Proof.
  intros Hclosing. destruct n; cbn [parseParametersLoop];
    unfold bind, currentTokenTypeIs, gets; cbn [currentToken cursorOn hd];
    by rewrite Hclosing.
Qed.

Lemma parseParametersLoop_parameter n params t rest :
  token.eqb (Type_ t) RPAREN = false ->
  token.eqb (Type_ t) EOF = false ->
  parseParametersLoop (S n) params (on (t :: rest))
  = parseParametersLoop n (params ++ [ast.mkIdentifier t (Literal t)])
      (on (if token.eqb (Type_ (hd eof rest)) COMMA then tl rest else rest)).
Proof.
  intros Hparen Heof. cbn [parseParametersLoop].
  unfold bind at 1, currentTokenTypeIs at 1, gets at 1.
  unfold bind at 1, currentTokenTypeIs at 1, gets at 1.
  cbn [currentToken cursorOn hd]. rewrite Hparen, Heof. cbn [negb andb].
  unfold bind at 1, gets at 1. cbn [currentToken cursorOn hd].
  unfold bind at 1. rewrite nextToken_on. cbn [tl].
  unfold bind at 1, currentTokenTypeIs at 1, gets at 1.
  replace (currentToken (on rest)) with (hd eof rest) by by destruct rest.
  destruct (token.eqb (Type_ (hd eof rest)) COMMA).
  - unfold bind at 1 2. by rewrite nextToken_on.
  - by unfold bind at 1, ret at 1.
Qed.

Lemma parseParametersLoop_separated items es : forall n params closing trailing,
  Forall2 (element ParseInt) items es ->
  Type_ closing = RPAREN ->
  (length items <= n)%nat ->
  parseParametersLoop n params (on (separated items ++ closing :: trailing))
  = Ok (params ++ map (fun item => ast.mkIdentifier (fst item) (Literal (fst item))) items)
      (on (closing :: trailing)).
Proof.
  intros n params closing trailing Hitems Hclosing. revert n params.
  induction Hitems as [|[t c] e items es [Ht Hc] Hitems IH]; intros n params Hn.
  - rewrite app_nil_r. by apply parseParametersLoop_done.
  - cbn [separated flat_map fst snd map] in *. fold (separated items) in *.
    rewrite <- !app_assoc. cbn [app] in *.
    destruct n as [|n]; [cbn in Hn; lia|].
    rewrite parseParametersLoop_parameter.
    + rewrite (after_element c items es) by (done || by rewrite Hclosing).
      rewrite IH by (cbn in Hn; lia). by rewrite <- app_assoc.
    + apply (literal_not _ e); [done | cbn; intuition discriminate].
    + apply (literal_not _ e); [done | cbn; intuition discriminate].
Qed.

(** **** The three lists *)






(** *** Hash literals *)

Lemma hd_hashEntries entries kvs closing trailing :
  Forall2 (entry ParseInt) entries kvs ->
  In (Type_ (hd eof (hashEntries entries ++ closing :: trailing)))
    [IDENT; INT; TRUE; FALSE; STRING; Type_ closing].
Proof.
  intros [|[[[k colon] v] c] kv entries' kvs' (Hk & _) _];
    cbn [hashEntries flat_map app hd].
  - cbn. tauto.
  - apply literal_kind in Hk. cbn in *. tauto.
Qed.

Lemma after_entry (c : option Token) entries kvs closing trailing :
  match c with Some c => Type_ c = COMMA | None => True end ->
  Forall2 (entry ParseInt) entries kvs ->
  Type_ closing <> COMMA ->
  let rest := match c with Some c => [c] | None => [] end
              ++ hashEntries entries ++ closing :: trailing in
  In (Type_ (hd eof rest)) [IDENT; INT; TRUE; FALSE; STRING; COMMA; Type_ closing] /\
  (if token.eqb (Type_ (hd eof rest)) COMMA then tl rest else rest)
  = hashEntries entries ++ closing :: trailing.
Proof.
  intros Hc Hentries Hclosing.
  pose proof (hd_hashEntries entries kvs closing trailing Hentries) as Hin.
  destruct c as [c|]; cbn [app hd tl].
  - rewrite Hc. cbn. tauto.
  - split; [cbn in *; tauto|].
    replace (token.eqb _ COMMA) with false; [done|].
    symmetry. apply not_true_is_false. rewrite eqb_eq. intros Heq.
    rewrite Heq in Hin. cbn in Hin. intuition (discriminate || congruence).
Qed.

Lemma parseHashPairs_done pe n pairs closing rest :
  Type_ closing = RBRACE ->
  parseHashPairs tk quoteType pe n pairs (on (closing :: rest))
  = Ok pairs (on (closing :: rest)).
Proof.
  intros Hclosing. destruct n; cbn [parseHashPairs];
    unfold bind, currentTokenTypeIs, gets; cbn [currentToken cursorOn hd];
    by rewrite Hclosing.
Qed.

Lemma parseHashPairs_entry pe n pairs k colon v ek ev rest :
  token.eqb (Type_ k) RBRACE = false ->
  token.eqb (Type_ k) EOF = false ->
  Type_ colon = COLON ->
  pe (LOWEST_PRECEDENCE tk) (on (k :: colon :: v :: rest))
  = Ok ek (on (k :: colon :: v :: rest)) ->
  pe (LOWEST_PRECEDENCE tk) (on (v :: rest)) = Ok ev (on (v :: rest)) ->
  parseHashPairs tk quoteType pe (S n) pairs (on (k :: colon :: v :: rest))
  = parseHashPairs tk quoteType pe n (ast.MapStore pairs ek ev)
      (on (if token.eqb (Type_ (hd eof rest)) COMMA then tl rest else rest)).
Proof.
  intros Hbrace Heof Hcolon Hkey Hvalue. cbn [parseHashPairs].
  unfold bind at 1, currentTokenTypeIs at 1, gets at 1.
  unfold bind at 1, currentTokenTypeIs at 1, gets at 1.
  cbn [currentToken cursorOn hd]. rewrite Hbrace, Heof. cbn [negb andb].
  unfold bind at 1. rewrite Hkey.
  unfold bind at 1. rewrite assertNextTokenType_on by done.
  unfold bind at 1. rewrite nextToken_on. cbn [tl].
  unfold bind at 1. rewrite Hvalue.
  unfold bind at 1. rewrite nextToken_on. cbn [tl].
  unfold bind at 1, currentTokenTypeIs at 1, gets at 1.
  replace (currentToken (on rest)) with (hd eof rest) by by destruct rest.
  destruct (token.eqb (Type_ (hd eof rest)) COMMA).
  - unfold bind at 1 2. by rewrite nextToken_on.
  - by unfold bind at 1, ret at 1.
Qed.

Lemma parseHashPairs_entries m entries kvs : forall n pairs closing trailing,
  plain tk [IDENT; INT; TRUE; FALSE; STRING; COMMA; COLON; RBRACE] ->
  Forall2 (entry ParseInt) entries kvs ->
  Type_ closing = RBRACE ->
  (length entries <= n)%nat ->
  parseHashPairs tk quoteType (PE (S m)) n pairs
    (on (hashEntries entries ++ closing :: trailing))
  = Ok (pairs ++ kvs) (on (closing :: trailing)).
Proof.
  intros n pairs closing trailing Hplain Hentries Hclosing. revert n pairs.
  induction Hentries as [|[[[k colon] v] c] [ek ev] entries kvs (Hk & Hcolon & Hv & Hc) Hentries IH];
    intros n pairs Hn.
  - rewrite app_nil_r. by apply parseHashPairs_done.
  - cbn [hashEntries flat_map fst snd] in *. fold (hashEntries entries) in *.
    rewrite <- !app_assoc. cbn [app] in *.
    destruct n as [|n]; [cbn in Hn; lia|].
    destruct (after_entry c entries kvs closing trailing Hc Hentries) as [Hin Hrest];
      [by rewrite Hclosing|].
    rewrite (parseHashPairs_entry _ _ _ _ _ _ ek ev).
    + rewrite Hrest, IH by (cbn in Hn; lia).
      unfold ast.MapStore. by rewrite <- app_assoc.
    + apply (literal_not _ ek); [done | cbn; intuition discriminate].
    + apply (literal_not _ ek); [done | cbn; intuition discriminate].
    + done.
    + apply (PE_literal_before [IDENT; INT; TRUE; FALSE; STRING; COMMA; COLON; RBRACE]);
        try done; try (cbn; intuition discriminate).
      * intros t Ht. cbn in *. tauto.
      * cbn [hd]. rewrite Hcolon. cbn. tauto.
    + apply (PE_literal_before [IDENT; INT; TRUE; FALSE; STRING; COMMA; COLON; RBRACE]);
        try done; try (cbn; intuition discriminate).
      * intros t Ht. cbn in *. tauto.
      * rewrite Hclosing in Hin. cbn in *. tauto.
Qed.

(** C9, as the code has it: the pairs of a hash literal are stored in a
    map from key node to value node.  For one-token keys and values the
    parse succeeds and the map holds the pairs written, one entry for
    each; it keeps no order: a range over it may visit them in any
    arrangement of the pairs written, and in those only. *)
Theorem hash_literal_entries (fuel : nat)
    (entries : list (Token * Token * Token * option Token))
    (kvs : list (ast.Expression * ast.Expression)) (lb rb : Token) :
  plain tk [IDENT; INT; TRUE; FALSE; STRING; COMMA; COLON; LBRACE; RBRACE; EOF] ->
  Forall2 (entry ParseInt) entries kvs ->
  Type_ lb = LBRACE -> Type_ rb = RBRACE ->
  (length entries + 2 <= fuel)%nat ->
  exists m,
    ParseProgram tk ParseInt quoteType quote fuel
      (New tk (tokenizer eof (lb :: hashEntries entries ++ [rb])))
    = Returns
        (Some (ast.mkProgram
           [ast.ExpressionStatement lb (ast.HashLiteral lb m)]))
        None /\
    forall visit, ast.MapRange m visit <-> Permutation kvs visit.
Proof.
  intros Hplain Hentries Hlb Hrb Hfuel.
  destruct fuel as [|[|n]]; [lia.. |].
  assert (Hsub : forall k, In k [IDENT; INT; TRUE; FALSE; STRING; COMMA; COLON; LBRACE; RBRACE; EOF] ->
            isOperator tk k = false) by (intros k; apply plain_elem, Hplain).
  exists kvs. split; [|done].
  apply (ParseProgram_expression _ _ _ _ rb); try by rewrite Hlb.
  change (PE (S (S n)) (LOWEST_PRECEDENCE tk))
    with (parseExpressionBody tk ParseInt quoteType quote (PE (S n)) (S n)
            (LOWEST_PRECEDENCE tk)).
  unfold parseExpressionBody, bind at 1 2, gets.
  cbn [currentToken prefixFns cursorOn hd].
  rewrite Hlb, prefixFns_plain by (apply Hsub; cbn; tauto).
  unfold bind at 1. cbn [callPrefix].
  unfold parseHashLiteral, bind at 1, gets at 1. cbn [currentToken cursorOn hd].
  unfold bind at 1. rewrite assertCurrentTokenType_on by done.
  unfold bind at 1, peekTokenTypeIs at 1, gets at 1.
  assert (Hpeek : token.eqb (Type_ (peekToken (on (hashEntries entries ++ [rb])))) RBRACE = false).
  { destruct Hentries as [|[[[k colon] v] c] kv entries kvs (_ & Hcolon & _) _].
    - cbn. by rewrite eof_type.
    - cbn [hashEntries flat_map app peekToken cursorOn tl hd]. by rewrite Hcolon. }
  rewrite Hpeek. unfold bind at 1.
  rewrite (parseHashPairs_entries n entries kvs) by
    (done || lia || (unfold plain; cbn [forallb]; rewrite !Hsub by (cbn; tauto); done)).
  cbn [app]. unfold bind at 1, currentTokenTypeIs at 1, gets at 1.
  cbn [currentToken cursorOn hd]. rewrite Hrb. cbn [token.eqb negb ret].
  apply loop_end. apply Hsub. cbn; tauto.
Qed.

(** *** More of the rules *)

Lemma neq_eqb (a b : TokenType) : a <> b -> token.eqb a b = false.
Proof. intros Hab. apply not_true_is_false. by rewrite eqb_eq. Qed.

(** The first statement of a program stops with a [ParserError]:
    [ParseProgram] returns it, and no program. *)
Lemma ParseProgram_statement_fault fuel t rest e :
  Type_ t <> EOF ->
  parseStatement tk quoteType (PE (S fuel)) (on (t :: rest))
  = Panic (PanicError (ParserErr e)) ->
  ParseProgram tk ParseInt quoteType quote (S fuel)
    (New tk (tokenizer eof (t :: rest)))
  = Returns None (Some (ParserErr e)).
Proof.
  intros Heof Hparse. unfold ParseProgram.
  rewrite parseProgramBody_New.
  cbn [parseProgramStatements]. unfold bind at 1, currentTokenTypeIs at 1, gets at 1.
  cbn [currentToken cursorOn hd]. rewrite neq_eqb by done.
  cbn [negb]. unfold bind at 1. by rewrite Hparse.
Qed.


(** X7: a bracketed literal around one token.  [parseArrayLiteral] moves
    onto the token after the opening bracket and then tests the peek token
    for the closing bracket: when the literal holds a single token,
    whatever it is, the test succeeds and the literal is returned with no
    element, the token unread.  [parseHashLiteral] does the same with
    braces. *)
Theorem single_token_dropped (fuel : nat) (opening x closing : Token) :
  (1 <= fuel)%nat ->
  plain tk [LBRACKET; LBRACE; EOF] ->
  (Type_ opening = LBRACKET -> Type_ closing = RBRACKET ->
   ParseProgram tk ParseInt quoteType quote fuel
     (New tk (tokenizer eof [opening; x; closing]))
   = Returns
       (Some (ast.mkProgram
          [ast.ExpressionStatement opening (ast.ArrayLiteral opening [])]))
       None) /\
  (Type_ opening = LBRACE -> Type_ closing = RBRACE ->
   ParseProgram tk ParseInt quoteType quote fuel
     (New tk (tokenizer eof [opening; x; closing]))
   = Returns
       (Some (ast.mkProgram
          [ast.ExpressionStatement opening (ast.HashLiteral opening [])]))
       None).
Proof.
  intros Hfuel Hplain. destruct fuel as [|fuel]; [lia|].
  assert (Hsub : forall k, In k [LBRACKET; LBRACE; EOF] -> isOperator tk k = false)
    by (intros k; apply plain_elem, Hplain).
  split; intros Hopening Hclosing;
    apply (ParseProgram_expression _ _ _ _ closing); try (by rewrite Hopening);
    change (PE (S fuel) (LOWEST_PRECEDENCE tk))
      with (parseExpressionBody tk ParseInt quoteType quote (PE fuel) fuel
              (LOWEST_PRECEDENCE tk));
    unfold parseExpressionBody, bind at 1 2, gets;
    cbn [currentToken prefixFns cursorOn hd];
    rewrite Hopening, prefixFns_plain by (apply Hsub; cbn; tauto);
    unfold bind at 1; cbn [callPrefix].
  - unfold parseArrayLiteral, bind at 1, gets at 1. cbn [currentToken cursorOn hd].
    unfold bind at 1. rewrite assertCurrentTokenType_on by done.
    unfold bind at 1, peekTokenTypeIs at 1, gets at 1.
    cbn [peekToken cursorOn hd tl]. rewrite Hclosing. cbn [token.eqb].
    unfold bind at 1. rewrite nextToken_on. cbn [tl ret].
    apply loop_end. apply Hsub. cbn; tauto.
  - unfold parseHashLiteral, bind at 1, gets at 1. cbn [currentToken cursorOn hd].
    unfold bind at 1. rewrite assertCurrentTokenType_on by done.
    unfold bind at 1, peekTokenTypeIs at 1, gets at 1.
    cbn [peekToken cursorOn hd tl]. rewrite Hclosing. cbn [token.eqb].
    unfold bind at 1. rewrite nextToken_on. cbn [tl ret].
    apply loop_end. apply Hsub. cbn; tauto.
Qed.

(** **** Return statements *)

Lemma literal_plain kinds t e :
  plain tk kinds -> incl [IDENT; INT; TRUE; FALSE; STRING] kinds ->
  literal ParseInt t = Some e ->
  isOperator tk (Type_ t) = false /\
  Type_ t <> LET /\ Type_ t <> RETURN /\ Type_ t <> EOF.
Proof.
  intros Hplain Hincl Ht. split.
  - apply (plain_elem tk _ _ Hplain), Hincl. by eapply literal_kind.
  - unfold literal in Ht. by destruct (Type_ t).
Qed.

Lemma parseReturnStatement_value pe retToken rest :
  Type_ (hd eof rest) <> SEMICOLON ->
  parseReturnStatement tk pe (on (retToken :: rest))
  = match pe (LOWEST_PRECEDENCE tk) (on rest) with
    | Ok express p =>
        match skipSemicolon p with
        | Ok _ p1 => Ok (ast.ReturnStatement retToken (Some express)) p1
        | Panic v => Panic v
        | Stuck => Stuck
        end
    | Panic v => Panic v
    | Stuck => Stuck
    end.
Proof.
  intros Hsemi. unfold parseReturnStatement, bind at 1, gets at 1.
  cbn [currentToken cursorOn hd].
  unfold bind at 1, nextTokenTypeIs at 1, gets at 1.
  cbn [peekToken cursorOn hd tl]. rewrite neq_eqb by done. cbn [negb].
  unfold bind at 1 2. rewrite nextToken_on. cbn [tl].
  unfold bind at 1. destruct (pe _ _) as [express p| |]; [|done..].
  unfold ret at 1. unfold bind. by destruct (skipSemicolon p).
Qed.

Lemma parseReturnStatement_bare pe retToken semi rest :
  Type_ semi = SEMICOLON ->
  parseReturnStatement tk pe (on (retToken :: semi :: rest))
  = Ok (ast.ReturnStatement retToken None) (on (semi :: rest)).
Proof.
  intros Hsemi. unfold parseReturnStatement, bind at 1, gets at 1.
  cbn [currentToken cursorOn hd].
  unfold bind at 1, nextTokenTypeIs at 1, gets at 1.
  cbn [peekToken cursorOn hd tl]. rewrite Hsemi. cbn [token.eqb negb].
  unfold bind at 1, ret at 1. unfold bind at 1.
  by rewrite skipSemicolon_semicolon.
Qed.

Lemma parseStatement_return pe t rest :
  Type_ t = RETURN ->
  parseStatement tk quoteType pe (on (t :: rest))
  = parseReturnStatement tk pe (on (t :: rest)).
Proof.
  intros Ht. unfold parseStatement, bind at 1, gets at 1.
  cbn [currentToken cursorOn hd]. by rewrite Ht.
Qed.

(** The end of input begins no expression. *)
Lemma PE_end n precedence :
  isOperator tk EOF = false ->
  PE (S n) precedence (on [])
  = Panic (PanicError (ParserErr
      {| errorToken := eof;
         msg := "can not parse token type " +:+ quoteType EOF;
         pos := zeroPosition |})).
Proof.
  intros Heof.
  change (PE (S n) precedence)
    with (parseExpressionBody tk ParseInt quoteType quote (PE n) n precedence).
  unfold parseExpressionBody, bind at 1 2, gets.
  cbn [currentToken prefixFns cursorOn hd].
  rewrite eof_type, prefixFns_plain by done. done.
Qed.

(** X8: the three shapes of a return statement.  [return;] has no value:
    the field [Value] stays [nil].  [return e] and [return e;], for an
    expression [e] that [parseExpression] reads up to the end or up to the
    semicolon, have the value [e].  A [return] that ends the input is a
    fault: the parser moves onto the end of input and asks for an
    expression there, and [ParseProgram] returns the error that carries the
    end-of-input token. *)
Theorem return_statement (fuel : nat) (retToken : Token) :
  Type_ retToken = RETURN ->
  isOperator tk EOF = false ->
  (forall semi,
     Type_ semi = SEMICOLON ->
     ParseProgram tk ParseInt quoteType quote (S fuel)
       (New tk (tokenizer eof [retToken; semi]))
     = Returns (Some (ast.mkProgram [ast.ReturnStatement retToken None])) None) /\
  (forall rest e last trailing,
     Type_ (hd eof rest) <> SEMICOLON ->
     PE (S fuel) (LOWEST_PRECEDENCE tk) (on rest) = Ok e (on (last :: trailing)) ->
     trailing = [] \/ (exists semi, trailing = [semi] /\ Type_ semi = SEMICOLON) ->
     ParseProgram tk ParseInt quoteType quote (S fuel)
       (New tk (tokenizer eof (retToken :: rest)))
     = Returns (Some (ast.mkProgram [ast.ReturnStatement retToken (Some e)])) None) /\
  ParseProgram tk ParseInt quoteType quote (S fuel)
    (New tk (tokenizer eof [retToken]))
  = Returns None
      (Some (ParserErr
         {| errorToken := eof;
            msg := "can not parse token type " +:+ quoteType EOF;
            pos := zeroPosition |})).
Proof.
  intros Hret Heof. split_and!.
  - intros semi Hsemi.
    apply (ParseProgram_statement _ _ _ _ semi); [by rewrite Hret|].
    rewrite parseStatement_return by done. by apply parseReturnStatement_bare.
  - intros rest e last trailing Hfirst Hparse Htrailing.
    destruct Htrailing as [-> | (semi & -> & Hsemi)].
    + apply (ParseProgram_statement _ _ _ _ last); [by rewrite Hret|].
      rewrite parseStatement_return, parseReturnStatement_value by done.
      by rewrite Hparse, skipSemicolon_last.
    + apply (ParseProgram_statement _ _ _ _ semi); [by rewrite Hret|].
      rewrite parseStatement_return, parseReturnStatement_value by done.
      by rewrite Hparse, skipSemicolon_semicolon.
  - apply ParseProgram_statement_fault; [by rewrite Hret|].
    rewrite parseStatement_return by done.
    rewrite parseReturnStatement_value by (cbn [hd]; by rewrite eof_type).
    by rewrite PE_end.
Qed.

(** **** Grouped expressions *)

(** The loop of [parseExpression] before a token that continues no
    expression. *)
Lemma loop_closing pe n precedence left t next rest :
  isOperator tk (Type_ next) = false ->
  Type_ next <> LPAREN -> Type_ next <> LBRACKET ->
  parseExpressionLoop tk quoteType pe n precedence left (on (t :: next :: rest))
  = Ok left (on (t :: next :: rest)).
Proof.
  intros Hplain Hparen Hbracket. apply loop_no_rule.
  cbn [infixFns peekToken cursorOn tl hd]. rewrite infixFns_plain by done.
  by destruct (Type_ next).
Qed.

Lemma assertNextTokenType_fault expect t rest :
  Type_ (hd eof rest) <> expect ->
  assertNextTokenType quoteType expect (on (t :: rest))
  = Panic (PanicError (ParserErr
      {| errorToken := hd eof rest;
         msg := expected quoteType expect (Type_ (hd eof rest));
         pos := zeroPosition |})).
Proof.
  intros Hother. unfold assertNextTokenType, bind at 1, gets.
  cbn [peekToken cursorOn hd tl]. unfold assertTokenType.
  by rewrite neq_eqb.
Qed.

Lemma parseGroupedExpression_on pe lp rest :
  Type_ lp = LPAREN ->
  parseGroupedExpression tk quoteType pe (on (lp :: rest))
  = match pe (LOWEST_PRECEDENCE tk) (on rest) with
    | Ok expression p =>
        match assertNextTokenType quoteType RPAREN p with
        | Ok _ p1 => Ok expression p1
        | Panic v => Panic v
        | Stuck => Stuck
        end
    | Panic v => Panic v
    | Stuck => Stuck
    end.
Proof.
  intros Hlp. unfold parseGroupedExpression, bind at 1.
  rewrite assertCurrentTokenType_on by done.
  unfold bind at 1. destruct (pe _ _) as [expression p| |]; [|done..].
  unfold bind. by destruct (assertNextTokenType quoteType RPAREN p).
Qed.

Lemma PE_group n precedence lp rest :
  isOperator tk LPAREN = false -> Type_ lp = LPAREN ->
  PE (S n) precedence (on (lp :: rest))
  = match PE n (LOWEST_PRECEDENCE tk) (on rest) with
    | Ok expression p =>
        match assertNextTokenType quoteType RPAREN p with
        | Ok _ p1 =>
            parseExpressionLoop tk quoteType (PE n) n precedence expression p1
        | Panic v => Panic v
        | Stuck => Stuck
        end
    | Panic v => Panic v
    | Stuck => Stuck
    end.
Proof.
  intros Hplain Hlp.
  change (PE (S n) precedence)
    with (parseExpressionBody tk ParseInt quoteType quote (PE n) n precedence).
  unfold parseExpressionBody, bind at 1 2, gets.
  cbn [currentToken prefixFns cursorOn hd].
  rewrite Hlp, prefixFns_plain by done.
  unfold bind at 1. cbn [callPrefix]. rewrite parseGroupedExpression_on by done.
  destruct (PE n _ _) as [expression p| |]; [|done..].
  by destruct (assertNextTokenType quoteType RPAREN p).
Qed.

(** X9: parentheses group, and leave no node.  Whatever the levels of the
    two binary operators, [a o1 (b o2 c)] is read with [o1] at the root and
    the tree of [b o2 c] as its right operand, and [(a o1 b) o2 c] with
    [o2] at the root and the tree of [a o1 b] as its left operand: the
    result of [parseGroupedExpression] is the expression between the
    parentheses itself.  A group that the input ends before closing is a
    fault: [ParseProgram] returns the error that wants [)] and carries the
    end-of-input token. *)
Theorem parentheses_group (fuel : nat) (a o1 b o2 c lp rp : Token)
    (ea eb ec : ast.Expression) :
  plain tk [IDENT; INT; TRUE; FALSE; STRING; LPAREN; RPAREN; LET; RETURN; EOF] ->
  (4 <= fuel)%nat ->
  literal ParseInt a = Some ea ->
  literal ParseInt b = Some eb ->
  literal ParseInt c = Some ec ->
  binaryOperator tk o1 -> binaryOperator tk o2 ->
  LOWEST_PRECEDENCE tk < Precedence tk o1 ->
  LOWEST_PRECEDENCE tk < Precedence tk o2 ->
  Type_ lp = LPAREN -> Type_ rp = RPAREN ->
  ParseProgram tk ParseInt quoteType quote fuel
    (New tk (tokenizer eof [a; o1; lp; b; o2; c; rp]))
  = Returns
      (Some (ast.mkProgram [ast.ExpressionStatement a
         (ast.InfixExpression o1 ea (Literal o1)
            (ast.InfixExpression o2 eb (Literal o2) ec))]))
      None /\
  ParseProgram tk ParseInt quoteType quote fuel
    (New tk (tokenizer eof [lp; a; o1; b; rp; o2; c]))
  = Returns
      (Some (ast.mkProgram [ast.ExpressionStatement lp
         (ast.InfixExpression o2
            (ast.InfixExpression o1 ea (Literal o1) eb) (Literal o2) ec)]))
      None /\
  ParseProgram tk ParseInt quoteType quote fuel
    (New tk (tokenizer eof [lp; a; o1; b]))
  = Returns None
      (Some (ParserErr
         {| errorToken := eof;
            msg := expected quoteType RPAREN EOF;
            pos := zeroPosition |})).
Proof.
  intros Hplain Hfuel Ha Hb Hc Ho1 Ho2 Hlow1 Hlow2 Hlp Hrp.
  destruct fuel as [|[|[|[|n]]]]; [lia.. |]. clear Hfuel.
  assert (Hsub : forall k,
            In k [IDENT; INT; TRUE; FALSE; STRING; LPAREN; RPAREN; LET; RETURN; EOF] ->
            isOperator tk k = false) by (intros k; apply plain_elem, Hplain).
  assert (Hlit : forall t e, literal ParseInt t = Some e ->
            isOperator tk (Type_ t) = false /\
            Type_ t <> LET /\ Type_ t <> RETURN /\ Type_ t <> EOF).
  { intros t e. apply (literal_plain _ _ _ Hplain).
    intros k Hk. cbn in *. tauto. }
  destruct (Hlit a ea Ha) as (Hpa & Hla & Hra & Hea).
  destruct (Hlit b eb Hb) as (Hpb & _). destruct (Hlit c ec Hc) as (Hpc & _).
  assert (Heof : isOperator tk EOF = false) by (apply Hsub; cbn; tauto).
  assert (Hparen : isOperator tk LPAREN = false) by (apply Hsub; cbn; tauto).
  assert (Hclose : isOperator tk (Type_ rp) = false)
    by (rewrite Hrp; apply Hsub; cbn; tauto).
  split_and!.
  - apply (ParseProgram_expression _ _ _ _ rp); try done.
    rewrite (PE_literal _ _ a ea) by done.
    rewrite (loop_rule _ _ _ _ _ parseInfixFn);
      [| apply Ho1 | by apply Z.ltb_lt | by apply infixFns_binaryOperator].
    rewrite nextToken_on. cbn [tl callInfix]. rewrite parseInfix_on.
    rewrite PE_group by done.
    rewrite (PE_literal _ _ b eb) by done.
    rewrite (loop_rule _ _ _ _ _ parseInfixFn);
      [| apply Ho2 | by apply Z.ltb_lt | by apply infixFns_binaryOperator].
    rewrite nextToken_on. cbn [tl callInfix]. rewrite parseInfix_on.
    rewrite (PE_literal _ _ c ec) by done.
    rewrite !loop_closing by (done || by rewrite Hrp).
    rewrite assertNextTokenType_on by done.
    by rewrite !loop_end.
  - apply (ParseProgram_expression _ _ _ _ c); try (by rewrite Hlp).
    rewrite PE_group by done.
    rewrite (PE_literal _ _ a ea) by done.
    rewrite (loop_rule _ _ _ _ _ parseInfixFn);
      [| apply Ho1 | by apply Z.ltb_lt | by apply infixFns_binaryOperator].
    rewrite nextToken_on. cbn [tl callInfix]. rewrite parseInfix_on.
    rewrite (PE_literal _ _ b eb) by done.
    rewrite !loop_closing by (done || by rewrite Hrp).
    rewrite assertNextTokenType_on by done.
    rewrite (loop_rule _ _ _ _ _ parseInfixFn);
      [| apply Ho2 | by apply Z.ltb_lt | by apply infixFns_binaryOperator].
    rewrite nextToken_on. cbn [tl callInfix]. rewrite parseInfix_on.
    rewrite (PE_literal _ _ c ec) by done.
    by rewrite !loop_end.
  - apply ParseProgram_statement_fault; [by rewrite Hlp|].
    rewrite parseStatement_expression by (by rewrite Hlp).
    rewrite PE_group by done.
    rewrite (PE_literal _ _ a ea) by done.
    rewrite (loop_rule _ _ _ _ _ parseInfixFn);
      [| apply Ho1 | by apply Z.ltb_lt | by apply infixFns_binaryOperator].
    rewrite nextToken_on. cbn [tl callInfix]. rewrite parseInfix_on.
    rewrite (PE_literal _ _ b eb) by done.
    rewrite !loop_end by done.
    rewrite assertNextTokenType_fault by (cbn [hd]; by rewrite eof_type).
    cbn [hd]. by rewrite eof_type.
Qed.

(** **** Index expressions *)

Lemma parseIndexExpression_on pe ex lb rest :
  Type_ lb = LBRACKET ->
  parseIndexExpression tk quoteType pe ex (on (lb :: rest))
  = match pe (LOWEST_PRECEDENCE tk) (on rest) with
    | Ok index p =>
        match assertNextTokenType quoteType RBRACKET p with
        | Ok _ p1 => Ok (ast.InfixExpression lb ex (Literal lb) index) p1
        | Panic v => Panic v
        | Stuck => Stuck
        end
    | Panic v => Panic v
    | Stuck => Stuck
    end.
Proof.
  intros Hlb. unfold parseIndexExpression, bind at 1, gets at 1.
  cbn [currentToken cursorOn hd].
  unfold bind at 1. rewrite assertCurrentTokenType_on by done.
  unfold bind at 1. destruct (pe _ _) as [index p| |]; [|done..].
  unfold bind. by destruct (assertNextTokenType quoteType RBRACKET p).
Qed.

(** X10: an index expression is an infix node.  [a[i]] is read by
    [parseIndexExpression] as the [InfixExpression] whose token and
    operator are the opening bracket, whose left operand is [a] and whose
    right operand is the index; there is no node of its own for it.  When
    the input ends before the closing bracket, [ParseProgram] returns the
    error that wants [[]]] and carries the end-of-input token. *)
Theorem index_expression (fuel : nat) (a lb i rb : Token) (ea ei : ast.Expression) :
  plain tk [IDENT; INT; TRUE; FALSE; STRING; LBRACKET; RBRACKET; LET; RETURN; EOF] ->
  (2 <= fuel)%nat ->
  literal ParseInt a = Some ea ->
  literal ParseInt i = Some ei ->
  Type_ lb = LBRACKET -> Type_ rb = RBRACKET ->
  LOWEST_PRECEDENCE tk < Precedence tk lb ->
  ParseProgram tk ParseInt quoteType quote fuel
    (New tk (tokenizer eof [a; lb; i; rb]))
  = Returns
      (Some (ast.mkProgram [ast.ExpressionStatement a
         (ast.InfixExpression lb ea (Literal lb) ei)]))
      None /\
  ParseProgram tk ParseInt quoteType quote fuel
    (New tk (tokenizer eof [a; lb; i]))
  = Returns None
      (Some (ParserErr
         {| errorToken := eof;
            msg := expected quoteType RBRACKET EOF;
            pos := zeroPosition |})).
Proof.
  intros Hplain Hfuel Ha Hi Hlb Hrb Hlow.
  destruct fuel as [|[|n]]; [lia.. |]. clear Hfuel.
  assert (Hsub : forall k,
            In k [IDENT; INT; TRUE; FALSE; STRING; LBRACKET; RBRACKET; LET; RETURN; EOF] ->
            isOperator tk k = false) by (intros k; apply plain_elem, Hplain).
  assert (Hlit : forall t e, literal ParseInt t = Some e ->
            isOperator tk (Type_ t) = false /\
            Type_ t <> LET /\ Type_ t <> RETURN /\ Type_ t <> EOF).
  { intros t e. apply (literal_plain _ _ _ Hplain).
    intros k Hk. cbn in *. tauto. }
  destruct (Hlit a ea Ha) as (Hpa & Hla & Hra & Hea).
  destruct (Hlit i ei Hi) as (Hpi & _).
  assert (Heof : isOperator tk EOF = false) by (apply Hsub; cbn; tauto).
  assert (Hrule : forall rest,
            infixFns (on (a :: lb :: rest)) (Type_ (peekToken (on (a :: lb :: rest))))
            = Some parseIndexExpressionFn).
  { intros rest. cbn [infixFns peekToken cursorOn tl hd].
    rewrite Hlb, infixFns_plain; [done | apply Hsub; cbn; tauto]. }
  split.
  - apply (ParseProgram_expression _ _ _ _ rb); try done.
    rewrite (PE_literal _ _ a ea) by done.
    rewrite (loop_rule _ _ _ _ _ parseIndexExpressionFn);
      [| cbn [peekToken cursorOn tl hd]; by rewrite Hlb
       | by apply Z.ltb_lt | apply Hrule].
    rewrite nextToken_on. cbn [tl callInfix].
    rewrite parseIndexExpression_on by done.
    rewrite (PE_literal _ _ i ei) by done.
    rewrite loop_closing by (rewrite Hrb; (apply Hsub; cbn; tauto) || done).
    rewrite assertNextTokenType_on by done.
    by rewrite !loop_end.
  - apply ParseProgram_statement_fault; [done|].
    rewrite parseStatement_expression by done.
    rewrite (PE_literal _ _ a ea) by done.
    rewrite (loop_rule _ _ _ _ _ parseIndexExpressionFn);
      [| cbn [peekToken cursorOn tl hd]; by rewrite Hlb
       | by apply Z.ltb_lt | apply Hrule].
    rewrite nextToken_on. cbn [tl callInfix].
    rewrite parseIndexExpression_on by done.
    rewrite (PE_literal _ _ i ei) by done.
    rewrite loop_end by done.
    rewrite assertNextTokenType_fault by (cbn [hd]; by rewrite eof_type).
    cbn [hd]. by rewrite eof_type.
Qed.

(** **** Postfix operators *)

Lemma infixFns_postfixOperator (t : Token) :
  postfixOperator tk t -> registeredInfixFns tk (Type_ t) = Some parsePostfixFn.
Proof. intros [Hp _]. by apply register_infix_inside. Qed.

Lemma loop_postfix pe ps : forall n left cur,
  isOperator tk EOF = false ->
  Forall (fun p => postfixOperator tk p /\
                   LOWEST_PRECEDENCE tk < Precedence tk p) ps ->
  (length ps <= n)%nat ->
  exists last,
    parseExpressionLoop tk quoteType pe n (LOWEST_PRECEDENCE tk) left
      (on (cur :: ps))
    = Ok (fold_left (fun e p => ast.PostfixExpression p e (Literal p)) ps left)
         (on [last]).
Proof.
  induction ps as [|p ps IH]; intros n left cur Heof Hps Hn.
  - exists cur. by apply loop_end.
  - apply Forall_cons in Hps as [[Hp Hlow] Hps].
    destruct n as [|n]; [cbn in Hn; lia|].
    rewrite (loop_rule _ _ _ _ _ parsePostfixFn);
      [| apply Hp | by apply Z.ltb_lt | by apply infixFns_postfixOperator].
    rewrite nextToken_on. cbn [tl callInfix].
    unfold parsePostfix, bind at 1, gets at 1. cbn [currentToken cursorOn hd ret].
    cbn [fold_left]. apply IH; try done. cbn in Hn. lia.
Qed.

(** X11: postfix operators.  After a one-token operand, every postfix
    operator above the lowest level wraps what was read so far in a
    [PostfixExpression]: [a p1 ... pk] is the tree with [pk] at the root
    and [a] innermost.  [parsePostfix] reads no further token, so any
    number of them may follow one another. *)
Theorem postfix_operators (fuel : nat) (a : Token) (ea : ast.Expression)
    (ps : list Token) :
  plain tk [IDENT; INT; TRUE; FALSE; STRING; LET; RETURN; EOF] ->
  literal ParseInt a = Some ea ->
  Forall (fun p => postfixOperator tk p /\
                   LOWEST_PRECEDENCE tk < Precedence tk p) ps ->
  (length ps < fuel)%nat ->
  ParseProgram tk ParseInt quoteType quote fuel
    (New tk (tokenizer eof (a :: ps)))
  = Returns
      (Some (ast.mkProgram [ast.ExpressionStatement a
         (fold_left (fun e p => ast.PostfixExpression p e (Literal p)) ps ea)]))
      None.
Proof.
  intros Hplain Ha Hps Hfuel. destruct fuel as [|n]; [lia|].
  assert (Heof : isOperator tk EOF = false)
    by (apply (plain_elem tk _ _ Hplain); cbn; tauto).
  destruct (literal_plain _ a ea Hplain) as (Hpa & Hla & Hra & Hea);
    [intros k Hk; cbn in *; tauto | done |].
  destruct (loop_postfix (PE n) ps n ea a Heof Hps ltac:(lia)) as [last Hloop].
  apply (ParseProgram_expression _ _ _ _ last); try done.
  by rewrite (PE_literal _ _ a ea).
Qed.

(** **** Prefix operators *)

Lemma PE_prefixes ms : forall n precedence a ea,
  isOperator tk EOF = false ->
  isOperator tk (Type_ a) = false ->
  Forall (prefixOperator tk) ms ->
  literal ParseInt a = Some ea ->
  (length ms <= n)%nat ->
  PE (S n) precedence (on (ms ++ [a]))
  = Ok (fold_right (fun m e => ast.PrefixExpression m (Literal m) e) ea ms)
       (on [a]).
Proof.
  induction ms as [|m ms IH]; intros n precedence a ea Heof Hpa Hms Ha Hn.
  - cbn [app fold_right]. rewrite (PE_literal _ _ a ea) by done. by apply loop_end.
  - apply Forall_cons in Hms as [Hm Hms].
    destruct n as [|n]; [cbn in Hn; lia|].
    cbn [app fold_right]. rewrite PE_prefix by done.
    rewrite (IH n (Precedence tk m) a ea) by (done || (cbn in Hn; lia)).
    by apply loop_end.
Qed.

(** X12: prefix operators.  Prefix operators before a one-token operand
    nest to the right: [m1 ... mk a] is the tree with [m1] at the root and
    [a] innermost.  And the operand of a prefix operator is read at the
    level of that operator: when a binary operator binds tighter than the
    prefix operator, [m a o b] is the prefix expression of [a o b]. *)
Theorem prefix_operators (fuel : nat) :
  plain tk [IDENT; INT; TRUE; FALSE; STRING; LET; RETURN; EOF] ->
  (forall ms a ea,
     Forall (prefixOperator tk) ms ->
     literal ParseInt a = Some ea ->
     (length ms < fuel)%nat ->
     ParseProgram tk ParseInt quoteType quote fuel
       (New tk (tokenizer eof (ms ++ [a])))
     = Returns
         (Some (ast.mkProgram [ast.ExpressionStatement (hd a ms)
            (fold_right (fun m e => ast.PrefixExpression m (Literal m) e) ea ms)]))
         None) /\
  (forall m a o b ea eb,
     prefixOperator tk m -> binaryOperator tk o ->
     literal ParseInt a = Some ea ->
     literal ParseInt b = Some eb ->
     Precedence tk m < Precedence tk o ->
     (3 <= fuel)%nat ->
     ParseProgram tk ParseInt quoteType quote fuel
       (New tk (tokenizer eof [m; a; o; b]))
     = Returns
         (Some (ast.mkProgram [ast.ExpressionStatement m
            (ast.PrefixExpression m (Literal m)
               (ast.InfixExpression o ea (Literal o) eb))]))
         None).
Proof.
  intros Hplain.
  assert (Heof : isOperator tk EOF = false)
    by (apply (plain_elem tk _ _ Hplain); cbn; tauto).
  assert (Hlit : forall t e, literal ParseInt t = Some e ->
            isOperator tk (Type_ t) = false /\
            Type_ t <> LET /\ Type_ t <> RETURN /\ Type_ t <> EOF).
  { intros t e. apply (literal_plain _ _ _ Hplain).
    intros k Hk. cbn in *. tauto. }
  assert (Hkind : forall m k, prefixOperator tk m ->
            In k [IDENT; INT; TRUE; FALSE; STRING; LET; RETURN; EOF] ->
            Type_ m <> k).
  { intros m k Hm Hk <-. apply (plain_elem tk _ _ Hplain) in Hk.
    apply isOperator_false in Hk as (Hk & _).
    unfold prefixOperator in Hm. congruence. }
  split.
  - intros ms a ea Hms Ha Hfuel. destruct fuel as [|n]; [lia|].
    destruct (Hlit a ea Ha) as (Hpa & Hla & Hra & Hea).
    assert (Hfirst : Type_ (hd a ms) <> LET /\ Type_ (hd a ms) <> RETURN /\
                     Type_ (hd a ms) <> EOF).
    { destruct Hms as [|m ms Hm Hms]; cbn [hd]; [done|].
      split_and!; apply Hkind; (done || cbn; tauto). }
    destruct Hfirst as (Hl & Hr & He).
    pose proof (PE_prefixes ms n (LOWEST_PRECEDENCE tk) a ea Heof Hpa Hms Ha
                  ltac:(lia)) as Hparse.
    destruct ms as [|m ms]; cbn [hd app] in *;
      by apply (ParseProgram_expression _ _ _ _ a).
  - intros m a o b ea eb Hm Ho Ha Hb Hbind Hfuel.
    destruct fuel as [|[|[|n]]]; [lia.. |].
    destruct (Hlit a ea Ha) as (Hpa & _). destruct (Hlit b eb Hb) as (Hpb & _).
    apply (ParseProgram_expression _ _ _ _ b);
      try (apply Hkind; (done || cbn; tauto)).
    rewrite PE_prefix by done.
    rewrite (PE_literal _ _ a ea) by done.
    rewrite (loop_rule _ _ _ _ _ parseInfixFn);
      [| apply Ho | by apply Z.ltb_lt | by apply infixFns_binaryOperator].
    rewrite nextToken_on. cbn [tl callInfix]. rewrite parseInfix_on.
    rewrite (PE_literal _ _ b eb) by done.
    by rewrite !loop_end.
Qed.

(** **** Sequences of statements *)

Lemma loop_semicolon pe n precedence left p :
  token.eqb (Type_ (peekToken p)) SEMICOLON = true ->
  parseExpressionLoop tk quoteType pe n precedence left p = Ok left p.
Proof.
  intros Hsemi. destruct n; cbn; unfold bind, gets; cbn; by rewrite Hsemi.
Qed.

Lemma skipSemicolon_other t rest :
  Type_ (hd eof rest) <> SEMICOLON ->
  skipSemicolon (on (t :: rest)) = Ok tt (on (t :: rest)).
Proof.
  intros Hother. unfold skipSemicolon, bind, peekTokenTypeIs, gets.
  cbn [peekToken cursorOn hd tl]. by rewrite neq_eqb.
Qed.

Lemma hd_statements items statements trailing :
  Forall2 (statementOf ParseInt) items statements ->
  In (Type_ (hd eof (separated items ++ trailing)))
    [IDENT; INT; TRUE; FALSE; STRING; Type_ (hd eof trailing)].
Proof.
  intros [|[t c] s items' statements' [(e & Ht & _) _] _];
    cbn [separated flat_map app hd fst].
  - cbn. tauto.
  - apply literal_kind in Ht. cbn in *. tauto.
Qed.

(** One statement of a sequence, and the [nextToken] of the loop that
    reads the sequence. *)
Lemma parseStatement_item m item statement items statements trailing :
  plain tk [IDENT; INT; TRUE; FALSE; STRING; Type_ (hd eof trailing)] ->
  In (Type_ (hd eof trailing)) [RBRACE; EOF] ->
  statementOf ParseInt item statement ->
  Forall2 (statementOf ParseInt) items statements ->
  exists p,
    parseStatement tk quoteType (PE (S m))
      (on (separated (item :: items) ++ trailing))
    = Ok statement p /\
    nextToken p
    = Ok (hd eof (separated items ++ trailing)) (on (separated items ++ trailing)).
Proof.
  intros Hplain Hclosing [(e & Ht & ->) Hc] Hitems. destruct item as [t c].
  cbn [fst snd] in *. cbn [separated flat_map fst snd]. fold (separated items).
  rewrite <- !app_assoc. cbn [app].
  destruct (literal_plain _ t e Hplain) as (Hpt & Hlt & Hrt & Het);
    [intros k Hk; cbn in *; tauto | done |].
  rewrite parseStatement_expression by done.
  destruct c as [semi|]; cbn [app].
  - rewrite (PE_literal _ _ t e) by done.
    rewrite loop_semicolon
      by (cbn [peekToken cursorOn hd tl]; rewrite Hc; apply eqb_refl).
    rewrite skipSemicolon_semicolon by done.
    eexists. split; [done|]. by rewrite nextToken_on.
  - pose proof (hd_statements items statements trailing Hitems) as Hnext.
    assert (Hkind : forall k, ~ In k [IDENT; INT; TRUE; FALSE; STRING; RBRACE; EOF] ->
              Type_ (hd eof (separated items ++ trailing)) <> k).
    { intros k Hk Heq. apply Hk. rewrite <- Heq.
      cbn in Hnext, Hclosing |- *.
      destruct Hclosing as [Hc1|[Hc1|[]]]; rewrite <- Hc1 in Hnext; tauto. }
    rewrite (PE_literal_end _ _ t e) by
      (done || (by apply (plain_elem tk _ _ Hplain))
       || (apply Hkind; cbn; intuition discriminate)).
    rewrite skipSemicolon_other by (apply Hkind; cbn; intuition discriminate).
    eexists. split; [done|]. by rewrite nextToken_on.
Qed.

Lemma parseProgramStatements_items m items statements : forall n acc,
  plain tk [IDENT; INT; TRUE; FALSE; STRING; EOF] ->
  Forall2 (statementOf ParseInt) items statements ->
  (length items <= n)%nat ->
  parseProgramStatements tk ParseInt quoteType quote (S m) n acc
    (on (separated items))
  = Ok (acc ++ statements) (on []).
Proof.
  intros n acc Hplain Hitems. revert n acc.
  induction Hitems as [|item statement items statements Hitem Hitems IH];
    intros n acc Hn.
  - rewrite app_nil_r. destruct n; cbn [parseProgramStatements separated flat_map];
      unfold bind, currentTokenTypeIs, gets; cbn [currentToken cursorOn hd];
      by rewrite eof_type.
  - destruct n as [|n]; [cbn in Hn; lia|].
    destruct (parseStatement_item m item statement items statements []
                ltac:(cbn [hd]; by rewrite eof_type)
                ltac:(cbn [hd]; rewrite eof_type; cbn; tauto) Hitem Hitems)
      as (p & Hparse & Hnext).
    rewrite !app_nil_r in Hparse, Hnext.
    cbn [parseProgramStatements].
    unfold bind at 1, currentTokenTypeIs at 1, gets at 1.
    assert (Hfirst : token.eqb (Type_ (currentToken (on (separated (item :: items))))) EOF
                     = false).
    { destruct Hitem as [(e & Ht & _) _]. destruct item as [t c].
      cbn [separated flat_map fst app currentToken cursorOn hd].
      apply (literal_not t e); [done | cbn; intuition discriminate]. }
    rewrite Hfirst. cbn [negb]. unfold bind at 1. rewrite Hparse.
    unfold bind at 1. rewrite Hnext.
    rewrite IH by (cbn in Hn; lia). by rewrite <- app_assoc.
Qed.

(** X13: a program of expression statements.  One-token expressions, each
    followed or not by a semicolon, are read as one expression statement
    each, in the order of the source: the semicolon ends a statement but
    is not required, and the empty input is the program of no statement. *)
Theorem program_of_statements (fuel : nat) (items : list (Token * option Token))
    (statements : list ast.Statement) :
  plain tk [IDENT; INT; TRUE; FALSE; STRING; EOF] ->
  Forall2 (statementOf ParseInt) items statements ->
  (length items < fuel)%nat ->
  ParseProgram tk ParseInt quoteType quote fuel
    (New tk (tokenizer eof (separated items)))
  = Returns (Some (ast.mkProgram statements)) None.
Proof.
  intros Hplain Hitems Hfuel. destruct fuel as [|m]; [lia|].
  unfold ParseProgram. rewrite parseProgramBody_New.
  by rewrite (parseProgramStatements_items m items statements) by (done || lia).
Qed.

(** **** Blocks *)

Lemma parseBlockStatements_items m items statements : forall n acc closing trailing,
  plain tk [IDENT; INT; TRUE; FALSE; STRING; RBRACE] ->
  Forall2 (statementOf ParseInt) items statements ->
  Type_ closing = RBRACE ->
  (length items <= n)%nat ->
  parseBlockStatements tk quoteType (PE (S m)) n acc
    (on (separated items ++ closing :: trailing))
  = Ok (acc ++ statements) (on (closing :: trailing)).
Proof.
  intros n acc closing trailing Hplain Hitems Hclosing. revert n acc.
  induction Hitems as [|item statement items statements Hitem Hitems IH];
    intros n acc Hn.
  - rewrite app_nil_r. destruct n; cbn [parseBlockStatements separated flat_map app];
      unfold bind, currentTokenTypeIs, gets; cbn [currentToken cursorOn hd];
      by rewrite Hclosing.
  - destruct n as [|n]; [cbn in Hn; lia|].
    destruct (parseStatement_item m item statement items statements
                (closing :: trailing)
                ltac:(cbn [hd]; by rewrite Hclosing)
                ltac:(cbn [hd]; rewrite Hclosing; cbn; tauto) Hitem Hitems)
      as (p & Hparse & Hnext).
    cbn [parseBlockStatements].
    unfold bind at 1, currentTokenTypeIs at 1, gets at 1.
    unfold bind at 1, currentTokenTypeIs at 1, gets at 1.
    assert (Hfirst : forall k, ~ In k [IDENT; INT; TRUE; FALSE; STRING] ->
              token.eqb (Type_ (currentToken
                (on (separated (item :: items) ++ closing :: trailing)))) k = false).
    { intros k Hk. destruct Hitem as [(e & Ht & _) _]. destruct item as [t c].
      cbn [separated flat_map fst app currentToken cursorOn hd].
      by apply (literal_not t e). }
    rewrite !Hfirst by (cbn; intuition discriminate).
    cbn [negb andb]. unfold bind at 1. rewrite Hparse.
    unfold bind at 1. rewrite Hnext.
    rewrite IH by (cbn in Hn; lia). by rewrite <- app_assoc.
Qed.

Lemma parseBlockExpression_items m n lbrace rbrace items statements trailing :
  plain tk [IDENT; INT; TRUE; FALSE; STRING; RBRACE] ->
  Forall2 (statementOf ParseInt) items statements ->
  Type_ lbrace = LBRACE -> Type_ rbrace = RBRACE ->
  (length items <= n)%nat ->
  parseBlockExpression tk quoteType (PE (S m)) n
    (on (lbrace :: separated items ++ rbrace :: trailing))
  = Ok (ast.Block lbrace statements) (on (rbrace :: trailing)).
Proof.
  intros Hplain Hitems Hlbrace Hrbrace Hn.
  unfold parseBlockExpression, bind at 1, gets at 1. cbn [currentToken cursorOn hd].
  unfold bind at 1. rewrite assertCurrentTokenType_on by done.
  unfold bind at 1.
  rewrite (parseBlockStatements_items m items statements) by done. cbn [app].
  unfold bind at 1, currentTokenTypeIs at 1, gets at 1.
  cbn [currentToken cursorOn hd]. by rewrite Hrbrace.
Qed.

(** A block that the input ends before closing. *)
Lemma parseBlockExpression_open m n lbrace items statements :
  plain tk [IDENT; INT; TRUE; FALSE; STRING; EOF] ->
  Forall2 (statementOf ParseInt) items statements ->
  Type_ lbrace = LBRACE ->
  (length items <= n)%nat ->
  parseBlockExpression tk quoteType (PE (S m)) n (on (lbrace :: separated items))
  = Panic (PanicError (ParserErr
      {| errorToken := eof;
         msg := expected quoteType RBRACE EOF;
         pos := zeroPosition |})).
Proof.
  intros Hplain Hitems Hlbrace Hn.
  assert (Hloop : forall n acc, (length items <= n)%nat ->
            parseBlockStatements tk quoteType (PE (S m)) n acc (on (separated items))
            = Ok (acc ++ statements) (on [])).
  { clear n Hn. intros n acc. revert n acc.
    induction Hitems as [|item statement items statements Hitem Hitems IH];
      intros n acc Hn.
    - rewrite app_nil_r.
      destruct n; cbn [parseBlockStatements separated flat_map];
        unfold bind, currentTokenTypeIs, gets; cbn [currentToken cursorOn hd];
        by rewrite eof_type.
    - destruct n as [|n]; [cbn in Hn; lia|].
      destruct (parseStatement_item m item statement items statements []
                  ltac:(cbn [hd]; by rewrite eof_type)
                  ltac:(cbn [hd]; rewrite eof_type; cbn; tauto) Hitem Hitems)
        as (p & Hparse & Hnext).
      rewrite !app_nil_r in Hparse, Hnext.
      cbn [parseBlockStatements].
      unfold bind at 1, currentTokenTypeIs at 1, gets at 1.
      unfold bind at 1, currentTokenTypeIs at 1, gets at 1.
      assert (Hfirst : forall k, ~ In k [IDENT; INT; TRUE; FALSE; STRING] ->
                token.eqb (Type_ (currentToken (on (separated (item :: items))))) k
                = false).
      { intros k Hk. destruct Hitem as [(e & Ht & _) _]. destruct item as [t c].
        cbn [separated flat_map fst app currentToken cursorOn hd].
        by apply (literal_not t e). }
      rewrite !Hfirst by (cbn; intuition discriminate).
      cbn [negb andb]. unfold bind at 1. rewrite Hparse.
      unfold bind at 1. rewrite Hnext.
      rewrite IH by (cbn in Hn; lia). by rewrite <- app_assoc. }
  unfold parseBlockExpression, bind at 1, gets at 1. cbn [currentToken cursorOn hd].
  unfold bind at 1. rewrite assertCurrentTokenType_on by done.
  unfold bind at 1. rewrite Hloop by done.
  unfold bind at 1, currentTokenTypeIs at 1, gets at 1.
  cbn [currentToken cursorOn hd]. rewrite eof_type. cbn [token.eqb negb].
  unfold bind, gets. cbn [currentToken cursorOn hd]. by rewrite eof_type.
Qed.

(** **** If expressions *)

(** [parseExpression] on a token that has a prefix rule. *)
Lemma PE_rule n precedence t rest fn :
  registeredPrefixFns tk (Type_ t) = Some fn ->
  PE (S n) precedence (on (t :: rest))
  = match callPrefix tk ParseInt quoteType quote (PE n) n fn (on (t :: rest)) with
    | Ok operand p => parseExpressionLoop tk quoteType (PE n) n precedence operand p
    | Panic v => Panic v
    | Stuck => Stuck
    end.
Proof.
  intros Hfn.
  change (PE (S n) precedence)
    with (parseExpressionBody tk ParseInt quoteType quote (PE n) n precedence).
  unfold parseExpressionBody, bind at 1 2, gets.
  cbn [currentToken prefixFns cursorOn hd]. rewrite Hfn.
  unfold bind. by destruct (callPrefix _ _ _ _ _ _ _ _).
Qed.

Lemma parseIfExpression_on n ifToken lp c rp lbrace rest ec :
  plain tk [IDENT; INT; TRUE; FALSE; STRING; LPAREN; RPAREN; LBRACE] ->
  Type_ ifToken = IF_ -> Type_ lp = LPAREN -> Type_ rp = RPAREN ->
  Type_ lbrace = LBRACE ->
  literal ParseInt c = Some ec ->
  parseIfExpression tk quoteType (PE (S (S n))) (S (S n))
    (on (ifToken :: lp :: c :: rp :: lbrace :: rest))
  = match parseBlockExpression tk quoteType (PE (S (S n))) (S (S n))
            (on (lbrace :: rest)) with
    | Ok body p =>
        if token.eqb (Type_ (peekToken p)) ELSE then
          match nextToken p with
          | Ok _ p1 =>
              match assertNextTokenType quoteType LBRACE p1 with
              | Ok _ p2 =>
                  match parseBlockExpression tk quoteType (PE (S (S n))) (S (S n)) p2 with
                  | Ok elseBody p3 =>
                      Ok (ast.IfExpression ifToken ec body (Some elseBody)) p3
                  | Panic v => Panic v
                  | Stuck => Stuck
                  end
              | Panic v => Panic v
              | Stuck => Stuck
              end
          | Panic v => Panic v
          | Stuck => Stuck
          end
        else Ok (ast.IfExpression ifToken ec body None) p
    | Panic v => Panic v
    | Stuck => Stuck
    end.
Proof.
  intros Hplain Hif Hlp Hrp Hlbrace Hc.
  assert (Hsub : forall k, In k [IDENT; INT; TRUE; FALSE; STRING; LPAREN; RPAREN; LBRACE] ->
            isOperator tk k = false) by (intros k; apply plain_elem, Hplain).
  destruct (literal_plain _ c ec Hplain) as (Hpc & _);
    [intros k Hk; cbn in *; tauto | done |].
  unfold parseIfExpression, bind at 1, gets at 1. cbn [currentToken cursorOn hd].
  unfold bind at 1, currentTokenTypeIs at 1, gets at 1.
  cbn [currentToken cursorOn hd]. rewrite Hif. cbn [token.eqb negb].
  unfold bind at 1. rewrite assertNextTokenType_on by done.
  unfold bind at 1. rewrite PE_group by (done || (apply Hsub; cbn; tauto)).
  rewrite (PE_literal _ _ c ec) by done.
  rewrite loop_closing by (rewrite Hrp; (apply Hsub; cbn; tauto) || done).
  rewrite assertNextTokenType_on by done.
  rewrite loop_closing by (rewrite Hlbrace; (apply Hsub; cbn; tauto) || done).
  unfold bind at 1. rewrite assertCurrentTokenType_on by done.
  unfold bind at 1.
  destruct (parseBlockExpression _ _ _ _ _) as [body p| |]; [|done..].
  unfold bind at 1, peekTokenTypeIs at 1, gets at 1.
  destruct (token.eqb (Type_ (peekToken p)) ELSE); [|done].
  unfold bind at 1. destruct (nextToken p) as [t1 p1| |]; [|done..].
  unfold bind at 1.
  destruct (assertNextTokenType quoteType LBRACE p1) as [u p2| |]; [|done..].
  unfold bind. by destruct (parseBlockExpression _ _ _ _ p2).
Qed.

(** X14: if expressions.  [if (c) { ... }] is read as the [IfExpression]
    of the condition [c] and of the block, with no else block; followed by
    [else { ... }], with the second block as else block.  The statements of
    a block are read like those of a program, and kept in their order.
    The condition has to be parenthesised: [if c] is a fault, and
    [ParseProgram] returns the error that wants [(] and carries the token
    found instead. *)
Theorem if_expression (fuel : nat) (ifToken lp c rp lbrace rbrace : Token)
    (elseToken lbrace2 rbrace2 : Token) (ec : ast.Expression)
    (items items2 : list (Token * option Token))
    (statements statements2 : list ast.Statement) :
  plain tk [IDENT; INT; TRUE; FALSE; STRING; IF_; LPAREN; RPAREN; LBRACE; RBRACE;
            EOF] ->
  Type_ ifToken = IF_ -> Type_ lp = LPAREN -> Type_ rp = RPAREN ->
  Type_ lbrace = LBRACE -> Type_ rbrace = RBRACE ->
  Type_ elseToken = ELSE -> Type_ lbrace2 = LBRACE -> Type_ rbrace2 = RBRACE ->
  literal ParseInt c = Some ec ->
  Forall2 (statementOf ParseInt) items statements ->
  Forall2 (statementOf ParseInt) items2 statements2 ->
  (length items + 3 <= fuel)%nat -> (length items2 + 3 <= fuel)%nat ->
  ParseProgram tk ParseInt quoteType quote fuel
    (New tk (tokenizer eof
       (ifToken :: lp :: c :: rp :: lbrace :: separated items ++ [rbrace])))
  = Returns
      (Some (ast.mkProgram [ast.ExpressionStatement ifToken
         (ast.IfExpression ifToken ec (ast.Block lbrace statements) None)]))
      None /\
  ParseProgram tk ParseInt quoteType quote fuel
    (New tk (tokenizer eof
       (ifToken :: lp :: c :: rp :: lbrace :: separated items
        ++ rbrace :: elseToken :: lbrace2 :: separated items2 ++ [rbrace2])))
  = Returns
      (Some (ast.mkProgram [ast.ExpressionStatement ifToken
         (ast.IfExpression ifToken ec (ast.Block lbrace statements)
            (Some (ast.Block lbrace2 statements2)))]))
      None /\
  ParseProgram tk ParseInt quoteType quote fuel
    (New tk (tokenizer eof
       (ifToken :: c :: lbrace :: separated items ++ [rbrace])))
  = Returns None
      (Some (ParserErr
         {| errorToken := c;
            msg := expected quoteType LPAREN (Type_ c);
            pos := zeroPosition |})).
Proof.
  intros Hplain Hif Hlp Hrp Hlbrace Hrbrace Helse Hlbrace2 Hrbrace2 Hc
    Hitems Hitems2 Hfuel Hfuel2.
  destruct fuel as [|[|[|n]]]; [lia.. |].
  assert (Hsub : forall k,
            In k [IDENT; INT; TRUE; FALSE; STRING; IF_; LPAREN; RPAREN; LBRACE;
                  RBRACE; EOF] ->
            isOperator tk k = false) by (intros k; apply plain_elem, Hplain).
  assert (Hhead : plain tk [IDENT; INT; TRUE; FALSE; STRING; LPAREN; RPAREN; LBRACE])
    by (unfold plain; cbn [forallb]; rewrite !Hsub by (cbn; tauto); done).
  assert (Hblock : plain tk [IDENT; INT; TRUE; FALSE; STRING; RBRACE])
    by (unfold plain; cbn [forallb]; rewrite !Hsub by (cbn; tauto); done).
  assert (Heof : isOperator tk EOF = false) by (apply Hsub; cbn; tauto).
  assert (Hrule : registeredPrefixFns tk (Type_ ifToken) = Some parseIfExpressionFn)
    by (rewrite Hif, prefixFns_plain; [done | apply Hsub; cbn; tauto]).
  split_and!.
  - apply (ParseProgram_expression _ _ _ _ rbrace); try (by rewrite Hif).
    rewrite (PE_rule _ _ _ _ _ Hrule). cbn [callPrefix].
    rewrite (parseIfExpression_on _ _ _ _ _ _ _ ec) by done.
    rewrite (parseBlockExpression_items _ _ _ rbrace items statements [])
      by (done || lia).
    cbn [peekToken cursorOn hd tl]. rewrite eof_type. cbn [token.eqb].
    by apply loop_end.
  - apply (ParseProgram_expression _ _ _ _ rbrace2); try (by rewrite Hif).
    rewrite (PE_rule _ _ _ _ _ Hrule). cbn [callPrefix].
    rewrite (parseIfExpression_on _ _ _ _ _ _ _ ec) by done.
    rewrite (parseBlockExpression_items _ _ _ rbrace items statements)
      by (done || lia).
    cbn [peekToken cursorOn hd tl]. rewrite Helse. cbn [token.eqb].
    rewrite nextToken_on. cbn [tl].
    rewrite assertNextTokenType_on by done.
    rewrite (parseBlockExpression_items _ _ _ rbrace2 items2 statements2 [])
      by (done || lia).
    by apply loop_end.
  - destruct (literal_plain _ c ec Hplain) as (Hpc & _);
      [intros k Hk; cbn in *; tauto | done |].
    apply ParseProgram_statement_fault; [by rewrite Hif|].
    rewrite parseStatement_expression by (by rewrite Hif).
    rewrite (PE_rule _ _ _ _ _ Hrule). cbn [callPrefix].
    unfold parseIfExpression, bind at 1, gets at 1. cbn [currentToken cursorOn hd].
    unfold bind at 1, currentTokenTypeIs at 1, gets at 1.
    cbn [currentToken cursorOn hd]. rewrite Hif. cbn [token.eqb negb].
    unfold bind at 1. rewrite assertNextTokenType_fault; [done|].
    cbn [hd]. apply literal_kind in Hc. intros Heq. rewrite Heq in Hc.
    cbn in Hc. intuition discriminate.
Qed.

(** **** Function literals *)

Lemma parseParameters_separated n lp rp params es trailing :
  Forall2 (element ParseInt) params es ->
  Type_ rp = RPAREN ->
  (length params <= n)%nat ->
  parseParameters quoteType n (on (lp :: separated params ++ rp :: trailing))
  = Ok (map (fun item => ast.mkIdentifier (fst item) (Literal (fst item))) params)
       (on (rp :: trailing)).
Proof.
  intros Hparams Hrp Hn. unfold parseParameters, bind at 1.
  rewrite nextToken_on. cbn [tl]. unfold bind at 1.
  rewrite (parseParametersLoop_separated params es) by done. cbn [app].
  unfold bind at 1, currentTokenTypeIs at 1, gets at 1.
  cbn [currentToken cursorOn hd]. by rewrite Hrp.
Qed.

(** X15: function literals.  [fn name(p1, ..., pk) { ... }] is read as the
    [FunctionExpression] that carries the identifier after [fn] as its
    name, the parameters in their order and the block as its body; without
    the identifier the name stays [nil].  When the input ends before the
    brace that closes the body, [ParseProgram] returns the error that
    wants [}] and carries the end-of-input token. *)
Theorem function_literal (fuel : nat) (fn name lp rp lbrace rbrace : Token)
    (params items : list (Token * option Token)) (es : list ast.Expression)
    (statements : list ast.Statement) :
  plain tk [IDENT; INT; TRUE; FALSE; STRING; FUNCTION; RBRACE; EOF] ->
  Type_ fn = FUNCTION -> Type_ name = IDENT ->
  Type_ lp = LPAREN -> Type_ rp = RPAREN ->
  Type_ lbrace = LBRACE -> Type_ rbrace = RBRACE ->
  Forall2 (element ParseInt) params es ->
  Forall2 (statementOf ParseInt) items statements ->
  (length params + 2 <= fuel)%nat -> (length items + 2 <= fuel)%nat ->
  let parameters :=
    map (fun item => ast.mkIdentifier (fst item) (Literal (fst item))) params in
  ParseProgram tk ParseInt quoteType quote fuel
    (New tk (tokenizer eof
       (fn :: name :: lp :: separated params
        ++ rp :: lbrace :: separated items ++ [rbrace])))
  = Returns
      (Some (ast.mkProgram [ast.ExpressionStatement fn
         (ast.FunctionExpression fn (Some (ast.mkIdentifier name (Literal name)))
            parameters (ast.Block lbrace statements))]))
      None /\
  ParseProgram tk ParseInt quoteType quote fuel
    (New tk (tokenizer eof
       (fn :: lp :: separated params
        ++ rp :: lbrace :: separated items ++ [rbrace])))
  = Returns
      (Some (ast.mkProgram [ast.ExpressionStatement fn
         (ast.FunctionExpression fn None parameters (ast.Block lbrace statements))]))
      None /\
  ParseProgram tk ParseInt quoteType quote fuel
    (New tk (tokenizer eof
       (fn :: lp :: separated params ++ rp :: lbrace :: separated items)))
  = Returns None
      (Some (ParserErr
         {| errorToken := eof;
            msg := expected quoteType RBRACE EOF;
            pos := zeroPosition |})).
Proof.
  intros Hplain Hfn Hname Hlp Hrp Hlbrace Hrbrace Hparams Hitems Hfuel Hfuel2
    parameters.
  destruct fuel as [|[|n]]; [lia.. |].
  assert (Hsub : forall k,
            In k [IDENT; INT; TRUE; FALSE; STRING; FUNCTION; RBRACE; EOF] ->
            isOperator tk k = false) by (intros k; apply plain_elem, Hplain).
  assert (Hblock : plain tk [IDENT; INT; TRUE; FALSE; STRING; RBRACE])
    by (unfold plain; cbn [forallb]; rewrite !Hsub by (cbn; tauto); done).
  assert (Hopen : plain tk [IDENT; INT; TRUE; FALSE; STRING; EOF])
    by (unfold plain; cbn [forallb]; rewrite !Hsub by (cbn; tauto); done).
  assert (Heof : isOperator tk EOF = false) by (apply Hsub; cbn; tauto).
  assert (Hrule : registeredPrefixFns tk (Type_ fn) = Some parseFunctionFn)
    by (rewrite Hfn, prefixFns_plain; [done | apply Hsub; cbn; tauto]).
  split_and!.
  - apply (ParseProgram_expression _ _ _ _ rbrace); try (by rewrite Hfn).
    rewrite (PE_rule _ _ _ _ _ Hrule). cbn [callPrefix].
    unfold parseFunction, bind at 1, gets at 1. cbn [currentToken cursorOn hd].
    unfold bind at 1, peekTokenTypeIs at 1, gets at 1.
    cbn [peekToken cursorOn hd tl]. rewrite Hname. cbn [token.eqb].
    unfold bind at 1 2. rewrite nextToken_on. cbn [tl].
    unfold bind at 1, gets at 1, ret at 1. cbn [currentToken cursorOn hd].
    unfold bind at 1. rewrite assertNextTokenType_on by done.
    unfold bind at 1.
    rewrite (parseParameters_separated _ _ _ params es) by (done || lia).
    unfold bind at 1. rewrite assertNextTokenType_on by done.
    unfold bind at 1.
    rewrite (parseBlockExpression_items _ _ _ rbrace items statements [])
      by (done || lia).
    cbn [ret]. by apply loop_end.
  - apply (ParseProgram_expression _ _ _ _ rbrace); try (by rewrite Hfn).
    rewrite (PE_rule _ _ _ _ _ Hrule). cbn [callPrefix].
    unfold parseFunction, bind at 1, gets at 1. cbn [currentToken cursorOn hd].
    unfold bind at 1, peekTokenTypeIs at 1, gets at 1.
    cbn [peekToken cursorOn hd tl]. rewrite Hlp. cbn [token.eqb].
    unfold bind at 1, ret at 1.
    unfold bind at 1. rewrite assertNextTokenType_on by done.
    unfold bind at 1.
    rewrite (parseParameters_separated _ _ _ params es) by (done || lia).
    unfold bind at 1. rewrite assertNextTokenType_on by done.
    unfold bind at 1.
    rewrite (parseBlockExpression_items _ _ _ rbrace items statements [])
      by (done || lia).
    cbn [ret]. by apply loop_end.
  - apply ParseProgram_statement_fault; [by rewrite Hfn|].
    rewrite parseStatement_expression by (by rewrite Hfn).
    rewrite (PE_rule _ _ _ _ _ Hrule). cbn [callPrefix].
    unfold parseFunction, bind at 1, gets at 1. cbn [currentToken cursorOn hd].
    unfold bind at 1, peekTokenTypeIs at 1, gets at 1.
    cbn [peekToken cursorOn hd tl]. rewrite Hlp. cbn [token.eqb].
    unfold bind at 1, ret at 1.
    unfold bind at 1. rewrite assertNextTokenType_on by done.
    unfold bind at 1.
    rewrite (parseParameters_separated _ _ _ params es) by (done || lia).
    unfold bind at 1. rewrite assertNextTokenType_on by done.
    unfold bind at 1.
    by rewrite (parseBlockExpression_open _ _ _ items statements) by (done || lia).
Qed.

(** *** Every parse ends

    On a tokenizer that reports no malformed input, every rule goes
    forward: it returns with the cursor no further from the end than it
    was, or panics with a [ParserError].  A level of fuel per token is
    enough: every nested call of [parseExpression] is made after a token
    has been read, and every loop reads a token at each turn. *)

Lemma settles_le {A : Type} (r : Res A) (bound bound' : nat) :
  (bound <= bound')%nat -> settles tk eof bound r -> settles tk eof bound' r.
Proof.
  intros Hle. destruct r as [a p| |]; cbn [settles]; [|done..].
  intros (toks & -> & Hlen). exists toks. split; [done | lia].
Qed.

Lemma forward_le {A : Type} (m : M A) (bound bound' : nat) :
  (bound' <= bound)%nat -> forward tk eof bound m -> forward tk eof bound' m.
Proof. intros Hle Hm toks Hlen. apply Hm. lia. Qed.

Lemma forward_ret {A : Type} (a : A) bound : forward tk eof bound (ret a).
Proof. intros toks _. cbn. by exists toks. Qed.

Lemma forward_gets {A : Type} (f : Parser -> A) bound : forward tk eof bound (gets f).
Proof. intros toks _. cbn. by exists toks. Qed.

Lemma forward_panicParserError {A : Type} (m : string) (t : Token) bound :
  forward tk eof bound (@panicParserError A m t).
Proof. intros toks _. cbn. by eexists. Qed.

Lemma forward_bind {A B : Type} (m : M A) (k : A -> M B) bound :
  forward tk eof bound m -> (forall a, forward tk eof bound (k a)) ->
  forward tk eof bound (bind m k).
Proof.
  intros Hm Hk toks Hlen. unfold bind. specialize (Hm toks Hlen).
  destruct (m (on toks)) as [a p| |]; cbn [settles] in *; [|done..].
  destruct Hm as (toks1 & -> & Hlen1).
  apply (settles_le _ (length toks1)); [done|]. apply Hk. lia.
Qed.

(** A call that reads a token, then a call on what is left. *)
Lemma forward_after {A B : Type} (m : M A) (k : A -> M B) bound :
  (forall toks, settles tk eof (pred (length toks)) (m (on toks))) ->
  (forall a, forward tk eof (pred bound) (k a)) ->
  forward tk eof bound (bind m k).
Proof.
  intros Hm Hk toks Hlen. unfold bind. specialize (Hm toks).
  destruct (m (on toks)) as [a p| |]; cbn [settles] in *; [|done..].
  destruct Hm as (toks1 & -> & Hlen1).
  apply (settles_le _ (length toks1)); [lia|]. apply Hk. lia.
Qed.

Lemma settles_nextToken toks :
  settles tk eof (pred (length toks)) (nextToken (on toks)).
Proof. rewrite nextToken_on. exists (tl toks). split; [done|]. by destruct toks. Qed.

Lemma settles_assertTokenType expect actual toks :
  settles tk eof (pred (length toks)) (assertTokenType quoteType expect actual (on toks)).
Proof.
  unfold assertTokenType. destruct (negb _); [by eexists|].
  unfold bind. rewrite nextToken_on. exists (tl toks). split; [done|]. by destruct toks.
Qed.

Lemma settles_assertNextTokenType expect toks :
  settles tk eof (pred (length toks)) (assertNextTokenType quoteType expect (on toks)).
Proof. apply settles_assertTokenType. Qed.

Lemma settles_assertCurrentTokenType expect toks :
  settles tk eof (pred (length toks))
    (assertCurrentTokenType quoteType expect (on toks)).
Proof. apply settles_assertTokenType. Qed.

Lemma forward_nextToken bound : forward tk eof bound nextToken.
Proof.
  intros toks _. apply (settles_le _ (pred (length toks))); [lia|].
  apply settles_nextToken.
Qed.

(** After a current token of a given type other than the end of input,
    there was a token to read. *)
Lemma forward_after_current {B : Type} expect (k : unit -> M B) bound :
  expect <> EOF ->
  ((1 <= bound)%nat -> forall u, forward tk eof (pred bound) (k u)) ->
  forward tk eof bound (bind (assertCurrentTokenType quoteType expect) k).
Proof.
  intros Hexpect Hk [|t rest] Hlen.
  - unfold bind, assertCurrentTokenType, bind, gets, assertTokenType.
    cbn [currentToken cursorOn hd]. rewrite eof_type.
    rewrite neq_eqb by done. by eexists.
  - refine (forward_after _ k bound (settles_assertCurrentTokenType expect) _
              (t :: rest) Hlen).
    apply Hk. cbn in Hlen. lia.
Qed.

Create HintDb fwd.

#[local] Hint Resolve forward_ret forward_gets forward_panicParserError
  forward_nextToken settles_nextToken settles_assertTokenType
  settles_assertNextTokenType settles_assertCurrentTokenType : fwd.
#[local] Hint Extern 1 (_ <= _)%nat => lia : fwd.
#[local] Hint Extern 1 (_ < _)%nat => lia : fwd.

(** The proofs below: close a call that is known, or split a sequence or
    a case distinction; a sequence that begins with a call that reads a
    token goes on with one token less. *)
Ltac forwards :=
  repeat first
    [ solve [auto with fwd nocore]
    | apply forward_after_current; [discriminate | intros ? ?]
    | apply forward_after; [solve [auto with fwd nocore] | intros ?]
    | apply forward_bind; [| intros ?]
    | match goal with
      | |- forward _ _ _ (if ?b then _ else _) => destruct b
      | |- forward _ _ _ (match ?x with _ => _ end) => destruct x
      end ].

Lemma forward_assertTokenType expect actual bound :
  forward tk eof bound (assertTokenType quoteType expect actual).
Proof. unfold assertTokenType. forwards. Qed.

#[local] Hint Resolve forward_assertTokenType : fwd.

Lemma forward_assertNextTokenType expect bound :
  forward tk eof bound (assertNextTokenType quoteType expect).
Proof. unfold assertNextTokenType. forwards. Qed.

Lemma forward_assertCurrentTokenType expect bound :
  forward tk eof bound (assertCurrentTokenType quoteType expect).
Proof. unfold assertCurrentTokenType. forwards. Qed.

Lemma forward_skipSemicolon bound : forward tk eof bound skipSemicolon.
Proof. unfold skipSemicolon, peekTokenTypeIs. forwards. Qed.

#[local] Hint Resolve forward_assertNextTokenType forward_assertCurrentTokenType
  forward_skipSemicolon : fwd.

(** The test of a loop that runs up to a closing token or to the end
    of input: when it lets the body run, there was a token to read. *)
Lemma forward_while {B : Type} closing (body : M B) (done_ : B) bound :
  ((1 <= bound)%nat -> forward tk eof bound body) ->
  forward tk eof bound
    (bind (currentTokenTypeIs closing) (fun closed =>
       bind (currentTokenTypeIs EOF) (fun ended =>
         if negb closed && negb ended then body else ret done_))).
Proof.
  intros Hbody [|t rest] Hlen.
  - unfold bind, currentTokenTypeIs, gets. cbn [currentToken cursorOn hd].
    rewrite eof_type. cbn [token.eqb negb]. rewrite andb_false_r. by exists [].
  - unfold bind, currentTokenTypeIs, gets. cbn [currentToken cursorOn hd].
    destruct (negb _ && negb _).
    + apply Hbody; [cbn in Hlen; lia | done].
    + by exists (t :: rest).
Qed.

Lemma forward_until_end {B : Type} (body : M B) (done_ : B) bound :
  ((1 <= bound)%nat -> forward tk eof bound body) ->
  forward tk eof bound
    (bind (currentTokenTypeIs EOF) (fun ended =>
       if negb ended then body else ret done_)).
Proof.
  intros Hbody [|t rest] Hlen.
  - unfold bind, currentTokenTypeIs, gets. cbn [currentToken cursorOn hd].
    rewrite eof_type. cbn [token.eqb negb]. by exists [].
  - unfold bind, currentTokenTypeIs, gets. cbn [currentToken cursorOn hd].
    destruct (negb _).
    + apply Hbody; [cbn in Hlen; lia | done].
    + by exists (t :: rest).
Qed.

(** Where the current token is of the type of the end of input, no
    expression begins. *)
Lemma PE_at_end n precedence toks :
  isOperator tk EOF = false ->
  Type_ (hd eof toks) = EOF ->
  exists e,
    PE (S n) precedence (on toks) = Panic (PanicError (ParserErr e)).
Proof.
  intros Heof Htype.
  change (PE (S n) precedence)
    with (parseExpressionBody tk ParseInt quoteType quote (PE n) n precedence).
  unfold parseExpressionBody, bind at 1 2, gets.
  cbn [currentToken prefixFns cursorOn].
  rewrite Htype, prefixFns_plain by done. by eexists.
Qed.

Section RulesForward.
Variable pe : Z -> M ast.Expression.
Variable level : nat.
Hypothesis pe_forward : forall bound precedence,
  (bound <= level)%nat -> forward tk eof bound (pe precedence).
Hypothesis pe_end : forall precedence toks,
  Type_ (hd eof toks) = EOF ->
  exists e, pe precedence (on toks) = Panic (PanicError (ParserErr e)).
Hypothesis eof_plain : isOperator tk EOF = false.

#[local] Hint Resolve pe_forward : fwd.

Ltac forward_rule :=
  unfold currentTokenTypeIs, peekTokenTypeIs, nextTokenTypeIs,
    currentTokenPrecedence, peekTokenPrecedence;
  forwards.

Lemma forward_parseStatement bound :
  (bound <= level)%nat -> forward tk eof bound (parseStatement tk quoteType pe).
Proof.
  intros Hbound.
  unfold parseStatement, parseLetStatement, parseReturnStatement,
    parseExpressionStatement. forward_rule.
Qed.

#[local] Hint Resolve forward_parseStatement : fwd.

Lemma forward_parseBlockStatements n : forall bound statements,
  (bound <= level)%nat -> (bound <= n)%nat ->
  forward tk eof bound (parseBlockStatements tk quoteType pe n statements).
Proof.
  induction n as [|n IH]; intros bound statements Hbound Hn;
    cbn [parseBlockStatements]; apply forward_while; intros Hpos; [lia|].
  forward_rule.
Qed.

Lemma forward_parseParametersLoop n : forall bound params,
  (bound <= n)%nat -> forward tk eof bound (parseParametersLoop n params).
Proof.
  induction n as [|n IH]; intros bound params Hn;
    cbn [parseParametersLoop]; apply forward_while; intros Hpos; [lia|].
  forward_rule.
Qed.

Lemma forward_parseArrayElements n : forall bound elements,
  (bound <= level)%nat -> (bound <= n)%nat ->
  forward tk eof bound (parseArrayElements tk pe n elements).
Proof.
  induction n as [|n IH]; intros bound elements Hbound Hn;
    cbn [parseArrayElements]; apply forward_while; intros Hpos; [lia|].
  forward_rule.
Qed.

Lemma forward_parseHashPairs n : forall bound pairs,
  (bound <= level)%nat -> (bound <= n)%nat ->
  forward tk eof bound (parseHashPairs tk quoteType pe n pairs).
Proof.
  induction n as [|n IH]; intros bound pairs Hbound Hn;
    cbn [parseHashPairs]; apply forward_while; intros Hpos; [lia|].
  forward_rule.
Qed.

(** The loop of [parseCallExpression] has no test for the end of input:
    there, it is [parseExpression] that stops the parse. *)
Lemma forward_parseCallArguments n : forall bound args,
  (bound <= level)%nat -> (bound < n)%nat ->
  forward tk eof bound (parseCallArguments tk pe n args).
Proof.
  induction n as [|n IH]; intros bound args Hbound Hn; [lia|].
  assert (Hpos : (1 <= bound)%nat ->
            forward tk eof bound (parseCallArguments tk pe (S n) args)).
  { intros Hpos. cbn [parseCallArguments]. forward_rule. }
  intros [|t rest] Hlen; [|apply Hpos; [cbn in Hlen; lia | done]].
  cbn [parseCallArguments]. unfold bind at 1, currentTokenTypeIs at 1, gets at 1.
  cbn [currentToken cursorOn hd]. rewrite eof_type. cbn [token.eqb negb].
  unfold bind at 1, currentTokenTypeIs at 1, gets at 1.
  cbn [currentToken cursorOn hd]. rewrite eof_type. cbn [token.eqb negb].
  destruct (pe_end (LOWEST_PRECEDENCE tk) []) as [e Hend];
    [cbn [hd]; by rewrite eof_type|].
  unfold bind. rewrite Hend. by exists e.
Qed.

Lemma forward_parseBlockExpression n bound :
  (pred bound <= level)%nat -> (pred bound <= n)%nat ->
  forward tk eof bound (parseBlockExpression tk quoteType pe n).
Proof.
  intros Hbound Hn.
  pose proof forward_parseBlockStatements as Hloop.
  unfold parseBlockExpression. forward_rule.
Qed.

Lemma forward_parseParameters n bound :
  (pred bound <= n)%nat -> forward tk eof bound (parseParameters quoteType n).
Proof.
  intros Hn. pose proof forward_parseParametersLoop as Hloop.
  unfold parseParameters. forward_rule.
Qed.

#[local] Hint Resolve forward_parseBlockExpression forward_parseParameters
  forward_parseArrayElements forward_parseHashPairs forward_parseCallArguments
  : fwd.

(** The rules of the two tables.  Each reads a token before it calls
    [parseExpression]: on [bound] tokens, [parseExpression] is needed on
    fewer. *)
Lemma forward_callPrefix n bound fn :
  (1 <= bound)%nat -> (bound <= S level)%nat -> (bound <= n)%nat ->
  forward tk eof bound (callPrefix tk ParseInt quoteType quote pe n fn).
Proof.
  intros Hpos Hbound Hn. destruct fn; cbn [callPrefix];
    unfold parseIdentifier, parseInteger, parseBoolean, parseString,
      parseIfExpression, parseFunction, parseArrayLiteral,
      parseHashLiteral, parseGroupedExpression, parsePrefix; forward_rule.
Qed.

Lemma forward_callInfix n bound fn left :
  (bound <= level)%nat -> (bound <= n)%nat ->
  forward tk eof bound (callInfix tk quoteType pe n fn left).
Proof.
  intros Hbound Hn. destruct fn; cbn [callInfix];
    unfold parseCallExpression, parseIndexExpression, parseInfix, parsePostfix;
    forward_rule.
Qed.

Lemma forward_parseExpressionLoop n : forall bound precedence left,
  (bound <= S level)%nat -> (bound <= n)%nat ->
  forward tk eof bound (parseExpressionLoop tk quoteType pe n precedence left).
Proof.
  induction n as [|n IH]; intros bound precedence left Hbound Hn toks Hlen.
  - assert (toks = []) as -> by (destruct toks; [done | cbn in Hlen; lia]).
    rewrite loop_no_rule; [by exists []|].
    cbn [infixFns peekToken cursorOn tl hd]. by rewrite eof_type, infixFns_plain.
  - destruct (infixFns (on toks) (Type_ (peekToken (on toks)))) as [fn|] eqn:Hfn;
      [|rewrite loop_no_rule by done; by exists toks].
    destruct (token.eqb (Type_ (peekToken (on toks))) SEMICOLON) eqn:Hsemi;
      [rewrite loop_semicolon by done; by exists toks|].
    destruct (precedence <? Precedence tk (peekToken (on toks))) eqn:Hhigh;
      [|rewrite loop_low by done; by exists toks].
    assert (Hrest : tl toks <> []).
    { intros Hnil. cbn [infixFns peekToken cursorOn] in Hfn.
      rewrite Hnil in Hfn. cbn [hd] in Hfn.
      by rewrite eof_type, infixFns_plain in Hfn. }
    rewrite (loop_rule _ _ _ _ _ fn) by done. rewrite nextToken_on.
    assert (Hshort : (length (tl toks) <= pred bound)%nat)
      by (destruct toks; cbn in *; lia).
    assert (Hlong : (1 <= length (tl toks))%nat)
      by (destruct (tl toks); [done | cbn; lia]).
    pose proof (forward_callInfix n (pred bound) fn left ltac:(lia) ltac:(lia)
                  (tl toks) Hshort) as Hcall.
    destruct (callInfix _ _ _ _ _ _ _) as [left1 p2| |]; cbn [settles] in *;
      [|done..].
    destruct Hcall as (toks2 & -> & Hlen2).
    apply (settles_le _ (length toks2)); [destruct toks; cbn in *; lia|].
    apply (IH (pred bound) precedence left1 ltac:(lia) ltac:(lia) toks2). lia.
Qed.

#[local] Hint Resolve forward_callPrefix forward_parseExpressionLoop : fwd.

Lemma forward_parseExpressionBody n bound precedence :
  (bound <= S level)%nat -> (bound <= n)%nat ->
  forward tk eof bound
    (parseExpressionBody tk ParseInt quoteType quote pe n precedence).
Proof.
  intros Hbound Hn [|t rest] Hlen.
  - unfold parseExpressionBody, bind at 1 2, gets.
    cbn [currentToken prefixFns cursorOn hd].
    rewrite eof_type, prefixFns_plain by done. by eexists.
  - assert (Hpos : (1 <= bound)%nat) by (cbn in Hlen; lia).
    revert Hlen. generalize (t :: rest).
    change (forward tk eof bound
              (parseExpressionBody tk ParseInt quoteType quote pe n precedence)).
    unfold parseExpressionBody. forward_rule.
Qed.

End RulesForward.

Lemma forward_parseExpression f : forall bound precedence,
  isOperator tk EOF = false ->
  (bound <= f)%nat -> forward tk eof bound (PE (S f) precedence).
Proof.
  induction f as [|f IH]; intros bound precedence Heof Hbound.
  - intros toks Hlen.
    assert (toks = []) as -> by (destruct toks; [done | cbn in Hlen; lia]).
    destruct (PE_at_end 0 precedence [] Heof) as [e ->];
      [cbn [hd]; by rewrite eof_type|]. by exists e.
  - change (PE (S (S f)) precedence)
      with (parseExpressionBody tk ParseInt quoteType quote (PE (S f)) (S f)
              precedence).
    apply (forward_parseExpressionBody (PE (S f)) f); try done.
    + intros b p Hb. by apply IH.
    + intros p toks Htype. by apply PE_at_end.
Qed.

Lemma forward_parseProgramStatements f n : forall bound statements,
  isOperator tk EOF = false ->
  (bound <= f)%nat -> (bound <= n)%nat ->
  forward tk eof bound
    (parseProgramStatements tk ParseInt quoteType quote (S f) n statements).
Proof.
  intros bound statements Heof. revert bound statements.
  pose proof (forward_parseStatement (PE (S f)) f
                (fun b p Hb => forward_parseExpression f b p Heof Hb))
    as Hstatement.
  induction n as [|n IH]; intros bound statements Hbound Hn;
    cbn [parseProgramStatements]; apply forward_until_end; intros Hpos; [lia|].
  forwards.
Qed.

(** X16: every parse ends, and ends well.  On the tokens of a tokenizer
    that reports no malformed input, whatever they are, [ParseProgram]
    returns: a program and no error, or no program and a [ParserError].
    No panic leaves it, and the fuel of the model plays no part in the
    result once there is a level of it per token. *)
Theorem ParseProgram_returns (toks : list Token) :
  isOperator tk EOF = false ->
  exists r,
    (forall fuel, (length toks < fuel)%nat ->
       ParseProgram tk ParseInt quoteType quote fuel (New tk (tokenizer eof toks))
       = r) /\
    ((exists program, r = Returns (Some program) None) \/
     (exists e, r = Returns None (Some (ParserErr e)))).
Proof.
  intros Heof.
  assert (Hrun :
    (exists program,
       ParseProgram tk ParseInt quoteType quote (S (length toks))
         (New tk (tokenizer eof toks))
       = Returns (Some program) None) \/
    (exists e,
       ParseProgram tk ParseInt quoteType quote (S (length toks))
         (New tk (tokenizer eof toks))
       = Returns None (Some (ParserErr e)))).
  { unfold ParseProgram. rewrite parseProgramBody_New.
    pose proof (forward_parseProgramStatements (length toks) (S (length toks))
                  (length toks) [] Heof (le_n _) ltac:(lia) toks (le_n _))
      as Hloop.
    destruct (parseProgramStatements _ _ _ _ _ _ _ _) as [statements p|v|];
      cbn [settles] in Hloop.
    - left. by eexists.
    - right. destruct Hloop as [e ->]. by exists e.
    - done. }
  eexists. split; [|exact Hrun].
  intros fuel Hfuel. apply ParseProgram_fuel; [lia|].
  by destruct Hrun as [[program ->]|[e ->]].
Qed.

(** *** Let statements, in general *)

Lemma parseStatement_let pe t rest :
  Type_ t = LET ->
  parseStatement tk quoteType pe (on (t :: rest))
  = parseLetStatement tk quoteType pe (on (t :: rest)).
Proof.
  intros Ht. unfold parseStatement, bind at 1, gets at 1.
  cbn [currentToken cursorOn hd]. by rewrite Ht.
Qed.

(** X17: let statements.  [let name = e], with or without a semicolon,
    for an expression [e] other than a function literal that
    [parseExpression] reads up to the end or up to the semicolon, is the
    [LetStatement] of the identifier and of [e].  When [let] is not
    followed by an identifier, or the identifier not by [=],
    [ParseProgram] returns no program and the error that names the type
    wanted and the type found, and carries the token found. *)
Theorem let_statement (fuel : nat) (letToken : Token) :
  Type_ letToken = LET ->
  (forall name assign rest e last trailing,
     Type_ name = IDENT -> Type_ assign = ASSIGN ->
     PE (S fuel) (LOWEST_PRECEDENCE tk) (on rest) = Ok e (on (last :: trailing)) ->
     (forall ft fname parameters body,
        e <> ast.FunctionExpression ft fname parameters body) ->
     trailing = [] \/ (exists semi, trailing = [semi] /\ Type_ semi = SEMICOLON) ->
     ParseProgram tk ParseInt quoteType quote (S fuel)
       (New tk (tokenizer eof (letToken :: name :: assign :: rest)))
     = Returns
         (Some (ast.mkProgram
            [ast.LetStatement letToken (ast.mkIdentifier name (Literal name)) e]))
         None) /\
  (forall rest,
     Type_ (hd eof rest) <> IDENT ->
     ParseProgram tk ParseInt quoteType quote (S fuel)
       (New tk (tokenizer eof (letToken :: rest)))
     = Returns None
         (Some (ParserErr
            {| errorToken := hd eof rest;
               msg := expected quoteType IDENT (Type_ (hd eof rest));
               pos := zeroPosition |}))) /\
  (forall name rest,
     Type_ name = IDENT -> Type_ (hd eof rest) <> ASSIGN ->
     ParseProgram tk ParseInt quoteType quote (S fuel)
       (New tk (tokenizer eof (letToken :: name :: rest)))
     = Returns None
         (Some (ParserErr
            {| errorToken := hd eof rest;
               msg := expected quoteType ASSIGN (Type_ (hd eof rest));
               pos := zeroPosition |}))).
Proof.
  intros Hlet. split_and!.
  - intros name assign rest e last trailing Hname Hassign Hparse Hvalue Htrailing.
    assert (Hkeep :
      match e with
      | ast.FunctionExpression ft _ parameters body =>
          ast.FunctionExpression ft
            (Some (ast.mkIdentifier name (Literal name))) parameters body
      | _ => e
      end = e).
    { destruct e; try done. by edestruct Hvalue. }
    destruct Htrailing as [-> | (semi & -> & Hsemi)].
    + apply (ParseProgram_statement _ _ _ _ last); [by rewrite Hlet|].
      rewrite parseStatement_let, parseLetStatement_on by done.
      rewrite Hparse, skipSemicolon_last. cbn zeta. by rewrite Hkeep.
    + apply (ParseProgram_statement _ _ _ _ semi); [by rewrite Hlet|].
      rewrite parseStatement_let, parseLetStatement_on by done.
      rewrite Hparse, skipSemicolon_semicolon by done. cbn zeta. by rewrite Hkeep.
  - intros rest Hother.
    apply ParseProgram_statement_fault; [by rewrite Hlet|].
    rewrite parseStatement_let by done.
    unfold parseLetStatement, bind at 1, gets at 1. cbn [currentToken cursorOn hd].
    unfold bind at 1. by rewrite assertNextTokenType_fault.
  - intros name rest Hname Hother.
    apply ParseProgram_statement_fault; [by rewrite Hlet|].
    rewrite parseStatement_let by done.
    unfold parseLetStatement, bind at 1, gets at 1. cbn [currentToken cursorOn hd].
    unfold bind at 1. rewrite assertNextTokenType_on by done.
    unfold bind at 1, gets at 1. cbn [currentToken cursorOn hd].
    unfold bind at 1. by rewrite assertNextTokenType_fault.
Qed.

End Parsing.

(** *** The source lines of the specification, under the sample table *)

Section OnSamples.
Import token lexer parser sample.

(** [1 + 2 * 3], [a + b + c] and [-1 + 2] under the sample operators. *)
Lemma precedence_respected_witness :
  sample.ParseProgram 3 (sample.New (tokenizer sample.eof one_plus_two_times_three))
  = Returns
      (Some (ast.mkProgram [ast.ExpressionStatement (T INT "1" 1 1)
         (ast.InfixExpression (T PLUS "+" 1 3)
            (ast.Integer (T INT "1" 1 1) 1) "+"
            (ast.InfixExpression (T ASTERISK "*" 1 7)
               (ast.Integer (T INT "2" 1 5) 2) "*"
               (ast.Integer (T INT "3" 1 9) 3)))]))
      None /\
  sample.ParseProgram 3 (sample.New (tokenizer sample.eof a_plus_b_plus_c))
  = Returns
      (Some (ast.mkProgram [ast.ExpressionStatement (T IDENT "a" 1 1)
         (ast.InfixExpression (T PLUS "+" 1 7)
            (ast.InfixExpression (T PLUS "+" 1 3)
               (ast.Ident (ast.mkIdentifier (T IDENT "a" 1 1) "a")) "+"
               (ast.Ident (ast.mkIdentifier (T IDENT "b" 1 5) "b"))) "+"
            (ast.Ident (ast.mkIdentifier (T IDENT "c" 1 9) "c")))]))
      None /\
  sample.ParseProgram 3 (sample.New (tokenizer sample.eof minus_one_plus_two))
  = Returns
      (Some (ast.mkProgram [ast.ExpressionStatement (T MINUS "-" 1 1)
         (ast.InfixExpression (T PLUS "+" 1 4)
            (ast.PrefixExpression (T MINUS "-" 1 1) "-"
               (ast.Integer (T INT "1" 1 2) 1)) "+"
            (ast.Integer (T INT "2" 1 6) 2))]))
      None /\
  (exists tree,
     sample.ParseProgram 4
       (sample.New (tokenizer sample.eof
          (T IDENT "a" 1 1 :: chainTokens plus_b_times_c_minus_d)))
     = Returns
         (Some (ast.mkProgram [ast.ExpressionStatement (T IDENT "a" 1 1) tree]))
         None /\
     inorder tree = T IDENT "a" 1 1 :: chainTokens plus_b_times_c_minus_d /\
     ordered sample.tk tree).
Proof.
  destruct (precedence_respected sample.tk sample.ParseInt sample.quoteType
              sample.quote sample.eof eq_refl 3 eq_refl (le_n 3))
    as (Hbinary & Hprefix & _).
  destruct (precedence_respected sample.tk sample.ParseInt sample.quoteType
              sample.quote sample.eof eq_refl 4 eq_refl ltac:(lia))
    as (_ & _ & Hchain).
  split; [|split; [|split]].
  - apply (Hbinary (T INT "1" 1 1) (T PLUS "+" 1 3) (T INT "2" 1 5)
             (T ASTERISK "*" 1 7) (T INT "3" 1 9));
      try reflexivity; repeat split.
  - apply (Hbinary (T IDENT "a" 1 1) (T PLUS "+" 1 3) (T IDENT "b" 1 5)
             (T PLUS "+" 1 7) (T IDENT "c" 1 9));
      try reflexivity; repeat split.
  - apply (Hprefix (T MINUS "-" 1 1) (T INT "1" 1 2) (T PLUS "+" 1 4)
             (T INT "2" 1 6));
      try reflexivity; repeat split.
    cbn. lia.
  - apply (Hchain (T IDENT "a" 1 1)
             (ast.Ident (ast.mkIdentifier (T IDENT "a" 1 1) "a"))
             plus_b_times_c_minus_d);
      [reflexivity | repeat econstructor | cbn; lia].
Defined.

(** The tree of [a + b * c - d] is [(a + (b * c)) - d]. *)
Example a_plus_b_times_c_minus_d_tree :
  let a := T IDENT "a" 1 1 in
  let b := T IDENT "b" 1 5 in
  let c := T IDENT "c" 1 9 in
  let d := T IDENT "d" 1 13 in
  let node t := ast.Ident (ast.mkIdentifier t (Literal t)) in
  sample.ParseProgram 4
    (sample.New (tokenizer sample.eof (a :: chainTokens plus_b_times_c_minus_d)))
  = Returns
      (Some (ast.mkProgram [ast.ExpressionStatement a
         (ast.InfixExpression (T MINUS "-" 1 11)
            (ast.InfixExpression (T PLUS "+" 1 3) (node a) "+"
               (ast.InfixExpression (T ASTERISK "*" 1 7) (node b) "*" (node c)))
            "-" (node d))]))
      None.
Proof. reflexivity. Qed.

(** [let add = fn(a, b) { a + b };]: the function node is named [add]. *)
Lemma let_names_function_witness :
  sample.ParseProgram 4 (sample.New (tokenizer sample.eof let_add))
  = Returns
      (Some (ast.mkProgram
         [ast.LetStatement (T LET "let" 1 1)
            (ast.mkIdentifier (T IDENT "add" 1 5) "add")
            (ast.FunctionExpression (T FUNCTION "fn" 1 11)
               (Some (ast.mkIdentifier (T IDENT "add" 1 5) "add"))
               [ast.mkIdentifier (T IDENT "a" 1 14) "a";
                ast.mkIdentifier (T IDENT "b" 1 17) "b"]
               (ast.Block (T LBRACE "{" 1 20)
                  [ast.ExpressionStatement (T IDENT "a" 1 22)
                     (ast.InfixExpression (T PLUS "+" 1 24)
                        (ast.Ident (ast.mkIdentifier (T IDENT "a" 1 22) "a")) "+"
                        (ast.Ident (ast.mkIdentifier (T IDENT "b" 1 26) "b")))]))]))
      None.
Proof.
  apply (let_names_function sample.tk sample.ParseInt sample.quoteType
           sample.quote sample.eof eq_refl 3 4
           (T LET "let" 1 1) (T IDENT "add" 1 5) (T ASSIGN "=" 1 9)
           (drop 3 let_add) (T FUNCTION "fn" 1 11) None
           [ast.mkIdentifier (T IDENT "a" 1 14) "a";
            ast.mkIdentifier (T IDENT "b" 1 17) "b"]
           (ast.Block (T LBRACE "{" 1 20)
              [ast.ExpressionStatement (T IDENT "a" 1 22)
                 (ast.InfixExpression (T PLUS "+" 1 24)
                    (ast.Ident (ast.mkIdentifier (T IDENT "a" 1 22) "a")) "+"
                    (ast.Ident (ast.mkIdentifier (T IDENT "b" 1 26) "b")))])
           (T RBRACE "}" 1 28) [T SEMICOLON ";" 1 29]);
    try reflexivity.
  right. by eexists.
Defined.


(** The array literal of one element: [parseArrayLiteral] tests the peek
    token for the closing bracket after it has moved onto the element, and
    returns the literal with no element. *)
Example array_of_one_is_empty :
  sample.ParseProgram 5 (sample.New (tokenizer sample.eof array_of_one))
  = Returns
      (Some (ast.mkProgram
         [ast.ExpressionStatement (T LBRACKET "[" 1 1)
            (ast.ArrayLiteral (T LBRACKET "[" 1 1) [])]))
      None.
Proof. reflexivity. Qed.


(** [{a: 1, b: 2}]: the map of the literal holds the two pairs. *)
Lemma hash_literal_entries_witness :
  let a := ast.Ident (ast.mkIdentifier (T IDENT "a" 1 2) "a") in
  let b := ast.Ident (ast.mkIdentifier (T IDENT "b" 1 8) "b") in
  let one := ast.Integer (T INT "1" 1 5) 1 in
  let two := ast.Integer (T INT "2" 1 11) 2 in
  exists m,
    sample.ParseProgram 4 (sample.New (tokenizer sample.eof hash_a_b))
    = Returns
        (Some (ast.mkProgram
           [ast.ExpressionStatement (T LBRACE "{" 1 1)
              (ast.HashLiteral (T LBRACE "{" 1 1) m)]))
        None /\
    forall visit, ast.MapRange m visit <-> Permutation [(a, one); (b, two)] visit.
Proof.
  intros a b one two.
  apply (hash_literal_entries sample.tk sample.ParseInt sample.quoteType
           sample.quote sample.eof eq_refl 4
           [(T IDENT "a" 1 2, T COLON ":" 1 3, T INT "1" 1 5, Some (T COMMA "," 1 6));
            (T IDENT "b" 1 8, T COLON ":" 1 9, T INT "2" 1 11, None)]
           [(a, one); (b, two)] (T LBRACE "{" 1 1) (T RBRACE "}" 1 12));
    [reflexivity | repeat constructor | reflexivity | reflexivity | cbn; lia].
Defined.

(** C9 fails on the code: the map of [{a: 1, b: 2}] may be ranged over
    with [b] first, which is not the order of the source. *)
Lemma hash_literal_order_not_kept :
  let a := ast.Ident (ast.mkIdentifier (T IDENT "a" 1 2) "a") in
  let b := ast.Ident (ast.mkIdentifier (T IDENT "b" 1 8) "b") in
  let one := ast.Integer (T INT "1" 1 5) 1 in
  let two := ast.Integer (T INT "2" 1 11) 2 in
  ~ (forall m,
       sample.ParseProgram 4 (sample.New (tokenizer sample.eof hash_a_b))
       = Returns
           (Some (ast.mkProgram
              [ast.ExpressionStatement (T LBRACE "{" 1 1)
                 (ast.HashLiteral (T LBRACE "{" 1 1) m)]))
           None ->
       forall visit, ast.MapRange m visit -> visit = [(a, one); (b, two)]).
Proof.
  intros a b one two Hordered.
  specialize (Hordered [(a, one); (b, two)] eq_refl [(b, two); (a, one)]).
  discriminate Hordered. apply perm_swap.
Qed.


(** [[1]] and [{a}]. *)
Lemma single_token_dropped_witness :
  sample.ParseProgram 1 (sample.New (tokenizer sample.eof array_of_one))
  = Returns
      (Some (ast.mkProgram
         [ast.ExpressionStatement (T LBRACKET "[" 1 1)
            (ast.ArrayLiteral (T LBRACKET "[" 1 1) [])]))
      None /\
  sample.ParseProgram 1
    (sample.New (tokenizer sample.eof
       [T LBRACE "{" 1 1; T IDENT "a" 1 2; T RBRACE "}" 1 3]))
  = Returns
      (Some (ast.mkProgram
         [ast.ExpressionStatement (T LBRACE "{" 1 1)
            (ast.HashLiteral (T LBRACE "{" 1 1) [])]))
      None.
Proof.
  split.
  - destruct (single_token_dropped sample.tk sample.ParseInt sample.quoteType
                sample.quote sample.eof eq_refl 1 (T LBRACKET "[" 1 1)
                (T INT "1" 1 2) (T RBRACKET "]" 1 3) (le_n 1) eq_refl)
      as [Harray _].
    exact (Harray eq_refl eq_refl).
  - destruct (single_token_dropped sample.tk sample.ParseInt sample.quoteType
                sample.quote sample.eof eq_refl 1 (T LBRACE "{" 1 1)
                (T IDENT "a" 1 2) (T RBRACE "}" 1 3) (le_n 1) eq_refl)
      as [_ Hhash].
    exact (Hhash eq_refl eq_refl).
Defined.

(** [return;], [return 5;] and [return] alone. *)
Lemma return_statement_witness :
  let retToken := T RETURN "return" 1 1 in
  sample.ParseProgram 1
    (sample.New (tokenizer sample.eof [retToken; T SEMICOLON ";" 1 7]))
  = Returns (Some (ast.mkProgram [ast.ReturnStatement retToken None])) None /\
  sample.ParseProgram 1
    (sample.New (tokenizer sample.eof
       [retToken; T INT "5" 1 8; T SEMICOLON ";" 1 9]))
  = Returns
      (Some (ast.mkProgram
         [ast.ReturnStatement retToken (Some (ast.Integer (T INT "5" 1 8) 5))]))
      None /\
  sample.ParseProgram 1 (sample.New (tokenizer sample.eof [retToken]))
  = Returns None
      (Some (ParserErr
         {| errorToken := sample.eof;
            msg := "can not parse token type 'EOF'";
            pos := zeroPosition |})).
Proof.
  intros retToken.
  destruct (return_statement sample.tk sample.ParseInt sample.quoteType
              sample.quote sample.eof eq_refl 0 retToken eq_refl eq_refl)
    as (Hbare & Hvalue & Hend).
  split; [|split].
  - exact (Hbare (T SEMICOLON ";" 1 7) eq_refl).
  - apply (Hvalue [T INT "5" 1 8; T SEMICOLON ";" 1 9] _ (T INT "5" 1 8)
             [T SEMICOLON ";" 1 9]);
      [discriminate | reflexivity | right; eexists; split; reflexivity].
  - exact Hend.
Defined.

(** [a * (b + c)], [(a * b) + c] and [(a * b]. *)
Lemma parentheses_group_witness :
  let a := T IDENT "a" 1 1 in
  let b := T IDENT "b" 1 2 in
  let c := T IDENT "c" 1 3 in
  let times := T ASTERISK "*" 1 4 in
  let plus := T PLUS "+" 1 5 in
  let lp := T LPAREN "(" 1 6 in
  let rp := T RPAREN ")" 1 7 in
  let node t := ast.Ident (ast.mkIdentifier t (Literal t)) in
  sample.ParseProgram 4
    (sample.New (tokenizer sample.eof [a; times; lp; b; plus; c; rp]))
  = Returns
      (Some (ast.mkProgram [ast.ExpressionStatement a
         (ast.InfixExpression times (node a) "*"
            (ast.InfixExpression plus (node b) "+" (node c)))]))
      None /\
  sample.ParseProgram 4
    (sample.New (tokenizer sample.eof [lp; a; times; b; rp; plus; c]))
  = Returns
      (Some (ast.mkProgram [ast.ExpressionStatement lp
         (ast.InfixExpression plus
            (ast.InfixExpression times (node a) "*" (node b)) "+" (node c))]))
      None /\
  sample.ParseProgram 4 (sample.New (tokenizer sample.eof [lp; a; times; b]))
  = Returns None
      (Some (ParserErr
         {| errorToken := sample.eof;
            msg := "expectd token type is ')', got 'EOF'";
            pos := zeroPosition |})).
Proof.
  intros a b c times plus lp rp node.
  apply (parentheses_group sample.tk sample.ParseInt sample.quoteType
           sample.quote sample.eof eq_refl 4 a times b plus c lp rp
           (node a) (node b) (node c));
    try reflexivity; try (repeat split); lia.
Defined.

(** [a[1]] and [a[1]. *)
Lemma index_expression_witness :
  let a := T IDENT "a" 1 1 in
  let lb := T LBRACKET "[" 1 2 in
  let one := T INT "1" 1 3 in
  let rb := T RBRACKET "]" 1 4 in
  sample.ParseProgram 2 (sample.New (tokenizer sample.eof [a; lb; one; rb]))
  = Returns
      (Some (ast.mkProgram [ast.ExpressionStatement a
         (ast.InfixExpression lb (ast.Ident (ast.mkIdentifier a "a")) "["
            (ast.Integer one 1))]))
      None /\
  sample.ParseProgram 2 (sample.New (tokenizer sample.eof [a; lb; one]))
  = Returns None
      (Some (ParserErr
         {| errorToken := sample.eof;
            msg := "expectd token type is ']', got 'EOF'";
            pos := zeroPosition |})).
Proof.
  intros a lb one rb.
  apply (index_expression sample.tk sample.ParseInt sample.quoteType
           sample.quote sample.eof eq_refl 2 a lb one rb
           (ast.Ident (ast.mkIdentifier a "a")) (ast.Integer one 1));
    reflexivity.
Defined.

(** [a ++ ++], under the table with the postfix operator. *)
Lemma postfix_operators_witness :
  let a := T IDENT "a" 1 1 in
  let first := T INCREMENT "++" 1 3 in
  let second := T INCREMENT "++" 1 6 in
  parser.ParseProgram withPostfix sample.ParseInt sample.quoteType sample.quote 3
    (parser.New withPostfix (tokenizer sample.eof [a; first; second]))
  = Returns
      (Some (ast.mkProgram [ast.ExpressionStatement a
         (ast.PostfixExpression second
            (ast.PostfixExpression first (ast.Ident (ast.mkIdentifier a "a")) "++")
            "++")]))
      None.
Proof.
  intros a first second.
  apply (postfix_operators withPostfix sample.ParseInt sample.quoteType
           sample.quote sample.eof eq_refl 3 a
           (ast.Ident (ast.mkIdentifier a "a")) [first; second]);
    [reflexivity | reflexivity | repeat constructor | cbn; lia].
Defined.

(** [! - a], and [- a * b], in which [*] binds tighter than the prefix
    [-] of the sample table. *)
Lemma prefix_operators_witness :
  let bang := T BANG "!" 1 1 in
  let minus := T MINUS "-" 1 3 in
  let a := T IDENT "a" 1 4 in
  let times := T ASTERISK "*" 1 6 in
  let b := T IDENT "b" 1 8 in
  let node t := ast.Ident (ast.mkIdentifier t (Literal t)) in
  sample.ParseProgram 3 (sample.New (tokenizer sample.eof [bang; minus; a]))
  = Returns
      (Some (ast.mkProgram [ast.ExpressionStatement bang
         (ast.PrefixExpression bang "!"
            (ast.PrefixExpression minus "-" (node a)))]))
      None /\
  sample.ParseProgram 3 (sample.New (tokenizer sample.eof [minus; a; times; b]))
  = Returns
      (Some (ast.mkProgram [ast.ExpressionStatement minus
         (ast.PrefixExpression minus "-"
            (ast.InfixExpression times (node a) "*" (node b)))]))
      None.
Proof.
  intros bang minus a times b node.
  destruct (prefix_operators sample.tk sample.ParseInt sample.quoteType
              sample.quote sample.eof eq_refl 3 eq_refl) as [Hnest Hoperand].
  split.
  - apply (Hnest [bang; minus] a (node a));
      [repeat constructor | reflexivity | cbn; lia].
  - apply (Hoperand minus a times b (node a) (node b));
      try reflexivity. repeat split.
Defined.

(** [a; b 5;]: three statements. *)
Lemma program_of_statements_witness :
  let a := T IDENT "a" 1 1 in
  let b := T IDENT "b" 1 4 in
  let five := T INT "5" 1 6 in
  sample.ParseProgram 4
    (sample.New (tokenizer sample.eof
       [a; T SEMICOLON ";" 1 2; b; five; T SEMICOLON ";" 1 7]))
  = Returns
      (Some (ast.mkProgram
         [ast.ExpressionStatement a (ast.Ident (ast.mkIdentifier a "a"));
          ast.ExpressionStatement b (ast.Ident (ast.mkIdentifier b "b"));
          ast.ExpressionStatement five (ast.Integer five 5)]))
      None.
Proof.
  intros a b five.
  apply (program_of_statements sample.tk sample.ParseInt sample.quoteType
           sample.quote sample.eof eq_refl 4
           [(a, Some (T SEMICOLON ";" 1 2)); (b, None);
            (five, Some (T SEMICOLON ";" 1 7))]);
    [reflexivity | | cbn; lia].
  repeat constructor; eexists; split; reflexivity.
Defined.

(** [if (x) { a; b }], the same followed by [else { c }], and [if x { a; b }]. *)
Lemma if_expression_witness :
  let ifToken := T IF_ "if" 1 1 in
  let lp := T LPAREN "(" 1 4 in
  let x := T IDENT "x" 1 5 in
  let rp := T RPAREN ")" 1 6 in
  let lbrace := T LBRACE "{" 1 8 in
  let a := T IDENT "a" 1 10 in
  let semi := T SEMICOLON ";" 1 11 in
  let b := T IDENT "b" 1 13 in
  let rbrace := T RBRACE "}" 1 15 in
  let elseToken := T ELSE "else" 1 17 in
  let lbrace2 := T LBRACE "{" 1 22 in
  let c := T IDENT "c" 1 24 in
  let rbrace2 := T RBRACE "}" 1 26 in
  let node t := ast.Ident (ast.mkIdentifier t (Literal t)) in
  let body :=
    ast.Block lbrace
      [ast.ExpressionStatement a (node a); ast.ExpressionStatement b (node b)] in
  sample.ParseProgram 5
    (sample.New (tokenizer sample.eof
       [ifToken; lp; x; rp; lbrace; a; semi; b; rbrace]))
  = Returns
      (Some (ast.mkProgram [ast.ExpressionStatement ifToken
         (ast.IfExpression ifToken (node x) body None)]))
      None /\
  sample.ParseProgram 5
    (sample.New (tokenizer sample.eof
       [ifToken; lp; x; rp; lbrace; a; semi; b; rbrace;
        elseToken; lbrace2; c; rbrace2]))
  = Returns
      (Some (ast.mkProgram [ast.ExpressionStatement ifToken
         (ast.IfExpression ifToken (node x) body
            (Some (ast.Block lbrace2 [ast.ExpressionStatement c (node c)])))]))
      None /\
  sample.ParseProgram 5
    (sample.New (tokenizer sample.eof [ifToken; x; lbrace; a; semi; b; rbrace]))
  = Returns None
      (Some (ParserErr
         {| errorToken := x;
            msg := "expectd token type is '(', got 'IDENT'";
            pos := zeroPosition |})).
Proof.
  intros ifToken lp x rp lbrace a semi b rbrace elseToken lbrace2 c rbrace2
    node body.
  apply (if_expression sample.tk sample.ParseInt sample.quoteType sample.quote
           sample.eof eq_refl 5 ifToken lp x rp lbrace rbrace
           elseToken lbrace2 rbrace2 (node x)
           [(a, Some semi); (b, None)] [(c, None)]
           [ast.ExpressionStatement a (node a); ast.ExpressionStatement b (node b)]
           [ast.ExpressionStatement c (node c)]);
    try reflexivity;
    try (repeat constructor; eexists; split; reflexivity);
    cbn; lia.
Defined.

(** [fn add(x, y) { x; y }], [fn(x, y) { x; y }] and [fn(x, y) { x; y]. *)
Lemma function_literal_witness :
  let fn := T FUNCTION "fn" 1 1 in
  let name := T IDENT "add" 1 4 in
  let lp := T LPAREN "(" 1 7 in
  let x := T IDENT "x" 1 8 in
  let comma := T COMMA "," 1 9 in
  let y := T IDENT "y" 1 11 in
  let rp := T RPAREN ")" 1 12 in
  let lbrace := T LBRACE "{" 1 14 in
  let x1 := T IDENT "x" 1 16 in
  let semi := T SEMICOLON ";" 1 17 in
  let y1 := T IDENT "y" 1 19 in
  let rbrace := T RBRACE "}" 1 21 in
  let node t := ast.Ident (ast.mkIdentifier t (Literal t)) in
  let parameters := [ast.mkIdentifier x "x"; ast.mkIdentifier y "y"] in
  let body :=
    ast.Block lbrace
      [ast.ExpressionStatement x1 (node x1); ast.ExpressionStatement y1 (node y1)] in
  sample.ParseProgram 4
    (sample.New (tokenizer sample.eof
       [fn; name; lp; x; comma; y; rp; lbrace; x1; semi; y1; rbrace]))
  = Returns
      (Some (ast.mkProgram [ast.ExpressionStatement fn
         (ast.FunctionExpression fn (Some (ast.mkIdentifier name "add"))
            parameters body)]))
      None /\
  sample.ParseProgram 4
    (sample.New (tokenizer sample.eof
       [fn; lp; x; comma; y; rp; lbrace; x1; semi; y1; rbrace]))
  = Returns
      (Some (ast.mkProgram [ast.ExpressionStatement fn
         (ast.FunctionExpression fn None parameters body)]))
      None /\
  sample.ParseProgram 4
    (sample.New (tokenizer sample.eof
       [fn; lp; x; comma; y; rp; lbrace; x1; semi; y1]))
  = Returns None
      (Some (ParserErr
         {| errorToken := sample.eof;
            msg := "expectd token type is '}', got 'EOF'";
            pos := zeroPosition |})).
Proof.
  intros fn name lp x comma y rp lbrace x1 semi y1 rbrace node parameters body.
  apply (function_literal sample.tk sample.ParseInt sample.quoteType sample.quote
           sample.eof eq_refl 4 fn name lp rp lbrace rbrace
           [(x, Some comma); (y, None)] [(x1, Some semi); (y1, None)]
           [node x; node y]
           [ast.ExpressionStatement x1 (node x1); ast.ExpressionStatement y1 (node y1)]);
    try reflexivity;
    try (repeat constructor; eexists; split; reflexivity);
    try (repeat constructor); cbn; lia.
Defined.

(** [let 5], whose parse ends with an error. *)
Lemma ParseProgram_returns_witness :
  exists r,
    (forall fuel, (2 < fuel)%nat ->
       sample.ParseProgram fuel (sample.New (tokenizer sample.eof let_five)) = r) /\
    ((exists program, r = Returns (Some program) None) \/
     (exists e, r = Returns None (Some (ParserErr e)))).
Proof.
  exact (ParseProgram_returns sample.tk sample.ParseInt sample.quoteType
           sample.quote sample.eof eq_refl let_five eq_refl).
Defined.

(** [let x = 5;], [let = 5] and [let x 5]. *)
Lemma let_statement_witness :
  let letToken := T LET "let" 1 1 in
  let x := T IDENT "x" 1 5 in
  let assign := T ASSIGN "=" 1 7 in
  let five := T INT "5" 1 9 in
  sample.ParseProgram 1
    (sample.New (tokenizer sample.eof
       [letToken; x; assign; five; T SEMICOLON ";" 1 10]))
  = Returns
      (Some (ast.mkProgram
         [ast.LetStatement letToken (ast.mkIdentifier x "x") (ast.Integer five 5)]))
      None /\
  sample.ParseProgram 1 (sample.New (tokenizer sample.eof [letToken; assign; five]))
  = Returns None
      (Some (ParserErr
         {| errorToken := assign;
            msg := "expectd token type is 'IDENT', got '='";
            pos := zeroPosition |})) /\
  sample.ParseProgram 1 (sample.New (tokenizer sample.eof [letToken; x; five]))
  = Returns None
      (Some (ParserErr
         {| errorToken := five;
            msg := "expectd token type is '=', got 'INT'";
            pos := zeroPosition |})).
Proof.
  intros letToken x assign five.
  destruct (let_statement sample.tk sample.ParseInt sample.quoteType sample.quote
              sample.eof eq_refl 0 letToken eq_refl)
    as (Hvalue & Hname & Hassign).
  split; [|split].
  - apply (Hvalue x assign [five; T SEMICOLON ";" 1 10] (ast.Integer five 5) five
             [T SEMICOLON ";" 1 10]);
      [reflexivity | reflexivity | reflexivity | discriminate
      | right; eexists; split; reflexivity].
  - exact (Hname [assign; five] ltac:(discriminate)).
  - exact (Hassign x [five] eq_refl ltac:(discriminate)).
Defined.

End OnSamples.

(** *** Faults *)

Section Faults.
Import token lexer parser.

Variable tk : Package.
Variable ParseInt : string -> option Z.
Variable quoteType : TokenType -> string.
Variable quote : string -> string.
Variable eof : Token.

(** C6 (the code departs from it): on [let 5] the parse stops at the
    token [5], at line 1, column 5.  [ParseProgram] returns no program and
    a [ParserError] that carries that token, but no site fills the field
    [pos] that [Error] prints: the message ends with line 0, column 0. *)
Theorem ParserError_reports_line_zero (fuel : nat) :
  let five := sample.T INT "5" 1 5 in
  let e := {| errorToken := five;
              msg := expected quoteType IDENT INT;
              pos := zeroPosition |} in
  ParseProgram tk ParseInt quoteType quote (S fuel)
    (New tk (tokenizer eof sample.let_five))
  = Returns None (Some (ParserErr e)) /\
  Error e = expected quoteType IDENT INT +:+ " at line: 0, column: 0" /\
  Pos (errorToken e) = mkPosition 1 5.
Proof. repeat split. Qed.

(** C7 (the code departs from it): when the tokenizer meets malformed
    input on the first or on the second token, the handler of [New]
    panics with a string; the deferred function of [ParseProgram]
    recovers it and asserts it to be an [error], which panics again.
    That panic leaves [ParseProgram]: no error value is returned. *)
Theorem lexical_error_escapes (fuel : nat) (at_ : Position) (m : string)
    (t : Token) (rest : list Scan) :
  ParseProgram tk ParseInt quoteType quote fuel
    (New tk (mkLexer (Malformed at_ m :: rest) eof))
  = Escapes (PanicError TypeAssertionError) /\
  ParseProgram tk ParseInt quoteType quote fuel
    (New tk (mkLexer (Tok t :: Malformed at_ m :: rest) eof))
  = Escapes (PanicError TypeAssertionError).
Proof. split; reflexivity. Qed.

(** Whatever the parser was doing, a panic with a string is not turned
    into a returned error. *)
Lemma string_panic_escapes (fuel : nat) (p : Parser) (s : string) :
  parseProgramBody tk ParseInt quoteType quote fuel p = Panic (PanicString s) ->
  ParseProgram tk ParseInt quoteType quote fuel p
  = Escapes (PanicError TypeAssertionError).
Proof. unfold ParseProgram. by intros ->. Qed.

(** A panic with a [ParserError] is returned as the error, with no
    program. *)
Lemma ParserError_returned (fuel : nat) (p : Parser) (e : ParserError) :
  parseProgramBody tk ParseInt quoteType quote fuel p
  = Panic (PanicError (ParserErr e)) ->
  ParseProgram tk ParseInt quoteType quote fuel p
  = Returns None (Some (ParserErr e)).
Proof. unfold ParseProgram. by intros ->. Qed.

(** *** Every [ParserError] is without position *)

Lemma Unpositioned_bind {A B : Type} (m : M A) (k : A -> M B) :
  Unpositioned m -> (forall a, Unpositioned (k a)) -> Unpositioned (bind m k).
Proof.
  intros Hm Hk p. unfold bind. specialize (Hm p).
  destruct (m p) as [a p1| |]; [apply Hk | done..].
Qed.

Lemma Unpositioned_ret {A : Type} (a : A) : Unpositioned (ret a).
Proof. by intros p. Qed.

Lemma Unpositioned_gets {A : Type} (f : Parser -> A) : Unpositioned (gets f).
Proof. by intros p. Qed.

Lemma Unpositioned_stuck {A : Type} : Unpositioned (@stuck A).
Proof. by intros p. Qed.

Lemma Unpositioned_panicParserError {A : Type} (m : string) (t : Token) :
  Unpositioned (@panicParserError A m t).
Proof. by intros p. Qed.

Lemma Unpositioned_nextToken : Unpositioned nextToken.
Proof. intros p. unfold nextToken. by destruct (NextToken (lex p)) as [[t|at_ m] l]. Qed.

Lemma Unpositioned_setInitialized : Unpositioned setInitialized.
Proof. by intros p. Qed.

Create HintDb unpos.

#[local] Hint Resolve Unpositioned_ret Unpositioned_gets Unpositioned_stuck
  Unpositioned_panicParserError Unpositioned_nextToken
  Unpositioned_setInitialized : unpos.

(** The proofs below: close a call that is known, or split a sequence or
    a case distinction. *)
Ltac unpositioned :=
  repeat first
    [ solve [auto with unpos nocore]
    | apply Unpositioned_bind; [| intros ?]
    | match goal with
      | |- Unpositioned (if ?b then _ else _) => destruct b
      | |- Unpositioned (match ?x with _ => _ end) => destruct x
      end ].

Lemma Unpositioned_assertTokenType expect actual :
  Unpositioned (assertTokenType quoteType expect actual).
Proof. unfold assertTokenType. unpositioned. Qed.

#[local] Hint Resolve Unpositioned_assertTokenType : unpos.

Lemma Unpositioned_assertNextTokenType expect :
  Unpositioned (assertNextTokenType quoteType expect).
Proof. unfold assertNextTokenType. unpositioned. Qed.

Lemma Unpositioned_assertCurrentTokenType expect :
  Unpositioned (assertCurrentTokenType quoteType expect).
Proof. unfold assertCurrentTokenType. unpositioned. Qed.

Lemma Unpositioned_skipSemicolon : Unpositioned skipSemicolon.
Proof. unfold skipSemicolon, peekTokenTypeIs. unpositioned. Qed.

Section RulesUnpositioned.
Variable pe : Z -> M ast.Expression.
Hypothesis pe_unpositioned : forall precedence, Unpositioned (pe precedence).

#[local] Hint Resolve Unpositioned_assertNextTokenType
  Unpositioned_assertCurrentTokenType Unpositioned_skipSemicolon
  pe_unpositioned : unpos.

Ltac rule :=
  unfold currentTokenTypeIs, peekTokenTypeIs, nextTokenTypeIs,
    currentTokenPrecedence, peekTokenPrecedence;
  unpositioned.

Lemma Unpositioned_parseStatement :
  Unpositioned (parseStatement tk quoteType pe).
Proof.
  unfold parseStatement, parseLetStatement, parseReturnStatement,
    parseExpressionStatement. rule.
Qed.

Lemma Unpositioned_parseBlockStatements n statements :
  Unpositioned (parseBlockStatements tk quoteType pe n statements).
Proof.
  revert statements. induction n as [|n IH]; intros statements;
    cbn [parseBlockStatements]; rule; apply Unpositioned_parseStatement.
Qed.

Lemma Unpositioned_parseBlockExpression n :
  Unpositioned (parseBlockExpression tk quoteType pe n).
Proof.
  unfold parseBlockExpression. rule. apply Unpositioned_parseBlockStatements.
Qed.

Lemma Unpositioned_parseParametersLoop n params :
  Unpositioned (parseParametersLoop n params).
Proof.
  revert params. induction n as [|n IH]; intros params;
    cbn [parseParametersLoop]; rule.
Qed.

Lemma Unpositioned_parseArrayElements n elements :
  Unpositioned (parseArrayElements tk pe n elements).
Proof.
  revert elements. induction n as [|n IH]; intros elements;
    cbn [parseArrayElements]; rule.
Qed.

Lemma Unpositioned_parseHashPairs n pairs :
  Unpositioned (parseHashPairs tk quoteType pe n pairs).
Proof.
  revert pairs. induction n as [|n IH]; intros pairs;
    cbn [parseHashPairs]; rule.
Qed.

Lemma Unpositioned_parseCallArguments n args :
  Unpositioned (parseCallArguments tk pe n args).
Proof.
  revert args. induction n as [|n IH]; intros args;
    cbn [parseCallArguments]; rule.
Qed.

#[local] Hint Resolve Unpositioned_parseBlockExpression
  Unpositioned_parseParametersLoop Unpositioned_parseArrayElements
  Unpositioned_parseHashPairs Unpositioned_parseCallArguments : unpos.

Lemma Unpositioned_callPrefix n fn :
  Unpositioned (callPrefix tk ParseInt quoteType quote pe n fn).
Proof.
  destruct fn; cbn [callPrefix];
    unfold parseIdentifier, parseInteger, parseBoolean, parseString,
      parseIfExpression, parseFunction, parseParameters, parseArrayLiteral,
      parseHashLiteral, parseGroupedExpression, parsePrefix; rule.
Qed.

Lemma Unpositioned_callInfix n fn left :
  Unpositioned (callInfix tk quoteType pe n fn left).
Proof.
  destruct fn; cbn [callInfix];
    unfold parseCallExpression, parseIndexExpression, parseInfix, parsePostfix;
    rule.
Qed.

Lemma Unpositioned_parseExpressionLoop n precedence left :
  Unpositioned (parseExpressionLoop tk quoteType pe n precedence left).
Proof.
  revert left. induction n as [|n IH]; intros left;
    cbn [parseExpressionLoop]; rule; apply Unpositioned_callInfix.
Qed.

Lemma Unpositioned_parseExpressionBody n precedence :
  Unpositioned (parseExpressionBody tk ParseInt quoteType quote pe n precedence).
Proof.
  unfold parseExpressionBody. rule;
    [apply Unpositioned_callPrefix | apply Unpositioned_parseExpressionLoop].
Qed.

End RulesUnpositioned.

Lemma Unpositioned_parseExpression fuel precedence :
  Unpositioned (parseExpression tk ParseInt quoteType quote fuel precedence).
Proof.
  revert precedence. induction fuel as [|fuel IH]; intros precedence;
    cbn [parseExpression].
  - apply Unpositioned_stuck.
  - by apply Unpositioned_parseExpressionBody.
Qed.

Lemma Unpositioned_parseProgramBody fuel :
  Unpositioned (parseProgramBody tk ParseInt quoteType quote fuel).
Proof.
  assert (Hloop : forall n statements,
            Unpositioned (parseProgramStatements tk ParseInt quoteType quote
                            fuel n statements)).
  { pose proof (Unpositioned_parseStatement _ (Unpositioned_parseExpression fuel))
      as Hstatement.
    induction n as [|n IH]; intros statements; cbn [parseProgramStatements];
      unfold currentTokenTypeIs; unpositioned. }
  unfold parseProgramBody. unpositioned.
Qed.

(** X18: whatever the parser and its input, an error that [ParseProgram]
    returns comes with no program, and its message ends with line 0,
    column 0: no site that builds a [ParserError] fills the position
    that [Error] prints. *)
Lemma ParserError_without_position (fuel : nat) (p : Parser) (e : ParserError)
    (program : option ast.Program) :
  ParseProgram tk ParseInt quoteType quote fuel p
  = Returns program (Some (ParserErr e)) ->
  program = None /\
  Error e = msg e +:+ " at line: 0, column: 0".
Proof.
  unfold ParseProgram. intros Hreturn.
  pose proof (Unpositioned_parseProgramBody fuel p) as Hpos.
  destruct (parseProgramBody tk ParseInt quoteType quote fuel p)
    as [prog p1|[[e1|]|s]|]; try done.
  injection Hreturn as <- <-. split; [done|].
  unfold Error. by rewrite Hpos.
Qed.

End Faults.

(** The error of [let 5], whose token is at line 1, column 5. *)
Lemma ParserError_without_position_witness :
  let e := {| parser.errorToken := sample.T token.INT "5" 1 5;
              parser.msg := "expectd token type is 'IDENT', got 'INT'";
              parser.pos := token.zeroPosition |} in
  (None : option ast.Program) = None /\
  parser.Error e = parser.msg e +:+ " at line: 0, column: 0".
Proof.
  intros e.
  apply (ParserError_without_position sample.tk sample.ParseInt sample.quoteType
           sample.quote 1
           (sample.New (parser.tokenizer sample.eof sample.let_five)) e None).
  reflexivity.
Defined.
